(** * ECC from scratch: prime-field arithmetic, the short Weierstrass group
      law, scalar multiplication, ECDSA and ECDH

    A shallow embedding of [src/field.py], [src/curve.py], [src/ecdsa.py]
    and [src/ecdh.py].  Python integers are [Z]; [%] is [Z.modulo] and [//]
    is [Z.div] (both round towards minus infinity, like Python); exceptions
    are values of [exn] carried by the [result] monad. *)

From Stdlib Require Import ZArith Lia Bool String List Zmod Field Znumtheory.
From Stdlib.Strings Require Import Byte.
Import ListNotations.
Local Open Scope Z_scope.

(** ** Exceptions and the error monad *)

Inductive exn : Type :=
| ZeroDivisionError
| ValueError
| TypeError
| OverflowError
| IndexError
| RecursionError.

Inductive result (A : Type) : Type :=
| Ok (a : A)
| Raise (e : exn).

Arguments Ok {A} a.
Arguments Raise {A} e.

Definition bind {A B : Type} (m : result A) (f : A -> result B) : result B :=
  match m with
  | Ok a => f a
  | Raise e => Raise e
  end.

Notation "x <- m ;; k" := (bind m (fun x => k))
  (at level 61, m at next level, right associativity).

Definition returns {A : Type} (m : result A) : Prop := exists a, m = Ok a.

(** ** Python integer primitives *)

(** [a % m]: raises [ZeroDivisionError] on a zero modulus. *)
Definition pymod (a m : Z) : result Z :=
  if m =? 0 then Raise ZeroDivisionError else Ok (a mod m).

(** Square-and-multiply on the binary digits of the exponent, every product
    reduced. *)
Definition powmod (a : Z) (e : positive) (m : Z) : Z :=
  Pos.iter_op (fun x y => (x * y) mod m) e (a mod m).

(** The three-argument [pow(a, e, m)]: a zero modulus is a [ValueError]; a
    negative exponent first inverts the base, which is a [ValueError] when
    the base is not invertible. *)
Definition pypow (a e m : Z) : result Z :=
  if m =? 0 then Raise ValueError
  else match e with
       | Z0 => Ok (1 mod m)
       | Zpos q => Ok (powmod a q m)
       | Zneg q =>
           if Z.gcd a m =? 1 then Ok (powmod (Z.invmod a m) q m)
           else Raise ValueError
       end.

(** [n.bit_length()] *)
Definition bit_length (n : Z) : Z :=
  match n with
  | Z0 => 0
  | Zpos q | Zneg q => Z.log2 (Zpos q) + 1
  end.

(** [1 << s]: a negative shift count is a [ValueError]. *)
Definition shl1 (s : Z) : result Z :=
  if s <? 0 then Raise ValueError else Ok (Z.shiftl 1 s).

(** ** field.py *)

Record PrimeField : Type := { Fp : Z }.

Module Field.

Definition normalize (F : PrimeField) (x : Z) : result Z := pymod x (Fp F).

Definition add (F : PrimeField) (a b : Z) : result Z := pymod (a + b) (Fp F).

Definition sub (F : PrimeField) (a b : Z) : result Z := pymod (a - b) (Fp F).

Definition mul (F : PrimeField) (a b : Z) : result Z := pymod (a * b) (Fp F).

Definition neg (F : PrimeField) (a : Z) : result Z := pymod (- a) (Fp F).

Definition inv (F : PrimeField) (a : Z) : result Z :=
  r <- pymod a (Fp F) ;;
  if r =? 0 then Raise ZeroDivisionError
  else pypow a (Fp F - 2) (Fp F).

Definition div (F : PrimeField) (a b : Z) : result Z :=
  i <- inv F b ;; mul F a i.

Definition pow (F : PrimeField) (a e : Z) : result Z := pypow a e (Fp F).

End Field.

(** ** curve.py *)

(** The eight fields of the frozen dataclass, and [oid], the identity of
    the Python object ([id(curve)]): two instances built from the same
    parameters are two curves with different [oid]. *)
Record Curve : Type := {
  name : string;
  p : Z;
  a : Z;
  b : Z;
  Gx : Z;
  Gy : Z;
  n : Z;
  h : Z;
  oid : Z
}.

Definition F (c : Curve) : PrimeField := {| Fp := p c |}.

(** [c is d]: the source compares curves by identity, never by their
    fields. *)
Definition same_curve (c d : Curve) : bool := oid c =? oid d.

(** A point is the dataclass after [__post_init__]: the curve and the two
    optional coordinates. *)
Record Point : Type := { curve : Curve; x : option Z; y : option Z }.

Module Pt.

Definition is_infinity (P : Point) : bool :=
  match x P, y P with
  | None, None => true
  | _, _ => false
  end.

Definition infinity (c : Curve) : Point := {| curve := c; x := None; y := None |}.

(** [Point(curve, x, y)]: the constructor followed by [__post_init__].  A
    single missing coordinate reaches [None % int], a [TypeError]; the
    pair [self.x % F.p, self.y % F.p] is evaluated from the left, so a
    missing [y] is reached only after [self.x % F.p] has been computed. *)
Definition make (c : Curve) (x0 y0 : option Z) : result Point :=
  match x0, y0 with
  | None, None => Ok (infinity c)
  | Some xv, None => _ <- pymod xv (p c) ;; Raise TypeError
  | Some xv, Some yv =>
      x1 <- pymod xv (p c) ;;
      y1 <- pymod yv (p c) ;;
      lhs <- Field.pow (F c) y1 2 ;;
      x3 <- Field.pow (F c) x1 3 ;;
      ax <- Field.mul (F c) (a c) x1 ;;
      rhs <- pymod (x3 + ax + b c) (p c) ;;
      if lhs =? rhs then Ok {| curve := c; x := Some x1; y := Some y1 |}
      else Raise ValueError
  | _, _ => Raise TypeError
  end.

Definition neg (P : Point) : result Point :=
  if is_infinity P then Ok P
  else match y P with
       | Some yv => ny <- Field.neg (F (curve P)) yv ;; make (curve P) (x P) (Some ny)
       | None => Raise TypeError
       end.

Definition add (P Q : Point) : result Point :=
  if negb (same_curve (curve P) (curve Q)) then Raise TypeError
  else if is_infinity P then Ok Q
  else if is_infinity Q then Ok P
  else
    match x P, y P, x Q, y Q with
    | Some x1, Some y1, Some x2, Some y2 =>
        let Fc := F (curve P) in
        if (x1 =? x2) && (negb (y1 =? y2) || (y1 =? 0)) then Ok (infinity (curve P))
        else
          s <- (if (x1 =? x2) && (y1 =? y2) then
                  xx <- Field.pow Fc x1 2 ;;
                  t <- Field.mul Fc 3 xx ;;
                  num <- Field.add Fc t (a (curve P)) ;;
                  den <- Field.mul Fc 2 y1 ;;
                  Field.div Fc num den
                else
                  num <- Field.sub Fc y2 y1 ;;
                  den <- Field.sub Fc x2 x1 ;;
                  Field.div Fc num den) ;;
          ss <- Field.pow Fc s 2 ;;
          t1 <- Field.sub Fc ss x1 ;;
          x3 <- Field.sub Fc t1 x2 ;;
          d <- Field.sub Fc x1 x3 ;;
          m <- Field.mul Fc s d ;;
          y3 <- Field.sub Fc m y1 ;;
          make (curve P) (Some x3) (Some y3)
    | _, _, _, _ => Raise TypeError
    end.

Definition double (P : Point) : result Point := add P P.

End Pt.


(** [scalar_mult]: the loop [while k: ...] reads the binary digits of the
    positive [k] from the least significant one; the doubling of [base] is
    evaluated after every digit, the last one included. *)
Fixpoint double_and_add (k : positive) (Q base : Point) : result Point :=
  match k with
  | xH =>
      Q' <- Pt.add Q base ;;
      _ <- Pt.double base ;;
      Ok Q'
  | xO k' =>
      base' <- Pt.double base ;;
      double_and_add k' Q base'
  | xI k' =>
      Q' <- Pt.add Q base ;;
      base' <- Pt.double base ;;
      double_and_add k' Q' base'
  end.

(** The body of [scalar_mult], the recursive call left as a parameter. *)
Definition scalar_mult_body (self : Z -> Point -> result Point)
    (k : Z) (P : Point) : result Point :=
  r <- pymod k (n (curve P)) ;;
  if (r =? 0) || Pt.is_infinity P then Ok (Pt.infinity (curve P))
  else if k <? 0 then
    nP <- Pt.neg P ;;
    self (- k) nP
  else
    match k with
    | Zpos q => double_and_add q (Pt.infinity (curve P)) P
    | _ => Ok (Pt.infinity (curve P))
    end.

(** The only recursive call passes [-k > 0], so the recursion is at most
    one call deep; two unfoldings of the body tie the knot (see
    [scalar_mult_unfold]). *)
Definition scalar_mult : Z -> Point -> result Point :=
  scalar_mult_body (scalar_mult_body (fun _ _ => Raise RecursionError)).

(** [wnaf_scalar_mult]: the table of odd multiples. *)
Fixpoint precompute (cnt : nat) (acc : list Point) (last twoP : Point)
    : result (list Point) :=
  match cnt with
  | O => Ok acc
  | S cnt' =>
      nxt <- Pt.add last twoP ;;
      precompute cnt' (acc ++ [nxt]) nxt twoP
  end.

(** The digit [zi] chosen for the current [k]. *)
Definition wnaf_digit (k w : Z) : Z :=
  if Z.odd k then
    let zi := k mod Z.shiftl 1 w in
    if zi >? Z.shiftl 1 (w - 1) then zi - Z.shiftl 1 w else zi
  else 0.

(** [while k > 0: ...; naf.append(zi); k >>= 1], least significant digit
    first.  [fuel] bounds the number of iterations. *)
Fixpoint wnaf_digits (fuel : nat) (k w : Z) : list Z :=
  match fuel with
  | O => []
  | S fuel' =>
      if 0 <? k then
        wnaf_digit k w :: wnaf_digits fuel' (Z.shiftr (k - wnaf_digit k w) 1) w
      else []
  end.

(** Enough iterations for the loop to end on its own test (see
    [wnaf_fuel_enough]). *)
Definition wnaf_fuel (k w : Z) : nat := Z.to_nat (Z.log2 k + w + 3).

(** [for zi in reversed(naf): ...], the digits given most significant
    first. *)
Fixpoint wnaf_accumulate (digits : list Z) (precomp : list Point) (Q : Point)
    : result Point :=
  match digits with
  | [] => Ok Q
  | zi :: rest =>
      Q1 <- Pt.double Q ;;
      Q2 <- (if zi =? 0 then Ok Q1
             else
               let idx := (Z.abs zi - 1) / 2 in
               match nth_error precomp (Z.to_nat idx) with
               | None => Raise IndexError
               | Some addend =>
                   t <- (if zi >? 0 then Ok addend else Pt.neg addend) ;;
                   Pt.add Q1 t
               end) ;;
      wnaf_accumulate rest precomp Q2
  end.

Definition wnaf_scalar_mult_body (self : Z -> Point -> Z -> result Point)
    (k : Z) (P : Point) (w : Z) : result Point :=
  r <- pymod k (n (curve P)) ;;
  if (r =? 0) || Pt.is_infinity P then Ok (Pt.infinity (curve P))
  else if k <? 0 then
    nP <- Pt.neg P ;;
    self (- k) nP w
  else
    twoP <- Pt.double P ;;
    m <- shl1 (w - 2) ;;
    precomp <- precompute (Z.to_nat (m - 1)) [P] P twoP ;;
    let naf := wnaf_digits (wnaf_fuel k w) k w in
    wnaf_accumulate (rev naf) precomp (Pt.infinity (curve P)).

Definition wnaf_scalar_mult (k : Z) (P : Point) (w : Z) : result Point :=
  wnaf_scalar_mult_body
    (wnaf_scalar_mult_body (fun _ _ _ => Raise RecursionError)) k P w.

(** The default window width. *)
Definition default_w : Z := 5.

Definition SECP256R1 : Curve := {|
  name := "secp256r1";
  p := 0xffffffff00000001000000000000000000000000ffffffffffffffffffffffff;
  a := 0xffffffff00000001000000000000000000000000fffffffffffffffffffffffc;
  b := 0x5ac635d8aa3a93e7b3ebbd55769886bc651d06b0cc53b0f63bce3c3e27d2604b;
  Gx := 0x6b17d1f2e12c4247f8bce6e563a440f277037d812deb33a0f4a13945d898c296;
  Gy := 0x4fe342e2fe1a7f9b8ee7eb4a7c0f9e162bce33576b315ececbb6406837bf51f5;
  n := 0xffffffff00000000ffffffffffffffffbce6faada7179e84f3b9cac2fc632551;
  h := 1;
  oid := 1
|}.

Definition SECP256K1 : Curve := {|
  name := "secp256k1";
  p := 0xFFFFFFFFFFFFFFFFFFFFFFFFFFFFFFFFFFFFFFFFFFFFFFFFFFFFFFFEFFFFFC2F;
  a := 0;
  b := 7;
  Gx := 0x79BE667EF9DCBBAC55A06295CE870B07029BFCDB2DCE28D959F2815B16F81798;
  Gy := 0x483ADA7726A3C4655DA4FBFC0E1108A8FD17B448A68554199C47D08FFB10D4B8;
  n := 0xFFFFFFFFFFFFFFFFFFFFFFFFFFFFFFFEBAAEDCE6AF48A03BBFD25E8CD0364141;
  h := 1;
  oid := 2
|}.

Definition G (c : Curve) : result Point := Pt.make c (Some (Gx c)) (Some (Gy c)).


(** ** ecdsa.py and ecdh.py *)

Definition bytes : Type := list byte.

Definition byte_val (x : byte) : Z := Z.of_N (Byte.to_N x).

Definition byte_of_Z (v : Z) : byte :=
  match Byte.of_N (Z.to_N (v mod 256)) with
  | Some x => x
  | None => x00
  end.

(** [int.from_bytes(b, 'big')] *)
Definition int_from_bytes (bs : bytes) : Z :=
  fold_left (fun acc x => acc * 256 + byte_val x) bs 0.

(** The [len] low-order bytes of [v], most significant first. *)
Fixpoint be_bytes (len : nat) (v : Z) : bytes :=
  match len with
  | O => []
  | S len' => be_bytes len' (v / 256) ++ [byte_of_Z v]
  end.

(** [v.to_bytes(len, 'big')]: negative integers and integers that do not
    fit raise [OverflowError]. *)
Definition int_to_bytes (v len : Z) : result bytes :=
  if len <? 0 then Raise ValueError
  else if v <? 0 then Raise OverflowError
  else if 256 ^ len <=? v then Raise OverflowError
  else Ok (be_bytes (Z.to_nat len) v).

Definition bits2int (bs : bytes) (qlen n : Z) : result Z :=
  let i := int_from_bytes bs in
  let blen := Z.of_nat (List.length bs) * 8 in
  let i := if blen >? qlen then Z.shiftr i (blen - qlen) else i in
  pymod i n.

Definition int2octets (v rolen : Z) : result bytes := int_to_bytes v rolen.

Definition bits2octets (bs : bytes) (n : Z) : result bytes :=
  let z1 := int_from_bytes bs in
  z2 <- pymod z1 n ;;
  let qlen := bit_length n in
  let rolen := (qlen + 7) / 8 in
  int2octets z2 rolen.

Record KeyPair : Type := { kp_curve : Curve; kp_priv : Z; kp_pub : Point }.

Section Hash.

(** The digest and the keyed digest come from the standard library
    ([hashlib.sha256(data).digest()], [hmac.new(key, msg,
    hashlib.sha256).digest()]); the protocol code is generic in them. *)
Variable sha256 : bytes -> bytes.
Variable hmac_sha256 : bytes -> bytes -> bytes.

(** The inner loop [while len(T) < rolen: V = hmac(K, V); T += V]. *)
Fixpoint generate_T (fuel : nat) (K V T : bytes) (rolen : Z) : option (bytes * bytes) :=
  if Z.of_nat (List.length T) <? rolen then
    match fuel with
    | O => None
    | S fuel' =>
        let V' := hmac_sha256 K V in
        generate_T fuel' K V' (T ++ V') rolen
    end
  else Some (V, T).

(** The outer loop [while True: ...]; [None] when [fuel] iterations were
    not enough. *)
Fixpoint generate_k_loop (fuel : nat) (K V : bytes) (qlen rolen n : Z)
    : option (result Z) :=
  match fuel with
  | O => None
  | S fuel' =>
      match generate_T fuel K V [] rolen with
      | None => None
      | Some (V1, T) =>
          match bits2int T qlen n with
          | Raise e => Some (Raise e)
          | Ok k =>
              if (1 <=? k) && (k <? n) then Some (Ok k)
              else
                let K' := hmac_sha256 K (V1 ++ [x00]) in
                let V' := hmac_sha256 K' V1 in
                generate_k_loop fuel' K' V' qlen rolen n
          end
      end
  end.

Definition rfc6979_generate_k (fuel : nat) (priv : Z) (h1 : bytes) (n : Z)
    : option (result Z) :=
  let qlen := bit_length n in
  let rolen := (qlen + 7) / 8 in
  match int2octets priv rolen with
  | Raise e => Some (Raise e)
  | Ok b1 =>
      match bits2octets h1 n with
      | Raise e => Some (Raise e)
      | Ok b2 =>
          let bx := b1 ++ b2 in
          let V := repeat x01 32 in
          let K := repeat x00 32 in
          let K := hmac_sha256 K (V ++ [x00] ++ bx) in
          let V := hmac_sha256 K V in
          let K := hmac_sha256 K (V ++ [x01] ++ bx) in
          let V := hmac_sha256 K V in
          generate_k_loop fuel K V qlen rolen n
      end
  end.

(** [KeyPair.generate]: [draws] are the successive values of
    [secrets.randbelow(curve.n)], which raises [ValueError] unless
    [curve.n] is positive; [None] when the draws run out. *)
Fixpoint generate_draw (draws : list Z) (n : Z) : option Z :=
  match draws with
  | [] => None
  | d :: rest => if (1 <=? d) && (d <? n) then Some d else generate_draw rest n
  end.

Definition KeyPair_generate (draws : list Z) (c : Curve) : option (result KeyPair) :=
  if n c <=? 0 then Some (Raise ValueError)
  else
    match generate_draw draws (n c) with
    | None => None
    | Some d =>
        Some (g <- G c ;;
              Q <- scalar_mult d g ;;
              Ok {| kp_curve := c; kp_priv := d; kp_pub := Q |})
    end.

(** [sign]: the two retries call [sign] again with the same arguments, and
    every step is a function of the arguments, so the retry repeats itself
    until the interpreter's recursion limit: [RecursionError]. *)
Definition sign (fuel : nat) (priv : Z) (msg : bytes) (c : Curve)
    : option (result (Z * Z)) :=
  let n := n c in
  let h1 := sha256 msg in
  match rfc6979_generate_k fuel priv h1 n with
  | None => None
  | Some (Raise e) => Some (Raise e)
  | Some (Ok k) =>
      Some (g <- G c ;;
            R <- scalar_mult k g ;;
            match x R with
            | None => Raise TypeError
            | Some xR =>
                r <- pymod xR n ;;
                if r =? 0 then Raise RecursionError
                else
                  kinv <- pypow k (-1) n ;;
                  e <- pymod (int_from_bytes h1) n ;;
                  s <- pymod (kinv * (e + r * priv)) n ;;
                  if s =? 0 then Raise RecursionError
                  else
                    let s := if s >? n / 2 then n - s else s in
                    Ok (r, s)
            end)
  end.

Definition verify (pub : Point) (msg : bytes) (sig : Z * Z) : result bool :=
  let (r, s) := sig in
  let n := n (curve pub) in
  if negb ((1 <=? r) && (r <? n) && ((1 <=? s) && (s <? n))) then Ok false
  else
    e <- pymod (int_from_bytes (sha256 msg)) n ;;
    w <- pypow s (-1) n ;;
    u1 <- pymod (e * w) n ;;
    u2 <- pymod (r * w) n ;;
    g <- G (curve pub) ;;
    P1 <- scalar_mult u1 g ;;
    P2 <- scalar_mult u2 pub ;;
    P <- Pt.add P1 P2 ;;
    if Pt.is_infinity P then Ok false
    else
      match x P with
      | None => Raise TypeError
      | Some xP => xm <- pymod xP n ;; Ok (xm =? r)
      end.

Definition kdf_sha256 (xb : bytes) : bytes := sha256 xb.

Definition ecdh_shared_secret (priv : Z) (peer_pub : Point) : result bytes :=
  if negb ((1 <=? priv) && (priv <? n (curve peer_pub))) then Raise ValueError
  else
    S <- scalar_mult priv peer_pub ;;
    if Pt.is_infinity S then Raise ValueError
    else
      match x S with
      | None => Raise TypeError
      | Some xS =>
          xb <- int_to_bytes xS ((bit_length xS + 7) / 8) ;;
          Ok (kdf_sha256 xb)
      end.

End Hash.


(** ** The digest: SHA-256 (FIPS 180-4) and HMAC (RFC 2104)

    [hashlib] and [hmac] are the standard library's; they are written out
    here so that the protocol functions can be run on concrete inputs. *)

Module SHA256.

Definition w32 (v : Z) : Z := Z.land v 0xffffffff.

Definition add32 (u v : Z) : Z := w32 (u + v).

Definition rotr (k v : Z) : Z := Z.lor (Z.shiftr v k) (w32 (Z.shiftl v (32 - k))).

Definition Ch (u v w : Z) : Z :=
  Z.lxor (Z.land u v) (Z.land (Z.lxor u 0xffffffff) w).

Definition Maj (u v w : Z) : Z :=
  Z.lxor (Z.lxor (Z.land u v) (Z.land u w)) (Z.land v w).

Definition Sigma0 (v : Z) : Z := Z.lxor (Z.lxor (rotr 2 v) (rotr 13 v)) (rotr 22 v).

Definition Sigma1 (v : Z) : Z := Z.lxor (Z.lxor (rotr 6 v) (rotr 11 v)) (rotr 25 v).

Definition sigma0 (v : Z) : Z := Z.lxor (Z.lxor (rotr 7 v) (rotr 18 v)) (Z.shiftr v 3).

Definition sigma1 (v : Z) : Z := Z.lxor (Z.lxor (rotr 17 v) (rotr 19 v)) (Z.shiftr v 10).

(** The constants are fractional parts of roots of the first primes
    (FIPS 180-4, 4.2.2 and 5.3.3): the largest [r] with [r ^ k <= v], built
    from the top bit down. *)
Fixpoint iroot (bits : nat) (k v r : Z) : Z :=
  match bits with
  | O => r
  | S bits' =>
      let r' := r + 2 ^ Z.of_nat bits' in
      iroot bits' k v (if r' ^ k <=? v then r' else r)
  end.

(** the first 32 bits of the fractional part of the [k]-th root of [q] *)
Definition frac_root (k q : Z) : Z := w32 (iroot 40 k (q * 2 ^ (32 * k)) 0).

Definition primes64 : list Z := [
  2; 3; 5; 7; 11; 13; 17; 19; 23; 29; 31; 37; 41; 43; 47; 53;
  59; 61; 67; 71; 73; 79; 83; 89; 97; 101; 103; 107; 109; 113; 127; 131;
  137; 139; 149; 151; 157; 163; 167; 173; 179; 181; 191; 193; 197; 199; 211; 223;
  227; 229; 233; 239; 241; 251; 257; 263; 269; 271; 277; 281; 283; 293; 307; 311 ].

Definition K256 : list Z := Eval vm_compute in map (frac_root 3) primes64.

Definition H0 : list Z := Eval vm_compute in map (frac_root 2) (firstn 8 primes64).

(** big-endian 32-bit words of a byte string *)
Fixpoint words (bs : list Z) : list Z :=
  match bs with
  | b0 :: b1 :: b2 :: b3 :: rest =>
      (((b0 * 256 + b1) * 256 + b2) * 256 + b3) :: words rest
  | _ => []
  end.

(** message schedule, most recent word first *)
Fixpoint extend (cnt : nat) (ws : list Z) : list Z :=
  match cnt with
  | O => ws
  | S cnt' =>
      let w := add32 (add32 (sigma1 (nth 1 ws 0)) (nth 6 ws 0))
                     (add32 (sigma0 (nth 14 ws 0)) (nth 15 ws 0)) in
      extend cnt' (w :: ws)
  end.

Definition schedule (block : list Z) : list Z := rev (extend 48 (rev block)).

Definition round (st : list Z) (kw : Z * Z) : list Z :=
  match st with
  | [sa; sb; sc; sd; se; sf; sg; sh] =>
      let t1 := add32 (add32 (add32 sh (Sigma1 se)) (add32 (Ch se sf sg) (fst kw))) (snd kw) in
      let t2 := add32 (Sigma0 sa) (Maj sa sb sc) in
      [add32 t1 t2; sa; sb; sc; add32 sd t1; se; sf; sg]
  | _ => st
  end.

Definition compress (st block : list Z) : list Z :=
  map (fun uv => add32 (fst uv) (snd uv))
      (combine st (fold_left round (combine K256 (schedule block)) st)).

Fixpoint blocks (cnt : nat) (ws : list Z) (st : list Z) : list Z :=
  match cnt with
  | O => st
  | S cnt' => blocks cnt' (skipn 16 ws) (compress st (firstn 16 ws))
  end.

Fixpoint be (len : nat) (v : Z) : list Z :=
  match len with
  | O => []
  | S len' => be len' (v / 256) ++ [v mod 256]
  end.

Definition pad (msg : list Z) : list Z :=
  let l := Z.of_nat (List.length msg) in
  let zeros := (55 - l) mod 64 in
  msg ++ [0x80] ++ repeat 0 (Z.to_nat zeros) ++ be 8 (l * 8).

Definition digest (msg : list Z) : list Z :=
  let padded := pad msg in
  let st := blocks (List.length padded / 64) (words padded) H0 in
  flat_map (be 4) st.

Definition sha256 (msg : bytes) : bytes :=
  map byte_of_Z (digest (map byte_val msg)).

Definition xor_pad (c : Z) (key : list Z) : list Z :=
  map (fun v => Z.lxor v c) key.

Definition hmac_digest (key msg : list Z) : list Z :=
  let key := if (64 <? List.length key)%nat then digest key else key in
  let key := key ++ repeat 0 (64 - List.length key) in
  digest (xor_pad 0x5c key ++ digest (xor_pad 0x36 key ++ msg)).

Definition hmac_sha256 (key msg : bytes) : bytes :=
  map byte_of_Z (hmac_digest (map byte_val key) (map byte_val msg)).

(** the bytes of an ASCII string *)
Definition of_string (s : string) : bytes := list_byte_of_string s.

Definition hex (bs : bytes) : Z := int_from_bytes bs.

End SHA256.

Module EC.
Section Group.
Variable p : Z.
Variables A B : Zmod p.
Local Open Scope Zmod_scope.
Local Notation "x / y" := (Zmod.mdiv x y) : Zmod_scope.

Definition two : Zmod p := 1 + 1.
Definition three : Zmod p := 1 + 1 + 1.

Inductive pt : Type := O | Aff (x y : Zmod p).

Definition on_curve (P : pt) : Prop :=
  match P with
  | O => True
  | Aff x y => y * y = x * x * x + A * x + B
  end.

Definition opp (P : pt) : pt :=
  match P with
  | O => O
  | Aff x y => Aff x (- y)
  end.

Definition chord_slope (x1 y1 x2 y2 : Zmod p) := (y2 - y1) / (x2 - x1).
Definition tangent_slope (x1 y1 : Zmod p) := (three * (x1 * x1) + A) / (two * y1).
Definition third_x (s x1 x2 : Zmod p) := s * s - x1 - x2.
Definition third_y (s x1 y1 x3 : Zmod p) := s * (x1 - x3) - y1.

Definition add (P Q : pt) : pt :=
  match P, Q with
  | O, _ => Q
  | _, O => P
  | Aff x1 y1, Aff x2 y2 =>
      if Zmod.eqb x1 x2 && (negb (Zmod.eqb y1 y2) || Zmod.eqb y1 0) then O
      else
        let s := if Zmod.eqb x1 x2 && Zmod.eqb y1 y2
                 then tangent_slope x1 y1 else chord_slope x1 y1 x2 y2 in
        let x3 := third_x s x1 x2 in
        Aff x3 (third_y s x1 y1 x3)
  end.

Definition cx (x1 y1 x2 y2 : Zmod p) := third_x (chord_slope x1 y1 x2 y2) x1 x2.
Definition cy (x1 y1 x2 y2 : Zmod p) :=
  third_y (chord_slope x1 y1 x2 y2) x1 y1 (cx x1 y1 x2 y2).
Definition tx (x1 y1 : Zmod p) := third_x (tangent_slope x1 y1) x1 x1.
Definition ty (x1 y1 : Zmod p) := third_y (tangent_slope x1 y1) x1 y1 (tx x1 y1).

Definition chd (U V : pt) : Prop :=
  match U, V with
  | Aff u _, Aff v _ => u <> v
  | _, _ => False
  end.

Definition tgt (U : pt) : Prop :=
  match U with
  | Aff _ u => u <> 0
  | O => False
  end.

Fixpoint nmul (k : nat) (P : pt) : pt :=
  match k with
  | 0%nat => O
  | S k' => add P (nmul k' P)
  end.

Definition zmul (k : Z) (P : pt) : pt :=
  match k with
  | Z0 => O
  | Zpos q => nmul (Pos.to_nat q) P
  | Zneg q => opp (nmul (Pos.to_nat q) P)
  end.

End Group.

Arguments O {p}.
Arguments Aff {p} x y.

End EC.


(** The value of a digit string, least significant digit first. *)
Definition naf_value (ds : list Z) : Z := fold_right (fun d acc => d + 2 * acc) 0 ds.

(** What the width-[w] recoding promises of a digit: zero, or odd and below
    [2^(w-1)] in absolute value. *)
Definition naf_digit_ok (w d : Z) : Prop :=
  d = 0 \/ (Z.odd d = true /\ Z.abs d < 2 ^ (w - 1)).

(** The largest [k] that [fuel] iterations of the recoding loop are sure to
    use up. *)
Definition wnaf_bound (w f : Z) : Z :=
  if f <=? 0 then 0
  else if f <=? w then 2 ^ (f - 1)
  else 2 ^ (f - w - 1) + 2 ^ (w - 1).


(** ** Well-formed curves and points, and the passage to the field *)

(** The discriminant of the cubic, up to the factor -16. *)
Definition disc (c : Curve) : Z := (4 * a c ^ 3 + 27 * b c ^ 2) mod p c.

(** Valid short Weierstrass parameters: an odd prime modulus and a cubic
    without a repeated root. *)
Record valid_curve (c : Curve) : Prop := {
  vc_prime : Z.prime (p c);
  vc_odd : p c <> 2;
  vc_disc : disc c <> 0
}.

(** A point as [__post_init__] leaves it: infinity, or reduced coordinates
    that satisfy the curve equation. *)
Definition valid_point (c : Curve) (P : Point) : Prop :=
  curve P = c /\
  match x P, y P with
  | None, None => True
  | Some xv, Some yv =>
      0 <= xv < p c /\ 0 <= yv < p c /\
      (yv * yv) mod p c = (xv * xv * xv + a c * xv + b c) mod p c
  | _, _ => False
  end.

Definition curve_A (c : Curve) : Zmod (p c) := Zmod.of_Z (p c) (a c).

Definition curve_B (c : Curve) : Zmod (p c) := Zmod.of_Z (p c) (b c).

Definition of_pt (c : Curve) (A : EC.pt (p c)) : Point :=
  match A with
  | EC.O => Pt.infinity c
  | EC.Aff u v =>
      {| curve := c; x := Some (Zmod.to_Z u); y := Some (Zmod.to_Z v) |}
  end.

Definition to_pt (c : Curve) (P : Point) : EC.pt (p c) :=
  match x P, y P with
  | Some xv, Some yv => EC.Aff (Zmod.of_Z (p c) xv) (Zmod.of_Z (p c) yv)
  | _, _ => EC.O
  end.

Definition base_pt (c : Curve) : EC.pt (p c) :=
  EC.Aff (Zmod.of_Z (p c) (Gx c)) (Zmod.of_Z (p c) (Gy c)).

(** The base point and its order: [G] is on the curve, [n] is prime and
    [n] times [G] is the identity. *)
Record valid_base (c : Curve) : Prop := {
  vb_on : EC.on_curve (p c) (curve_A c) (curve_B c) (base_pt c);
  vb_prime : Z.prime (n c);
  vb_order : EC.zmul (p c) (curve_A c) (n c) (base_pt c) = EC.O
}.

(** The multiple that [scalar_mult] returns: the test [k % n == 0] comes
    before any arithmetic. *)
Definition mult_pt (c : Curve) (k : Z) (A : EC.pt (p c)) : EC.pt (p c) :=
  if k mod n c =? 0 then EC.O else EC.zmul (p c) (curve_A c) k A.

(** A toy curve: y^2 = x^3 + 2x + 2 over GF(17), of prime order 19. *)
Definition TOY17 : Curve := {|
  name := "toy17"; p := 17; a := 2; b := 2; Gx := 5; Gy := 1; n := 19; h := 1;
  oid := 3
|}.

(** A second instance with the same parameters: another object. *)
Definition TOY17_twin : Curve := {|
  name := "toy17"; p := 17; a := 2; b := 2; Gx := 5; Gy := 1; n := 19; h := 1;
  oid := 4
|}.


(** ** Small curves and the concrete hash *)

(** Trial division, for the small moduli below. *)
Definition prime_check (q : Z) : bool :=
  (1 <? q) &&
  forallb (fun d => negb (q mod d =? 0)) (map Z.of_nat (seq 2 (Z.to_nat q - 2))).

(** [n] times the point is the identity of the group. *)
Definition killed_by_n (c : Curve) (P : Point) : Prop :=
  EC.zmul (p c) (curve_A c) (n c) (to_pt c P) = EC.O.

(** An affine point as the dataclass holds it. *)
Definition affine (c : Curve) (xv yv : Z) : Point :=
  {| curve := c; x := Some xv; y := Some yv |}.

(** y^2 = x^3 over GF(2): every field of the record is in range, and (1, 1)
    satisfies the equation. *)
Definition CHAR2 : Curve := {|
  name := "char2"; p := 2; a := 0; b := 0; Gx := 1; Gy := 1; n := 3; h := 1;
  oid := 5
|}.


(** The same curve with the generator (1, 5) of the whole group, of the
    composite order 14. *)
Definition COMPOSITE14 : Curve := {|
  name := "composite14"; p := 11; a := 1; b := 1; Gx := 1; Gy := 5; n := 14; h := 1;
  oid := 7
|}.

(** y^2 = x^3 + 4x modulo 9: the modulus is not a prime (the code never
    checks it); the discriminant is nonzero and (2, 4) satisfies the
    equation. *)
Definition MOD9 : Curve := {|
  name := "mod9"; p := 9; a := 4; b := 0; Gx := 2; Gy := 4; n := 7; h := 1;
  oid := 8
|}.

(** A curve record whose [n] is zero. *)
Definition ZERO_ORDER : Curve := {|
  name := "zero"; p := 17; a := 2; b := 2; Gx := 5; Gy := 1; n := 0; h := 1;
  oid := 9
|}.

Definition sha : bytes -> bytes := SHA256.sha256.

Definition hmac : bytes -> bytes -> bytes := SHA256.hmac_sha256.

Definition msg_abc : bytes := SHA256.of_string "abc".

Definition msg_x : bytes := SHA256.of_string "x".

(** The integer that [bits2int] holds before its final [% n]. *)
Definition bits2int_raw (bs : bytes) (qlen : Z) : Z :=
  let i := int_from_bytes bs in
  let blen := Z.of_nat (List.length bs) * 8 in
  if blen >? qlen then Z.shiftr i (blen - qlen) else i.

(** The first candidate of [rfc6979_generate_k]: the state after the two
    seeding rounds, one pass of the inner loop, and the bits taken from it. *)
Definition first_candidate (priv : Z) (h1 : bytes) (n : Z) : option (result Z) :=
  let qlen := bit_length n in
  let rolen := (qlen + 7) / 8 in
  match int2octets priv rolen with
  | Raise e => Some (Raise e)
  | Ok b1 =>
      match bits2octets h1 n with
      | Raise e => Some (Raise e)
      | Ok b2 =>
          let bx := b1 ++ b2 in
          let V := repeat x01 32 in
          let K := repeat x00 32 in
          let K := hmac K (V ++ [x00] ++ bx) in
          let V := hmac K V in
          let K := hmac K (V ++ [x01] ++ bx) in
          let V := hmac K V in
          match generate_T hmac 40 K V [] rolen with
          | None => None
          | Some (_, T) => Some (Ok (bits2int_raw T qlen))
          end
      end
  end.

Module ECFacts.
Import EC.
Section Group.
Variable p : Z.
Hypothesis Hp : Z.prime p.
Variables A B : Zmod p.
Local Open Scope Zmod_scope.
Local Notation "x / y" := (Zmod.mdiv x y) : Zmod_scope.
Add Field Kfield : (Zmod.field_theory p Hp).

Local Abbreviation two := (EC.two p).
Local Abbreviation three := (EC.three p).
Local Abbreviation pt := (EC.pt p).
Local Abbreviation O := (@EC.O p).
Local Abbreviation on_curve := (EC.on_curve p A B).
Local Abbreviation opp := (EC.opp p).
Local Abbreviation chord_slope := (EC.chord_slope p).
Local Abbreviation tangent_slope := (EC.tangent_slope p A).
Local Abbreviation third_x := (EC.third_x p).
Local Abbreviation third_y := (EC.third_y p).
Local Abbreviation add := (EC.add p A).
Local Abbreviation cx := (EC.cx p).
Local Abbreviation cy := (EC.cy p).
Local Abbreviation tx := (EC.tx p A).
Local Abbreviation ty := (EC.ty p A).
Local Abbreviation chd := (EC.chd p).
Local Abbreviation tgt := (EC.tgt p).
Local Abbreviation nmul := (EC.nmul p A).
Local Abbreviation zmul := (EC.zmul p A).

Hypothesis two_nz : two <> 0.
Hypothesis disc_nz : two * two * A * A * A + three * three * three * B * B <> 0.

Lemma mul_zero_cases (u v : Zmod p) : u * v = 0 -> u = 0 \/ v = 0.
Proof. apply Zmod.mul_0_iff_prime, Hp. Qed.

Lemma sub_zero_eq (u v : Zmod p) : u - v = 0 -> u = v.
Proof. intros E. transitivity (u - v + v); [ring | rewrite E; ring]. Qed.

Lemma sub_nz (u v : Zmod p) : u <> v -> u - v <> 0.
Proof. intros N E. apply N, sub_zero_eq, E. Qed.

Lemma opp_self_zero (u : Zmod p) : u = - u -> u = 0.
Proof.
  intros E. assert (T : two * u = 0) by (unfold two; transitivity (u - - u); [ring | rewrite <- E; ring]).
  destruct (mul_zero_cases _ _ T); [contradiction | assumption].
Qed.

Lemma same_x (x y1 y2 : Zmod p) :
  on_curve (Aff x y1) -> on_curve (Aff x y2) -> y2 = y1 \/ y2 = - y1.
Proof.
  simpl. intros H1 H2.
  assert (E : (y2 - y1) * (y2 + y1) = 0) by (transitivity (y2 * y2 - y1 * y1); [ring | rewrite H1, H2; ring]).
  destruct (mul_zero_cases _ _ E) as [E1 | E1].
  - left. apply sub_zero_eq, E1.
  - right. transitivity (y2 + y1 - y1); [ring | rewrite E1; ring].
Qed.

Lemma opp_on P : on_curve P -> on_curve (opp P).
Proof. destruct P; simpl; auto. intros H. rewrite <- H. ring. Qed.

Lemma opp_opp P : opp (opp P) = P.
Proof. destruct P; simpl; auto. f_equal. ring. Qed.

(** three views of a sum of two affine points *)
Lemma add_chord x1 y1 x2 y2 : x1 <> x2 ->
  add (Aff x1 y1) (Aff x2 y2) =
  let s := chord_slope x1 y1 x2 y2 in
  Aff (third_x s x1 x2) (third_y s x1 y1 (third_x s x1 x2)).
Proof.
  intros N. simpl. destruct (Zmod.eqb_spec x1 x2); [contradiction | reflexivity].
Qed.

Lemma add_tangent x1 y1 : y1 <> 0 ->
  add (Aff x1 y1) (Aff x1 y1) =
  let s := tangent_slope x1 y1 in
  Aff (third_x s x1 x1) (third_y s x1 y1 (third_x s x1 x1)).
Proof.
  intros N. simpl. rewrite !Zmod.eqb_refl. simpl.
  destruct (Zmod.eqb_spec y1 0); [contradiction | reflexivity].
Qed.

Lemma add_opp_r P : on_curve P -> add P (opp P) = O.
Proof.
  destruct P as [| x1 y1]; simpl; auto. intros H.
  rewrite Zmod.eqb_refl. simpl.
  destruct (Zmod.eqb_spec y1 (- y1)) as [E | E]; simpl; auto.
  apply opp_self_zero in E. subst. rewrite Zmod.eqb_refl. reflexivity.
Qed.


Ltac unf := unfold EC.cy, EC.cx, EC.ty, EC.tx, EC.third_y, EC.third_x, EC.chord_slope, EC.tangent_slope.

Lemma two_eq : two = 1 + 1.
Proof. reflexivity. Qed.

Lemma three_eq : three = 1 + 1 + 1.
Proof. reflexivity. Qed.

Lemma opp_nz (u : Zmod p) : u <> 0 -> - u <> 0.
Proof. intros N E. apply N. transitivity (- - u); [ring | rewrite E; ring]. Qed.

Lemma sub_nz_sym (u v : Zmod p) : u - v <> 0 -> v - u <> 0.
Proof. intros N E. apply N. transitivity (- (v - u)); [ring | rewrite E; ring]. Qed.

Ltac nzs := repeat split; auto using opp_nz, sub_nz_sym.


Ltac nz_from D den :=
  let E := fresh "E" in
  intro E; apply D; unf;
  match type of E with ?l = _ =>
    first [ transitivity (l / den); [field [two_eq three_eq]; nzs | rewrite E; field; nzs]
          | transitivity (- l / den); [field [two_eq three_eq]; nzs | rewrite E; field; nzs] ]
  end.

Lemma two_nz' : 1 + 1 <> 0 :> Zmod p.
Proof. exact two_nz. Qed.

Section One.
Variables x1 y1 : Zmod p.
Hypothesis H1 : y1 * y1 = x1 * x1 * x1 + A * x1 + B.

Lemma closure_t : y1 <> 0 -> on_curve (Aff (tx x1 y1) (ty x1 y1)).
Proof. intros N. pose proof two_nz. simpl. unf. field [H1 two_eq three_eq]; nzs. Qed.

Lemma opp_tx : y1 <> 0 -> tx x1 (- y1) = tx x1 y1.
Proof. intros N. pose proof two_nz. unf. field [two_eq three_eq]; nzs. Qed.

Lemma opp_ty : y1 <> 0 -> ty x1 (- y1) = - ty x1 y1.
Proof. intros N. pose proof two_nz. unf. field [two_eq three_eq]; nzs. Qed.

Lemma K3x : y1 <> 0 -> tx x1 y1 - x1 <> 0 ->
  cx (tx x1 y1) (ty x1 y1) x1 (- y1) = x1.
Proof.
  intros N N3. pose proof two_nz. unf. field [H1 two_eq three_eq]; nzs.
  nz_from N3 (two * y1 * (two * y1)).
Qed.

Lemma K3y : y1 <> 0 -> tx x1 y1 - x1 <> 0 ->
  cy (tx x1 y1) (ty x1 y1) x1 (- y1) = y1.
Proof.
  intros N N3. pose proof two_nz. unf. field [H1 two_eq three_eq]; nzs.
  nz_from N3 (two * y1 * (two * y1)).
Qed.

Lemma ty_same : tx x1 y1 = x1 -> ty x1 y1 = - y1.
Proof. intros E. unfold ty. rewrite E. unfold third_y. ring. Qed.


End One.

Section Coordinates.
Variables x1 y1 x2 y2 : Zmod p.
Hypothesis H1 : y1 * y1 = x1 * x1 * x1 + A * x1 + B.
Hypothesis H2 : y2 * y2 = x2 * x2 * x2 + A * x2 + B.

Lemma closure_c : x2 - x1 <> 0 ->
  on_curve (Aff (cx x1 y1 x2 y2) (cy x1 y1 x2 y2)).
Proof. intros N. simpl. unf. field [H1 H2 two_eq three_eq]; nzs. Qed.


Lemma comm_cx : x2 - x1 <> 0 -> cx x1 y1 x2 y2 = cx x2 y2 x1 y1.
Proof. intros N. unf. field; nzs. Qed.

Lemma comm_cy : x2 - x1 <> 0 -> cy x1 y1 x2 y2 = cy x2 y2 x1 y1.
Proof. intros N. unf. field; nzs. Qed.

Lemma opp_cx : x2 - x1 <> 0 -> cx x1 (- y1) x2 (- y2) = cx x1 y1 x2 y2.
Proof. intros N. unf. field; nzs. Qed.

Lemma opp_cy : x2 - x1 <> 0 -> cy x1 (- y1) x2 (- y2) = - cy x1 y1 x2 y2.
Proof. intros N. unf. field; nzs. Qed.



Lemma K1x : x2 - x1 <> 0 -> cx x1 y1 x2 y2 - x2 <> 0 ->
  cx (cx x1 y1 x2 y2) (cy x1 y1 x2 y2) x2 (- y2) = x1.
Proof.
  intros N N3. unf. field [H1 H2 two_eq three_eq]; nzs.
  nz_from N3 ((x2 - x1) * (x2 - x1)).
Qed.

Lemma K1y : x2 - x1 <> 0 -> cx x1 y1 x2 y2 - x2 <> 0 ->
  cy (cx x1 y1 x2 y2) (cy x1 y1 x2 y2) x2 (- y2) = y1.
Proof.
  intros N N3. unf. field [H1 H2 two_eq three_eq]; nzs.
  nz_from N3 ((x2 - x1) * (x2 - x1)).
Qed.

Lemma F1 : x2 - x1 <> 0 ->
  three * (x2 * x2) + A - two * chord_slope x1 y1 x2 y2 * y2
  = (x2 - x1) * (x2 - cx x1 y1 x2 y2).
Proof. intros N. unf. field [H1 H2 two_eq three_eq]; nzs. Qed.

Lemma cy_same : x2 - x1 <> 0 -> cx x1 y1 x2 y2 = x2 -> cy x1 y1 x2 y2 = - y2.
Proof.
  intros N E. unfold cy. rewrite E. unf. field. auto.
Qed.




(* tangent at P against the chords with Q and with -Q:
   P + P = (P - Q) + (Q + P) *)
Lemma spec6x : y1 <> 0 -> x2 - x1 <> 0 ->
  cx x2 y2 x1 y1 - cx x1 y1 x2 (- y2) <> 0 ->
  tx x1 y1 =
  cx (cx x1 y1 x2 (- y2)) (cy x1 y1 x2 (- y2)) (cx x2 y2 x1 y1) (cy x2 y2 x1 y1).
Proof.
  intros D1 D2 D3. pose proof two_nz. unf.
  field [H1 H2 two_eq three_eq]; nzs.
  nz_from D3 (((x1 - x2) * (x1 - x2)) * ((x2 - x1) * (x2 - x1))).
Qed.

Lemma spec6y : y1 <> 0 -> x2 - x1 <> 0 ->
  cx x2 y2 x1 y1 - cx x1 y1 x2 (- y2) <> 0 ->
  ty x1 y1 =
  cy (cx x1 y1 x2 (- y2)) (cy x1 y1 x2 (- y2)) (cx x2 y2 x1 y1) (cy x2 y2 x1 y1).
Proof.
  intros D1 D2 D3. pose proof two_nz. unf.
  field [H1 H2 two_eq three_eq]; nzs.
  nz_from D3 (((x1 - x2) * (x1 - x2)) * ((x2 - x1) * (x2 - x1))).
Qed.

End Coordinates.

(* tangent at P = D, tangent at D: (P + P) + (P + P) = P + (P + (P + P)),
   the instance of [spec6] at D and P, with (P + P) - P = P *)
Section Spec4.
Variables x1 y1 : Zmod p.
Hypothesis H1 : y1 * y1 = x1 * x1 * x1 + A * x1 + B.
Hypothesis D1 : y1 <> 0.
Hypothesis D2 : ty x1 y1 <> 0.
Hypothesis D3 : tx x1 y1 - x1 <> 0.
Hypothesis D4 : cx x1 y1 (tx x1 y1) (ty x1 y1) - x1 <> 0.

Lemma spec4_on : ty x1 y1 * ty x1 y1 = tx x1 y1 * tx x1 y1 * tx x1 y1 + A * tx x1 y1 + B.
Proof. exact (closure_t x1 y1 H1 D1). Qed.

Lemma spec4x :
  tx (tx x1 y1) (ty x1 y1) =
  cx x1 y1 (cx x1 y1 (tx x1 y1) (ty x1 y1)) (cy x1 y1 (tx x1 y1) (ty x1 y1)).
Proof.
  pose proof (spec6x (tx x1 y1) (ty x1 y1) x1 y1 spec4_on H1) as E.
  rewrite (K3x x1 y1 H1 D1 D3), (K3y x1 y1 H1 D1 D3) in E.
  apply E; auto using sub_nz_sym.
Qed.

Lemma spec4y :
  ty (tx x1 y1) (ty x1 y1) =
  cy x1 y1 (cx x1 y1 (tx x1 y1) (ty x1 y1)) (cy x1 y1 (tx x1 y1) (ty x1 y1)).
Proof.
  pose proof (spec6y (tx x1 y1) (ty x1 y1) x1 y1 spec4_on H1) as E.
  rewrite (K3x x1 y1 H1 D1 D3), (K3y x1 y1 H1 D1 D3) in E.
  apply E; auto using sub_nz_sym.
Qed.
End Spec4.


Section Three.
Variables x1 y1 x2 y2 x3 y3 : Zmod p.
Hypothesis H1 : y1 * y1 = x1 * x1 * x1 + A * x1 + B.
Hypothesis H2 : y2 * y2 = x2 * x2 * x2 + A * x2 + B.
Hypothesis H3 : y3 * y3 = x3 * x3 * x3 + A * x3 + B.

(* chord, chord, chord, chord *)
Lemma spec1x : x2 - x1 <> 0 -> x3 - x2 <> 0 ->
  x3 - cx x1 y1 x2 y2 <> 0 -> cx x2 y2 x3 y3 - x1 <> 0 ->
  cx (cx x1 y1 x2 y2) (cy x1 y1 x2 y2) x3 y3 = cx x1 y1 (cx x2 y2 x3 y3) (cy x2 y2 x3 y3).
Proof.
  intros D1 D2 D3 D4. unf. field [H1 H2 H3 two_eq three_eq]; nzs.
  - nz_from D4 ((x3 - x2) * (x3 - x2)).
  - nz_from D3 ((x2 - x1) * (x2 - x1)).
Qed.

Lemma spec1y : x2 - x1 <> 0 -> x3 - x2 <> 0 ->
  x3 - cx x1 y1 x2 y2 <> 0 -> cx x2 y2 x3 y3 - x1 <> 0 ->
  cy (cx x1 y1 x2 y2) (cy x1 y1 x2 y2) x3 y3 = cy x1 y1 (cx x2 y2 x3 y3) (cy x2 y2 x3 y3).
Proof.
  intros D1 D2 D3 D4. unf. field [H1 H2 H3 two_eq three_eq]; nzs.
  - nz_from D4 ((x3 - x2) * (x3 - x2)).
  - nz_from D3 ((x2 - x1) * (x2 - x1)).
Qed.

End Three.

Section Two.
Variables x1 y1 x2 y2 : Zmod p.
Hypothesis H1 : y1 * y1 = x1 * x1 * x1 + A * x1 + B.
Hypothesis H2 : y2 * y2 = x2 * x2 * x2 + A * x2 + B.

(* tangent at P, then chords: (P + P) + R = P + (P + R) with R = (x2, y2) *)
Lemma spec2x : y1 <> 0 -> x2 - x1 <> 0 ->
  x2 - tx x1 y1 <> 0 -> cx x1 y1 x2 y2 - x1 <> 0 ->
  cx (tx x1 y1) (ty x1 y1) x2 y2 = cx x1 y1 (cx x1 y1 x2 y2) (cy x1 y1 x2 y2).
Proof.
  intros D1 D2 D3 D4. pose proof two_nz. unf. field [H1 H2 two_eq three_eq]; nzs.
  - nz_from D4 ((x2 - x1) * (x2 - x1)).
  - nz_from D3 (two * y1 * (two * y1)).
Qed.

Lemma spec2y : y1 <> 0 -> x2 - x1 <> 0 ->
  x2 - tx x1 y1 <> 0 -> cx x1 y1 x2 y2 - x1 <> 0 ->
  cy (tx x1 y1) (ty x1 y1) x2 y2 = cy x1 y1 (cx x1 y1 x2 y2) (cy x1 y1 x2 y2).
Proof.
  intros D1 D2 D3 D4. pose proof two_nz. unf. field [H1 H2 two_eq three_eq]; nzs.
  - nz_from D4 ((x2 - x1) * (x2 - x1)).
  - nz_from D3 (two * y1 * (two * y1)).
Qed.

(* chord P Q = S, then tangent at S: (P + Q) + (P + Q) = P + (Q + (P + Q)) *)
Section Spec3.
Hypothesis D1 : x2 - x1 <> 0.
Hypothesis D2 : cy x1 y1 x2 y2 <> 0.
Hypothesis D3 : cx x1 y1 x2 y2 - x2 <> 0.
Hypothesis D4 : cx x2 y2 (cx x1 y1 x2 y2) (cy x1 y1 x2 y2) - x1 <> 0.

Lemma spec3_on :
  cy x1 y1 x2 y2 * cy x1 y1 x2 y2 =
  cx x1 y1 x2 y2 * cx x1 y1 x2 y2 * cx x1 y1 x2 y2 + A * cx x1 y1 x2 y2 + B.
Proof. exact (closure_c x1 y1 x2 y2 H1 H2 D1). Qed.

Lemma spec3x :
  tx (cx x1 y1 x2 y2) (cy x1 y1 x2 y2) =
  cx x1 y1 (cx x2 y2 (cx x1 y1 x2 y2) (cy x1 y1 x2 y2))
           (cy x2 y2 (cx x1 y1 x2 y2) (cy x1 y1 x2 y2)).
Proof.
  pose proof (spec6x (cx x1 y1 x2 y2) (cy x1 y1 x2 y2) x2 y2 spec3_on H2) as E.
  rewrite (K1x x1 y1 x2 y2 H1 H2 D1 D3), (K1y x1 y1 x2 y2 H1 H2 D1 D3) in E.
  apply E; auto using sub_nz_sym.
Qed.

Lemma spec3y :
  ty (cx x1 y1 x2 y2) (cy x1 y1 x2 y2) =
  cy x1 y1 (cx x2 y2 (cx x1 y1 x2 y2) (cy x1 y1 x2 y2))
           (cy x2 y2 (cx x1 y1 x2 y2) (cy x1 y1 x2 y2)).
Proof.
  pose proof (spec6y (cx x1 y1 x2 y2) (cy x1 y1 x2 y2) x2 y2 spec3_on H2) as E.
  rewrite (K1x x1 y1 x2 y2 H1 H2 D1 D3), (K1y x1 y1 x2 y2 H1 H2 D1 D3) in E.
  apply E; auto using sub_nz_sym.
Qed.
End Spec3.


(* Q of order two: (P + Q) + (P + Q) = P + P *)
Section Spec5.
Hypothesis D0 : y2 = 0.
Hypothesis D1 : x2 - x1 <> 0.
Hypothesis D2 : y1 <> 0.
Hypothesis D3 : cy x1 y1 x2 y2 <> 0.

Lemma HB : B = - (x2 * x2 * x2) - A * x2.
Proof. rewrite D0 in H2. transitivity (x2 * x2 * x2 + A * x2 + B - (x2 * x2 * x2) - A * x2); [ring | rewrite <- H2; ring]. Qed.

Lemma spec5x : tx (cx x1 y1 x2 y2) (cy x1 y1 x2 y2) = tx x1 y1.
Proof.
  pose proof two_nz. pose proof HB as HB. subst y2. unf.
  field [H1 HB two_eq three_eq]; nzs.
  nz_from D3 ((x2 - x1) * ((x2 - x1) * (x2 - x1))).
Qed.

Lemma spec5y : ty (cx x1 y1 x2 y2) (cy x1 y1 x2 y2) = ty x1 y1.
Proof.
  pose proof two_nz. pose proof HB as HB. subst y2. unf.
  field [H1 HB two_eq three_eq]; nzs.
  nz_from D3 ((x2 - x1) * ((x2 - x1) * (x2 - x1))).
Qed.
End Spec5.

End Two.

(*STRUCT*)
(** point-level consequences *)



Lemma add_O_r P : add P O = P.
Proof. destruct P; reflexivity. Qed.

Lemma add_chd x1 y1 x2 y2 : x1 <> x2 ->
  add (Aff x1 y1) (Aff x2 y2) = Aff (cx x1 y1 x2 y2) (cy x1 y1 x2 y2).
Proof. intros N. rewrite add_chord by assumption. reflexivity. Qed.

Lemma add_tgt x1 y1 : y1 <> 0 ->
  add (Aff x1 y1) (Aff x1 y1) = Aff (tx x1 y1) (ty x1 y1).
Proof. intros N. rewrite add_tangent by assumption. reflexivity. Qed.

Lemma pair_cases U V : on_curve U -> on_curve V ->
  U = O \/ V = O \/ V = opp U \/ chd U V \/ (U = V /\ tgt U).
Proof.
  destruct U as [| x1 y1]; [auto |]. destruct V as [| x2 y2]; [auto |].
  intros H1 H2. right. right.
  destruct (Zmod.eqb_spec x1 x2) as [Ex | Nx]; [| right; left; exact Nx].
  subst x2. destruct (same_x _ _ _ H1 H2) as [E | E]; subst y2.
  - destruct (Zmod.eqb_spec y1 0) as [Ey | Ny].
    + left. subst y1. simpl. f_equal. ring.
    + right. right. split; [reflexivity | exact Ny].
  - left. reflexivity.
Qed.

Lemma chd_sym U V : chd U V -> chd V U.
Proof. destruct U, V; simpl; auto. Qed.

Lemma chd_nz (x1 x2 : Zmod p) : x1 <> x2 -> x2 - x1 <> 0.
Proof. intros N. apply sub_nz. auto. Qed.

Lemma add_on P Q : on_curve P -> on_curve Q -> on_curve (add P Q).
Proof.
  intros HP HQ.
  destruct (pair_cases P Q HP HQ) as [E | [E | [E | [C | [E T]]]]]; subst.
  - exact HQ.
  - rewrite add_O_r. exact HP.
  - rewrite add_opp_r by assumption. exact I.
  - destruct P as [| x1 y1], Q as [| x2 y2]; try contradiction. simpl in C.
    rewrite add_chd by assumption. apply closure_c; auto using chd_nz.
  - destruct Q as [| x1 y1]; try contradiction. simpl in T.
    rewrite add_tgt by assumption. apply closure_t; auto.
Qed.

Lemma add_opp_l P : on_curve P -> add (opp P) P = O.
Proof.
  intros HP. pose proof (add_opp_r (opp P) (opp_on P HP)) as E.
  rewrite opp_opp in E. exact E.
Qed.

Lemma add_comm P Q : on_curve P -> on_curve Q -> add P Q = add Q P.
Proof.
  intros HP HQ.
  destruct (pair_cases P Q HP HQ) as [E | [E | [E | [C | [E T]]]]]; subst.
  - rewrite add_O_r. reflexivity.
  - rewrite add_O_r. reflexivity.
  - rewrite add_opp_r, add_opp_l by assumption. reflexivity.
  - destruct P as [| x1 y1], Q as [| x2 y2]; try contradiction. simpl in C.
    rewrite !add_chd by auto. f_equal.
    + apply comm_cx; auto using chd_nz.
    + apply comm_cy; auto using chd_nz.
  - reflexivity.
Qed.

Lemma opp_add P Q : on_curve P -> on_curve Q ->
  opp (add P Q) = add (opp P) (opp Q).
Proof.
  intros HP HQ.
  destruct (pair_cases P Q HP HQ) as [E | [E | [E | [C | [E T]]]]]; subst.
  - reflexivity.
  - change (opp O) with O. rewrite !add_O_r. reflexivity.
  - rewrite !add_opp_r by auto using opp_on. reflexivity.
  - destruct P as [| x1 y1], Q as [| x2 y2]; try contradiction. simpl in C.
    simpl opp at 2 3. rewrite !add_chd by auto. simpl. f_equal.
    + symmetry. apply opp_cx; auto using chd_nz.
    + symmetry. apply opp_cy; auto using chd_nz.
  - destruct Q as [| x1 y1]; try contradiction. simpl in T.
    simpl opp at 2 3. rewrite !add_tgt by auto using opp_nz. simpl. f_equal.
    + symmetry. apply opp_tx; auto.
    + symmetry. apply opp_ty; auto.
Qed.

(** a chord that meets the curve again at its second end is the tangent
    there *)
Section Tangency.
Variables x1 y1 x2 y2 : Zmod p.
Hypothesis H1 : y1 * y1 = x1 * x1 * x1 + A * x1 + B.
Hypothesis H2 : y2 * y2 = x2 * x2 * x2 + A * x2 + B.
Hypothesis N : x2 - x1 <> 0.
Hypothesis E : cx x1 y1 x2 y2 = x2.

Lemma tangency : three * (x2 * x2) + A = two * chord_slope x1 y1 x2 y2 * y2.
Proof.
  pose proof (F1 x1 y1 x2 y2 H1 H2 N) as F. rewrite E in F.
  apply sub_zero_eq. rewrite F. ring.
Qed.

Lemma tangency_nonsingular : y2 <> 0.
Proof.
  intros Y. pose proof tangency as T. rewrite Y in T, H2.
  assert (HA : A = - (three * (x2 * x2))).
  { transitivity (three * (x2 * x2) + A - three * (x2 * x2)); [ring | rewrite T; ring]. }
  assert (HB' : B = two * (x2 * x2 * x2)).
  { transitivity (x2 * x2 * x2 + A * x2 + B - x2 * x2 * x2 - A * x2); [ring |].
    rewrite <- H2. rewrite HA. rewrite two_eq, three_eq. ring. }
  apply disc_nz. rewrite HB', HA. rewrite two_eq, three_eq. ring.
Qed.

Lemma tangency_slope : tangent_slope x2 y2 = chord_slope x1 y1 x2 y2.
Proof.
  pose proof tangency_nonsingular as Y. pose proof two_nz.
  unfold tangent_slope. rewrite tangency. field; nzs.
Qed.

Lemma tangency_x : tx x2 y2 = x1.
Proof.
  unfold tx. rewrite tangency_slope. unfold cx in E. unfold third_x in *.
  set (s := chord_slope x1 y1 x2 y2) in *.
  transitivity (s * s - x1 - x2 - x2 + x1); [ring | rewrite E; ring].
Qed.

Lemma tangency_y : ty x2 y2 = - y1.
Proof.
  unfold ty. rewrite tangency_x. rewrite tangency_slope.
  unfold third_y, chord_slope. field; nzs.
Qed.
End Tangency.

Lemma add_sub P Q : on_curve P -> on_curve Q -> add (add P Q) (opp Q) = P.
Proof.
  intros HP HQ.
  destruct (pair_cases P Q HP HQ) as [E | [E | [E | [C | [E T]]]]]; subst.
  - simpl add at 2. apply add_opp_r; assumption.
  - change (opp O) with O. rewrite !add_O_r. reflexivity.
  - rewrite add_opp_r by assumption. simpl. apply opp_opp.
  - destruct P as [| x1 y1], Q as [| x2 y2]; try contradiction. simpl in C, HP, HQ.
    rewrite add_chd by assumption. simpl opp.
    assert (N : x2 - x1 <> 0) by auto using chd_nz.
    destruct (Zmod.eqb_spec (cx x1 y1 x2 y2) x2) as [Ex | Nx].
    + pose proof (tangency_nonsingular x1 y1 x2 y2 HP HQ N Ex) as Y.
      rewrite (cy_same x1 y1 x2 y2 N Ex), Ex.
      rewrite add_tgt by auto using opp_nz. f_equal.
      * rewrite opp_tx by assumption. apply tangency_x with (y1 := y1); assumption.
      * rewrite opp_ty by assumption.
        rewrite (tangency_y x1 y1 x2 y2) by assumption. ring.
    + rewrite add_chd by assumption. f_equal.
      * apply K1x; auto using sub_nz.
      * apply K1y; auto using sub_nz.
  - destruct Q as [| x1 y1]; try contradiction. simpl in T, HQ.
    rewrite add_tgt by assumption. simpl opp.
    destruct (Zmod.eqb_spec (tx x1 y1) x1) as [Ex | Nx].
    + rewrite (ty_same x1 y1 Ex), Ex.
      rewrite add_tgt by auto using opp_nz. f_equal.
      * rewrite opp_tx by assumption. exact Ex.
      * rewrite opp_ty by assumption. rewrite (ty_same x1 y1 Ex). ring.
    + rewrite add_chd by assumption. f_equal.
      * apply K3x; auto using sub_nz.
      * apply K3y; auto using sub_nz.
Qed.

Lemma add_eq_r P Q : on_curve P -> on_curve Q -> add P Q = Q -> P = O.
Proof.
  intros HP HQ E. rewrite <- (add_sub P Q HP HQ), E. apply add_opp_r; assumption.
Qed.

Lemma add_eq_l P Q : on_curve P -> on_curve Q -> add P Q = P -> Q = O.
Proof. intros HP HQ E. rewrite add_comm in E by assumption. exact (add_eq_r Q P HQ HP E). Qed.

Lemma add_sub_l P Q : on_curve P -> on_curve Q -> add P (add (opp P) Q) = Q.
Proof.
  intros HP HQ.
  rewrite (add_comm (opp P) Q) by auto using opp_on.
  rewrite add_comm by auto using opp_on, add_on.
  pose proof (add_sub Q (opp P) HQ (opp_on P HP)) as E. rewrite opp_opp in E. exact E.
Qed.


(*STRUCT2*)
(** the five generic shapes of an associativity instance *)

Lemma chd_add_l P Q R : on_curve P -> on_curve Q -> chd (add P Q) R -> chd (add Q P) R.
Proof. intros HP HQ C. rewrite add_comm by assumption. exact C. Qed.

Lemma assoc_cccc P Q R : on_curve P -> on_curve Q -> on_curve R ->
  chd P Q -> chd Q R -> chd (add P Q) R -> chd P (add Q R) ->
  add (add P Q) R = add P (add Q R).
Proof.
  destruct P as [| x1 y1], Q as [| x2 y2], R as [| x3 y3]; try (simpl; tauto).
  intros H1 H2 H3 C1 C2. simpl in H1, H2, H3, C1, C2.
  rewrite !add_chd by assumption. intros C3 C4. simpl in C3, C4.
  rewrite !add_chd by assumption. f_equal.
  - apply spec1x; auto using chd_nz, sub_nz.
  - apply spec1y; auto using chd_nz, sub_nz.
Qed.

Lemma assoc_tccc P R : on_curve P -> on_curve R ->
  tgt P -> chd P R -> chd (add P P) R -> chd P (add P R) ->
  add (add P P) R = add P (add P R).
Proof.
  destruct P as [| x1 y1], R as [| x2 y2]; try (simpl; tauto).
  intros H1 H2 T C1. simpl in H1, H2, T, C1.
  rewrite add_tgt, add_chd by assumption. intros C3 C4. simpl in C3, C4.
  rewrite !add_chd by assumption. f_equal.
  - apply spec2x; auto using chd_nz, sub_nz.
  - apply spec2y; auto using chd_nz, sub_nz.
Qed.

Lemma assoc_cctc P Q : on_curve P -> on_curve Q ->
  chd P Q -> tgt (add P Q) -> chd Q (add P Q) -> chd P (add Q (add P Q)) ->
  add (add P Q) (add P Q) = add P (add Q (add P Q)).
Proof.
  destruct P as [| x1 y1], Q as [| x2 y2]; try (simpl; tauto).
  intros H1 H2 C1. simpl in H1, H2, C1.
  rewrite !add_chd by assumption. intros T C3. simpl in T, C3.
  rewrite !add_chd by assumption. intros C4. simpl in C4.
  rewrite add_tgt, add_chd by assumption. f_equal.
  - apply spec3x; auto using chd_nz, sub_nz.
  - apply spec3y; auto using chd_nz, sub_nz.
Qed.

Lemma assoc_tctc P : on_curve P ->
  tgt P -> tgt (add P P) -> chd P (add P P) -> chd P (add P (add P P)) ->
  add (add P P) (add P P) = add P (add P (add P P)).
Proof.
  destruct P as [| x1 y1]; try (simpl; tauto).
  intros H1 T1. simpl in H1, T1.
  rewrite !add_tgt by assumption. intros T2 C3. simpl in T2, C3.
  rewrite !add_chd by assumption. intros C4. simpl in C4.
  rewrite add_tgt, add_chd by assumption. f_equal.
  - apply spec4x; auto using chd_nz, sub_nz.
  - apply spec4y; auto using chd_nz, sub_nz.
Qed.

Lemma assoc_cctt P Q : on_curve P -> on_curve Q ->
  Q = opp Q -> chd P Q -> tgt P -> tgt (add P Q) ->
  add (add P Q) (add P Q) = add P P.
Proof.
  destruct P as [| x1 y1], Q as [| x2 y2]; try (simpl; tauto).
  intros H1 H2 EQ C1 T1. simpl in H1, H2, EQ, C1, T1.
  rewrite !add_chd by assumption. intros T2. simpl in T2.
  assert (Y : y2 = 0) by (apply opp_self_zero; congruence).
  rewrite !add_tgt by assumption. f_equal.
  - apply spec5x; auto using chd_nz, sub_nz.
  - apply spec5y; auto using chd_nz, sub_nz.
Qed.

Lemma not_O_tgt P : tgt P -> P <> O.
Proof. destruct P; simpl; [tauto | discriminate]. Qed.

Lemma not_O_chd_l P Q : chd P Q -> P <> O.
Proof. destruct P; simpl; [tauto | discriminate]. Qed.

Lemma not_O_chd_r P Q : chd P Q -> Q <> O.
Proof. destruct P, Q; simpl; try tauto; discriminate. Qed.

Theorem add_assoc P Q R : on_curve P -> on_curve Q -> on_curve R ->
  add (add P Q) R = add P (add Q R).
Proof.
  intros HP HQ HR.
  pose proof (add_on P Q HP HQ) as HS. pose proof (add_on Q R HQ HR) as HT.
  destruct (pair_cases P Q HP HQ) as [E | [E | [E | KPQ]]].
  { subst. reflexivity. }
  { subst. rewrite add_O_r. reflexivity. }
  { subst Q. rewrite add_opp_r by assumption. rewrite add_sub_l by assumption. reflexivity. }
  destruct (pair_cases Q R HQ HR) as [E | [E | [E | KQR]]].
  { subst. rewrite add_O_r. reflexivity. }
  { subst. rewrite !add_O_r. reflexivity. }
  { subst R. rewrite add_opp_r, add_O_r by assumption. apply add_sub; assumption. }
  destruct (pair_cases (add P Q) R HS HR) as [E | [E | [E | KSR]]].
  { exfalso. destruct KPQ as [C | [E1 T]].
    - destruct P, Q; simpl in C; try tauto. rewrite add_chd in E by assumption. discriminate.
    - subst Q. destruct P; simpl in T; try tauto. rewrite add_tgt in E by assumption. discriminate. }
  { exfalso. destruct KQR as [C | [E1 T]].
    - exact (not_O_chd_r _ _ C E).
    - subst R. exact (not_O_tgt _ T E). }
  { (* R = - (P + Q) *)
    subst R. rewrite add_opp_r by assumption.
    rewrite opp_add by assumption.
    rewrite (add_comm (opp P) (opp Q)) by auto using opp_on.
    pose proof (add_sub_l Q (opp P) HQ (opp_on P HP)) as E. rewrite E.
    symmetry. apply add_opp_r; assumption. }
  destruct (pair_cases P (add Q R) HP HT) as [E | [E | [E | KPT]]].
  { subst. reflexivity. }
  { exfalso. destruct KQR as [C | [E1 T]].
    - destruct Q, R; simpl in C; try tauto. rewrite add_chd in E by assumption. discriminate.
    - subst R. destruct Q; simpl in T; try tauto. rewrite add_tgt in E by assumption. discriminate. }
  { (* Q + R = - P *)
    rewrite E. rewrite add_opp_r by assumption.
    assert (ER : R = opp (add P Q)).
    { rewrite opp_add by assumption. rewrite <- E.
      rewrite (add_comm Q R) by assumption.
      symmetry. apply add_sub; assumption. }
    rewrite ER. apply add_opp_r; assumption. }
  (* all four additions are chords or tangents *)
  destruct KPQ as [CPQ | [EPQ TP]], KQR as [CQR | [EQR TQ]].
  - destruct KSR as [CSR | [ESR TS]], KPT as [CPT | [EPT TP]].
    + apply assoc_cccc; assumption.
    + (* P = Q + R *)
      rewrite <- EPT.
      pose proof (assoc_cctc R Q HR HQ (chd_sym _ _ CQR)) as M.
      rewrite (add_comm R Q) in M by assumption. rewrite <- EPT in M.
      rewrite (add_comm Q P) in M by assumption.
      rewrite (add_comm (add P Q) R) by assumption.
      symmetry. apply M; auto using chd_sym.
    + (* R = P + Q *)
      rewrite <- ESR. apply assoc_cctc; try assumption.
      * rewrite ESR. assumption.
      * rewrite ESR. assumption.
    + (* both: Q has order two *)
      assert (EQ : Q = opp Q).
      { pose proof (add_sub Q (add P Q) HQ HS) as E1.
        rewrite ESR in E1. rewrite <- EPT in E1.
        pose proof (add_sub Q P HQ HP) as E2.
        rewrite (add_comm Q P) in E2 by assumption. rewrite ESR in E2.
        rewrite <- E2 at 2. rewrite opp_add by auto using opp_on.
        rewrite opp_opp. rewrite add_comm by auto using opp_on.
        symmetry. exact E1. }
      rewrite <- EPT. rewrite <- ESR.
      apply assoc_cctt; assumption.
  - (* Q = R *)
    subst R. destruct KSR as [CSR | [ESR TS]].
    + destruct KPT as [CPT | [EPT TP]].
      * pose proof (assoc_tccc Q P HQ HP TQ (chd_sym _ _ CPQ)) as M.
        rewrite (add_comm (add P Q) Q), (add_comm P Q) by assumption.
        rewrite (add_comm P (add Q Q)) by assumption.
        symmetry. apply M.
        -- apply chd_sym. assumption.
        -- apply chd_sym. rewrite add_comm by assumption. assumption.
      * pose proof (assoc_tctc Q HQ TQ) as M. rewrite <- EPT in M.
        rewrite <- EPT.
        rewrite (add_comm (add P Q) Q), (add_comm P Q) by assumption.
        symmetry. apply M; auto using chd_sym.
        apply chd_sym. rewrite add_comm by assumption. assumption.
    + exfalso. apply (not_O_chd_l _ _ CPQ). exact (add_eq_r P Q HP HQ ESR).
  - (* P = Q *)
    subst Q. destruct KPT as [CPT | [EPT TP']].
    + destruct KSR as [CSR | [ESR TS]].
      * apply assoc_tccc; assumption.
      * rewrite <- ESR. rewrite <- ESR in CPT, CQR. apply assoc_tctc; assumption.
    + exfalso. apply (not_O_chd_r _ _ CQR). exact (add_eq_l P R HP HR (eq_sym EPT)).
  - (* P = Q = R *)
    subst Q R. apply add_comm; assumption.
Qed.


(*STRUCT3*)
(** ** scalar multiples *)



Lemma opp_O_inv P : opp P = O -> P = O.
Proof. destruct P; simpl; [reflexivity | discriminate]. Qed.

Lemma nmul_on k P : on_curve P -> on_curve (nmul k P).
Proof. intros HP. induction k; simpl; [exact I | apply add_on; assumption]. Qed.

Lemma zmul_on k P : on_curve P -> on_curve (zmul k P).
Proof. intros HP. destruct k; simpl; auto using nmul_on, opp_on. Qed.

Lemma nmul_O k : nmul k O = O.
Proof. induction k; simpl; auto. Qed.

Lemma zmul_O k : zmul k O = O.
Proof. destruct k; simpl; rewrite ?nmul_O; reflexivity. Qed.

Lemma nmul_add j k P : on_curve P ->
  nmul (j + k) P = add (nmul j P) (nmul k P).
Proof.
  intros HP. induction j; simpl; [reflexivity |].
  rewrite IHj. symmetry. apply add_assoc; auto using nmul_on.
Qed.

Lemma nmul_succ_r k P : on_curve P -> nmul (S k) P = add (nmul k P) P.
Proof. intros HP. simpl. apply add_comm; auto using nmul_on. Qed.

Lemma nmul_opp k P : on_curve P -> nmul k (opp P) = opp (nmul k P).
Proof.
  intros HP. induction k; simpl; [reflexivity |].
  rewrite IHk. symmetry. apply opp_add; auto using nmul_on.
Qed.

Lemma zmul_of_nat k P : zmul (Z.of_nat k) P = nmul k P.
Proof.
  destruct k; [reflexivity |]. simpl. rewrite SuccNat2Pos.id_succ. reflexivity.
Qed.

Lemma zmul_nonneg k P : (0 <= k)%Z -> zmul k P = nmul (Z.to_nat k) P.
Proof.
  intros Hk. rewrite <- (Z2Nat.id k Hk) at 1. apply zmul_of_nat.
Qed.

Lemma zmul_opp k P : zmul (- k) P = opp (zmul k P).
Proof. destruct k; simpl; rewrite ?opp_opp; reflexivity. Qed.

Lemma zmul_1 P : zmul 1 P = P.
Proof. simpl. apply add_O_r. Qed.

Lemma zmul_succ k P : on_curve P -> zmul (Z.succ k) P = add (zmul k P) P.
Proof.
  intros HP. destruct (Z_lt_le_dec k 0) as [Hneg | Hpos].
  - assert (E : k = (- Z.of_nat (S (Z.to_nat (- k - 1))))%Z) by lia.
    set (m := Z.to_nat (- k - 1)) in E.
    assert (E' : Z.succ k = (- Z.of_nat m)%Z) by lia.
    rewrite E', E. rewrite !zmul_opp, !zmul_of_nat.
    rewrite nmul_succ_r by assumption.
    rewrite opp_add by auto using nmul_on.
    pose proof (add_sub (opp (nmul m P)) (opp P)) as K.
    rewrite opp_opp in K. symmetry. apply K; auto using opp_on, nmul_on.
  - rewrite !zmul_nonneg by lia. rewrite Z2Nat.inj_succ by lia.
    apply nmul_succ_r; assumption.
Qed.

Lemma zmul_pred k P : on_curve P -> zmul (Z.pred k) P = add (zmul k P) (opp P).
Proof.
  intros HP. pose proof (zmul_succ (Z.pred k) P HP) as E.
  rewrite Z.succ_pred in E. rewrite E.
  symmetry. apply add_sub; auto using zmul_on.
Qed.

Lemma zmul_add j k P : on_curve P ->
  zmul (j + k) P = add (zmul j P) (zmul k P).
Proof.
  intros HP. pattern k. apply Z.bi_induction; clear k.
  - intros u v E. unfold Z.eq in E. subst. reflexivity.
  - rewrite Z.add_0_r. simpl. rewrite add_O_r. reflexivity.
  - intros k. split; intros IH.
    + rewrite Z.add_succ_r, !zmul_succ, IH by assumption.
      apply add_assoc; auto using zmul_on.
    + rewrite Z.add_succ_r, !zmul_succ in IH by assumption.
      rewrite <- add_assoc in IH by auto using zmul_on.
      pose proof (f_equal (fun X => add X (opp P)) IH) as IH'. simpl in IH'.
      rewrite !add_sub in IH' by auto using zmul_on, add_on. exact IH'.
Qed.

Lemma zmul_mul j k P : on_curve P -> zmul (j * k) P = zmul j (zmul k P).
Proof.
  intros HP. pattern j. apply Z.bi_induction; clear j.
  - intros u v E. unfold Z.eq in E. subst. reflexivity.
  - reflexivity.
  - intros j. split; intros IH.
    + rewrite Z.mul_succ_l, zmul_add, IH, zmul_succ by auto using zmul_on.
      reflexivity.
    + rewrite Z.mul_succ_l, zmul_add, zmul_succ in IH by auto using zmul_on.
      pose proof (f_equal (fun X => add X (opp (zmul k P))) IH) as IH'. simpl in IH'.
      rewrite !add_sub in IH' by auto using zmul_on. exact IH'.
Qed.

Lemma zmul_double P : on_curve P -> zmul 2 P = add P P.
Proof. intros HP. change 2%Z with (Z.succ 1). rewrite zmul_succ, zmul_1 by assumption. reflexivity. Qed.

Lemma zmul_mod n k P : on_curve P -> zmul n P = O -> zmul (k mod n) P = zmul k P.
Proof.
  intros HP Hn. destruct (Z.eq_dec n 0) as [E | E].
  - subst. rewrite Z.mod_0_r. reflexivity.
  - rewrite (Z.div_mod k n E) at 2.
    rewrite zmul_add, (Z.mul_comm n), zmul_mul, Hn, zmul_O by assumption.
    reflexivity.
Qed.

(** a point killed by a prime [n] and by some [k] not divisible by [n] is
    the identity *)
Lemma zmul_prime_order n k P : on_curve P -> Z.prime n ->
  zmul n P = O -> zmul k P = O -> (k mod n <> 0)%Z -> P = O.
Proof.
  intros HP Hn En Ek Hk.
  assert (C : Z.coprime n k).
  { apply Z.coprime_prime_l; [assumption |]. intros D. apply Hk.
    apply Z.mod0_divide. assumption. }
  apply Z.Bezout_coprime in C. destruct C as (u & v & E).
  rewrite <- (zmul_1 P), <- E.
  rewrite zmul_add, !zmul_mul, En, Ek, !zmul_O by assumption. reflexivity.
Qed.


(*STRUCT4*)

End Group.
End ECFacts.


(** * Facts

    ** The integer primitives *)

Lemma bind_ok {A B : Type} (v : A) (f : A -> result B) : bind (Ok v) f = f v.
Proof. reflexivity. Qed.

Lemma pymod_ok (v m : Z) : m <> 0 -> pymod v m = Ok (v mod m).
Proof. intros Hm. unfold pymod. destruct (Z.eqb_spec m 0); [contradiction | reflexivity]. Qed.

Lemma powmod_spec (v : Z) (e : positive) (m : Z) :
  powmod v e m = (v ^ Zpos e) mod m.
Proof.
  unfold powmod. induction e using Pos.peano_ind.
  - simpl Pos.iter_op. rewrite Z.pow_1_r. reflexivity.
  - rewrite Pos.iter_op_succ.
    + rewrite IHe, Pos2Z.inj_succ, Z.pow_succ_r by lia.
      rewrite Zmult_mod_idemp_l, Zmult_mod_idemp_r. reflexivity.
    + intros u v0 w. rewrite Zmult_mod_idemp_l, Zmult_mod_idemp_r.
      f_equal. ring.
Qed.

Lemma pypow_pos (v : Z) (e : positive) (m : Z) :
  m <> 0 -> pypow v (Zpos e) m = Ok ((v ^ Zpos e) mod m).
Proof.
  intros Hm. unfold pypow. destruct (Z.eqb_spec m 0); [contradiction |].
  rewrite powmod_spec. reflexivity.
Qed.

(** [pow(v, -1, m)] is the inverse of [v] when [m] is prime and does not
    divide [v]. *)
Lemma pypow_inv (v m : Z) : Z.prime m -> v mod m <> 0 ->
  exists i, pypow v (-1) m = Ok i /\ 0 <= i < m /\ (i * v) mod m = 1.
Proof.
  intros Hm Hv. pose proof (Z.prime_ge_2 _ Hm) as H2.
  assert (C : Z.gcd v m = 1).
  { rewrite Z.gcd_comm. apply Z.coprime_prime_l; [assumption |].
    intros D. apply Hv. apply Z.mod0_divide. assumption. }
  exists (Z.invmod v m). unfold pypow.
  destruct (Z.eqb_spec m 0); [lia |]. change (-1) with (Zneg 1).
  rewrite C. simpl (1 =? 1).
  rewrite powmod_spec, Z.pow_1_r. rewrite Z.mod_invmod.
  repeat split.
  - rewrite <- (Z.mod_invmod m v). apply Z.mod_pos_bound. lia.
  - rewrite <- (Z.mod_invmod m v). apply Z.mod_pos_bound. lia.
  - apply Z.invmod_prime; assumption.
Qed.


(** ** The width-w recoding *)

Section Recoding.
Variable w : Z.
Hypothesis Hw : 2 <= w.

Lemma pow2_w : 2 ^ w = 4 * 2 ^ (w - 2).
Proof.
  replace w with (Z.succ (Z.succ (w - 2))) at 1 by lia.
  rewrite !Z.pow_succ_r by lia. lia.
Qed.

Lemma pow2_w1 : 2 ^ (w - 1) = 2 * 2 ^ (w - 2).
Proof.
  replace (w - 1) with (Z.succ (w - 2)) at 1 by lia.
  rewrite Z.pow_succ_r by lia. lia.
Qed.

Lemma pow2_w2_pos : 1 <= 2 ^ (w - 2).
Proof. pose proof (Z.pow_pos_nonneg 2 (w - 2)). lia. Qed.

(** the digit of an odd [k], by cases *)
Lemma wnaf_digit_odd (k : Z) : 0 < k -> Z.odd k = true ->
  exists q t : Z,
    k = 2 ^ w * q + (wnaf_digit k w + (if wnaf_digit k w <? 0 then 2 ^ w else 0)) /\
    0 <= q /\
    wnaf_digit k w = 2 * t + 1 /\
    Z.abs (wnaf_digit k w) < 2 ^ (w - 1).
Proof.
  intros Hk Ho. unfold wnaf_digit. rewrite Ho. rewrite !Z.shiftl_1_l.
  pose proof pow2_w as E4. pose proof pow2_w1 as E2. pose proof pow2_w2_pos as P2.
  set (P := 2 ^ (w - 2)) in *.
  pose proof (Z.div_mod k (2 ^ w) ltac:(lia)) as D.
  pose proof (Z.mod_pos_bound k (2 ^ w) ltac:(lia)) as B.
  assert (Q0 : 0 <= k / 2 ^ w) by (apply Z.div_pos; lia).
  set (zi := k mod 2 ^ w) in *. set (q := k / 2 ^ w) in *.
  pose proof (proj1 (Z.odd_spec k) Ho) as [t Et].
  rewrite E4 in D. set (M := P * q).
  assert (EM : 4 * P * q = 4 * M) by (unfold M; ring).
  rewrite EM in D.
  cbv zeta. rewrite E2, E4.
  destruct (Z.gtb_spec zi (2 * P)) as [G | G].
  - exists q, (t - 2 * M - 2 * P).
    destruct (Z.ltb_spec (zi - 4 * P) 0); [| lia].
    repeat split; try lia.
  - exists q, (t - 2 * M).
    destruct (Z.ltb_spec zi 0); [lia |].
    repeat split; try lia.
Qed.

Lemma wnaf_digit_ok (k : Z) : 0 < k -> naf_digit_ok w (wnaf_digit k w).
Proof.
  intros Hk. destruct (Z.odd k) eqn:Ho.
  - destruct (wnaf_digit_odd k Hk Ho) as (q & t & _ & _ & Et & Ha).
    right. split; [| exact Ha]. apply Z.odd_spec. exists t. exact Et.
  - left. unfold wnaf_digit. rewrite Ho. reflexivity.
Qed.

(** one iteration: [k - zi] is even, and the next [k] stays within the
    bound of the remaining fuel *)
Lemma wnaf_step (k f : Z) : 0 < k -> 0 <= f ->
  k <= wnaf_bound w (f + 1) ->
  let k' := Z.shiftr (k - wnaf_digit k w) 1 in
  k = wnaf_digit k w + 2 * k' /\ 0 <= k' <= wnaf_bound w f.
Proof.
  intros Hk Hf Hb. cbv zeta. rewrite Z.shiftr_div_pow2 by lia. change (2 ^ 1) with 2.
  pose proof pow2_w as E4. pose proof pow2_w1 as E2. pose proof pow2_w2_pos as P2.
  unfold wnaf_bound in *.
  destruct (Z.leb_spec (f + 1) 0); [lia |].
  destruct (Z.odd k) eqn:Ho.
  - destruct (wnaf_digit_odd k Hk Ho) as (q & t & Ek & Hq & Et & Ha).
    set (d := wnaf_digit k w) in *.
    assert (Ediv : (k - d) / 2 = 2 ^ (w - 1) * q + (if d <? 0 then 2 ^ (w - 1) else 0)).
    { replace (k - d) with ((2 ^ (w - 1) * q + (if d <? 0 then 2 ^ (w - 1) else 0)) * 2).
      - apply Z.div_mul. lia.
      - rewrite Ek at 1. rewrite E4, E2. destruct (d <? 0); ring. }
    rewrite Ediv. split.
    { rewrite Ek at 1. rewrite E4, E2. destruct (d <? 0); ring. }
    set (P := 2 ^ (w - 2)) in *. set (M := P * q).
    assert (HM : 0 <= M) by (unfold M; apply Z.mul_nonneg_nonneg; lia).
    assert (EM4 : 2 ^ w * q = 4 * M) by (rewrite E4; unfold M; ring).
    assert (EM2 : 2 ^ (w - 1) * q = 2 * M) by (rewrite E2; unfold M; ring).
    rewrite EM4 in Ek. rewrite E4 in Ek. rewrite EM2. rewrite E2 in Ha |- *.
    assert (HMP : M = 0 \/ P <= M).
    { unfold M. destruct (Z.eq_dec q 0) as [-> | Nq]; [left; ring | right; nia]. }
    destruct (Z.leb_spec (f + 1) w) as [Lw | Lw].
    + (* the last [w] iterations: k <= 2^(w-1), so the digit is k *)
      assert (Hk2 : k <= 2 * P).
      { eapply Z.le_trans; [exact Hb |]. rewrite <- E2.
        apply Z.pow_le_mono_r; lia. }
      assert (M = 0) by (destruct (Z.ltb_spec d 0); lia).
      destruct (Z.ltb_spec d 0); [lia |].
      destruct (Z.leb_spec f 0); [lia |].
      destruct (Z.leb_spec f w); [| lia].
      pose proof (Z.pow_pos_nonneg 2 (f - 1)). lia.
    + destruct (Z.leb_spec f 0); [lia |].
      destruct (Z.leb_spec f w) as [Lf | Lf].
      * assert (f = w) by lia. subst f.
        replace (w + 1 - w - 1) with 0 in Hb by lia. change (2 ^ 0) with 1 in Hb.
        rewrite ?E2 in Hb. fold P in Hb.
        destruct (Z.ltb_spec d 0); lia.
      * replace (f + 1 - w - 1) with (Z.succ (f - w - 1)) in Hb by lia.
        rewrite Z.pow_succ_r in Hb by lia. rewrite ?E2 in Hb. fold P in Hb.
        pose proof (Z.pow_pos_nonneg 2 (f - w - 1)).
        destruct (Z.ltb_spec d 0); lia.
  - assert (Ed : wnaf_digit k w = 0) by (unfold wnaf_digit; rewrite Ho; reflexivity).
    rewrite Ed, Z.sub_0_r.
    assert (Ee : Z.even k = true) by (rewrite <- Z.negb_odd, Ho; reflexivity).
    apply Z.even_spec in Ee. destruct Ee as [t Et].
    assert (Ediv : k / 2 = t) by (rewrite Et, Z.mul_comm; apply Z.div_mul; lia).
    rewrite Ediv. split; [lia |].
    destruct (Z.leb_spec (f + 1) w) as [Lw | Lw].
    + destruct (Z.leb_spec f 0).
      * assert (f = 0) by lia. subst f. change (0 + 1 - 1) with 0 in Hb.
        change (2 ^ 0) with 1 in Hb. lia.
      * destruct (Z.leb_spec f w); [| lia].
        replace (f + 1 - 1) with (Z.succ (f - 1)) in Hb by lia.
        rewrite Z.pow_succ_r in Hb by lia. lia.
    + destruct (Z.leb_spec f 0); [lia |].
      destruct (Z.leb_spec f w) as [Lf | Lf].
      * assert (f = w) by lia. subst f.
        replace (w + 1 - w - 1) with 0 in Hb by lia. change (2 ^ 0) with 1 in Hb.
        lia.
      * replace (f + 1 - w - 1) with (Z.succ (f - w - 1)) in Hb by lia.
        rewrite Z.pow_succ_r in Hb by lia. rewrite E2 in Hb |- *.
        pose proof (Z.pow_pos_nonneg 2 (f - w - 1)). lia.
Qed.

(** with enough fuel the loop ends by its own test: the digits recode [k] *)
Lemma wnaf_digits_value (fuel : nat) : forall k : Z,
  0 <= k <= wnaf_bound w (Z.of_nat fuel) ->
  naf_value (wnaf_digits fuel k w) = k /\
  Forall (naf_digit_ok w) (wnaf_digits fuel k w).
Proof.
  induction fuel as [| fuel IH]; intros k Hk.
  - unfold wnaf_bound in Hk. simpl in Hk. assert (k = 0) by lia. subst.
    simpl. auto.
  - cbn [wnaf_digits]. destruct (Z.ltb_spec 0 k) as [Hp | Hp].
    + rewrite Nat2Z.inj_succ, <- Z.add_1_r in Hk.
      destruct (wnaf_step k (Z.of_nat fuel) Hp ltac:(lia) ltac:(lia)) as [Ek Hb].
      destruct (IH _ Hb) as [Ev Hf].
      split.
      * cbn [naf_value fold_right]. fold (naf_value (wnaf_digits fuel (Z.shiftr (k - wnaf_digit k w) 1) w)).
        rewrite Ev. lia.
      * constructor; [apply wnaf_digit_ok; assumption | exact Hf].
    + assert (k = 0) by lia. subst. simpl. auto.
Qed.

Lemma wnaf_fuel_enough (k : Z) : 0 < k ->
  k <= wnaf_bound w (Z.of_nat (wnaf_fuel k w)).
Proof.
  intros Hk. unfold wnaf_fuel, wnaf_bound.
  pose proof (Z.log2_nonneg k) as L0.
  rewrite Z2Nat.id by lia.
  destruct (Z.leb_spec (Z.log2 k + w + 3) 0); [lia |].
  destruct (Z.leb_spec (Z.log2 k + w + 3) w); [lia |].
  replace (Z.log2 k + w + 3 - w - 1) with (Z.succ (Z.succ (Z.log2 k))) by lia.
  pose proof (Z.log2_spec k Hk) as [_ U]. rewrite !Z.pow_succ_r in * by lia.
  pose proof (Z.pow_pos_nonneg 2 (w - 1)). 
  pose proof (Z.pow_pos_nonneg 2 (Z.log2 k)). lia.
Qed.

End Recoding.


(** ** The addition law divides by nothing that vanishes, for an odd modulus *)

Section NoZeroDivision.

Variable c : Curve.
Hypothesis Hp : p c <> 0.

Lemma Fadd_ok (u v : Z) : Field.add (F c) u v = Ok ((u + v) mod p c).
Proof. apply pymod_ok. exact Hp. Qed.

Lemma Fsub_ok (u v : Z) : Field.sub (F c) u v = Ok ((u - v) mod p c).
Proof. apply pymod_ok. exact Hp. Qed.

Lemma Fmul_ok (u v : Z) : Field.mul (F c) u v = Ok ((u * v) mod p c).
Proof. apply pymod_ok. exact Hp. Qed.

Lemma Fpow_ok (u : Z) (e : positive) : Field.pow (F c) u (Zpos e) = Ok ((u ^ Zpos e) mod p c).
Proof. apply pypow_pos. exact Hp. Qed.

Lemma Finv_ok (u : Z) : 3 <= p c -> u mod p c <> 0 -> returns (Field.inv (F c) u).
Proof.
  intros H3 Hu. unfold Field.inv. cbn [F Fp].
  rewrite pymod_ok, bind_ok by exact Hp.
  destruct (Z.eqb_spec (u mod p c) 0); [contradiction |].
  destruct (p c - 2) as [| e | e] eqn:E; try lia.
  rewrite pypow_pos by exact Hp. eexists. reflexivity.
Qed.

Ltac field_steps :=
  repeat (progress (rewrite ?Fsub_ok, ?Fmul_ok, ?Fadd_ok, ?Fpow_ok, ?bind_ok)).

Lemma make_outcome (u v : Z) :
  returns (Pt.make c (Some u) (Some v)) \/ Pt.make c (Some u) (Some v) = Raise ValueError.
Proof.
  unfold Pt.make.
  rewrite !pymod_ok, !bind_ok by exact Hp.
  rewrite (Fpow_ok _ 2), bind_ok, (Fpow_ok _ 3), bind_ok, Fmul_ok, bind_ok.
  rewrite pymod_ok, bind_ok by exact Hp.
  destruct (_ =? _); [left; eexists; reflexivity | right; reflexivity].
Qed.

Lemma double_den_nz (y1 : Z) : Z.odd (p c) = true -> 0 < y1 < p c ->
  ((2 * y1) mod p c) mod p c <> 0.
Proof.
  intros Ho Hy. rewrite Z.mod_mod by exact Hp. intros E.
  apply Z.mod_divide in E; [| exact Hp].
  assert (D : (p c | y1)).
  { apply Z.gauss with 2; [exact E |].
    apply Z.odd_spec in Ho. destruct Ho as [q Hq].
    apply Z.bezout_1_gcd. exists 1, (- q). lia. }
  apply Z.divide_pos_le in D; lia.
Qed.

Lemma chord_den_nz (x1 x2 : Z) : 0 <= x1 < p c -> 0 <= x2 < p c -> x1 <> x2 ->
  ((x2 - x1) mod p c) mod p c <> 0.
Proof.
  intros H1 H2 Hx. rewrite Z.mod_mod by exact Hp. intros E.
  apply Z.mod_divide in E; [| exact Hp].
  destruct E as [q Hq].
  assert (q = 0 \/ q <= -1 \/ 1 <= q) by lia. nia.
Qed.

(** On valid points of one curve the addition returns, or the constructor
    rejects the sum with [ValueError] (which a composite modulus can
    cause); no other exception is possible. *)
Lemma add_outcome (P Q : Point) :
  Z.odd (p c) = true -> valid_point c P -> valid_point c Q ->
  returns (Pt.add P Q) \/ Pt.add P Q = Raise ValueError.
Proof.
  intros Ho [EP VP] [EQ VQ]. unfold Pt.add.
  rewrite EP, EQ. unfold same_curve. rewrite Z.eqb_refl. cbn [negb].
  unfold Pt.is_infinity.
  destruct (x P) as [x1 |], (y P) as [y1 |]; try contradiction;
    [| left; eexists; reflexivity].
  destruct (x Q) as [x2 |], (y Q) as [y2 |]; try contradiction;
    [| left; eexists; reflexivity].
  destruct VP as (Rx1 & Ry1 & _). destruct VQ as (Rx2 & Ry2 & _).
  assert (H3 : p c = 1 \/ 3 <= p c).
  { apply Z.odd_spec in Ho. destruct Ho as [q Hq]. lia. }
  destruct H3 as [H1 | H3].
  { assert (x1 = 0) by lia. assert (x2 = 0) by lia. assert (y1 = 0) by lia.
    assert (y2 = 0) by lia. subst. simpl. left. eexists. reflexivity. }
  destruct (Z.eqb_spec x1 x2) as [Ex | Ex];
    destruct (Z.eqb_spec y1 y2) as [Ey | Ey];
    destruct (Z.eqb_spec y1 0) as [E0 | E0]; cbn [andb orb negb];
    try (left; eexists; reflexivity).
  - field_steps. unfold Field.div.
    destruct (Finv_ok ((2 * y1) mod p c) H3) as [i Hi].
    { apply double_den_nz; [exact Ho | lia]. }
    rewrite Hi, bind_ok. field_steps. apply make_outcome.
  - field_steps. unfold Field.div.
    destruct (Finv_ok ((x2 - x1) mod p c) H3) as [i Hi].
    { apply chord_den_nz; assumption. }
    rewrite Hi, bind_ok. field_steps. apply make_outcome.
  - field_steps. unfold Field.div.
    destruct (Finv_ok ((x2 - x1) mod p c) H3) as [i Hi].
    { apply chord_den_nz; assumption. }
    rewrite Hi, bind_ok. field_steps. apply make_outcome.
  - field_steps. unfold Field.div.
    destruct (Finv_ok ((x2 - x1) mod p c) H3) as [i Hi].
    { apply chord_den_nz; assumption. }
    rewrite Hi, bind_ok. field_steps. apply make_outcome.
  - field_steps. unfold Field.div.
    destruct (Finv_ok ((x2 - x1) mod p c) H3) as [i Hi].
    { apply chord_den_nz; assumption. }
    rewrite Hi, bind_ok. field_steps. apply make_outcome.
Qed.

End NoZeroDivision.


(** ** The code's point operations compute the group law *)

Section Bridge.
Variable c : Curve.
Hypothesis Hc : valid_curve c.

Local Abbreviation pp := (p c).
Local Abbreviation Ac := (curve_A c).
Local Abbreviation Bc := (curve_B c).
Local Abbreviation ofz := (Zmod.of_Z (p c)).
Local Abbreviation on_curve := (EC.on_curve (p c) (curve_A c) (curve_B c)).
Local Abbreviation eadd := (EC.add (p c) (curve_A c)).
Local Abbreviation eopp := (EC.opp (p c)).
Local Abbreviation zmul := (EC.zmul (p c) (curve_A c)).

Lemma pp_prime : Z.prime pp.
Proof. exact (vc_prime c Hc). Qed.

Lemma pp_ge_3 : 3 <= pp.
Proof. pose proof (Z.prime_ge_2 _ pp_prime). pose proof (vc_odd c Hc). lia. Qed.

Lemma pp_nz : pp <> 0.
Proof. pose proof pp_ge_3. lia. Qed.

Lemma to_Z_range (u : Zmod pp) : 0 <= Zmod.to_Z u < pp.
Proof. apply Zmod.to_Z_pos_bound. pose proof pp_ge_3. lia. Qed.

Lemma two_of : EC.two pp = ofz 2.
Proof.
  unfold EC.two. change 2 with (1 + 1). rewrite Zmod.of_Z_add, Zmod.of_Z_1. reflexivity.
Qed.

Lemma three_of : EC.three pp = ofz 3.
Proof.
  unfold EC.three. change 3 with (1 + 1 + 1).
  rewrite !Zmod.of_Z_add, Zmod.of_Z_1. reflexivity.
Qed.

Lemma two_nz : EC.two pp <> Zmod.zero.
Proof.
  rewrite two_of. apply Zmod.of_Z_nz. pose proof pp_ge_3.
  rewrite Z.mod_small; lia.
Qed.

Lemma disc_nz :
  Zmod.add
    (Zmod.mul (Zmod.mul (Zmod.mul (Zmod.mul (EC.two pp) (EC.two pp)) Ac) Ac) Ac)
    (Zmod.mul (Zmod.mul (Zmod.mul (Zmod.mul (EC.three pp) (EC.three pp)) (EC.three pp)) Bc) Bc)
  <> Zmod.zero.
Proof.
  rewrite two_of, three_of. unfold curve_A, curve_B.
  rewrite <- !Zmod.of_Z_mul, <- Zmod.of_Z_add.
  apply Zmod.of_Z_nz. pose proof (vc_disc c Hc) as D. unfold disc in D.
  intros E. apply D. rewrite <- E. f_equal. ring.
Qed.

(** field operations on arbitrary integers *)
Lemma F_add_of (u v : Z) : Field.add (F c) u v = Ok (Zmod.to_Z (Zmod.add (ofz u) (ofz v))).
Proof.
  unfold Field.add. simpl Fp. rewrite pymod_ok by apply pp_nz.
  rewrite <- Zmod.of_Z_add, Zmod.to_Z_of_Z. reflexivity.
Qed.

Lemma F_sub_of (u v : Z) : Field.sub (F c) u v = Ok (Zmod.to_Z (Zmod.sub (ofz u) (ofz v))).
Proof.
  unfold Field.sub. simpl Fp. rewrite pymod_ok by apply pp_nz.
  rewrite <- Zmod.of_Z_sub, Zmod.to_Z_of_Z. reflexivity.
Qed.

Lemma F_mul_of (u v : Z) : Field.mul (F c) u v = Ok (Zmod.to_Z (Zmod.mul (ofz u) (ofz v))).
Proof.
  unfold Field.mul. simpl Fp. rewrite pymod_ok by apply pp_nz.
  rewrite <- Zmod.of_Z_mul, Zmod.to_Z_of_Z. reflexivity.
Qed.

Lemma F_neg_of (u : Z) : Field.neg (F c) u = Ok (Zmod.to_Z (Zmod.opp (ofz u))).
Proof.
  unfold Field.neg. simpl Fp. rewrite pymod_ok by apply pp_nz.
  rewrite <- Zmod.of_Z_opp, Zmod.to_Z_of_Z. reflexivity.
Qed.

Lemma F_pow2_of (u : Z) : Field.pow (F c) u 2 = Ok (Zmod.to_Z (Zmod.mul (ofz u) (ofz u))).
Proof.
  unfold Field.pow. simpl Fp. rewrite pypow_pos by apply pp_nz.
  rewrite <- Zmod.of_Z_mul, Zmod.to_Z_of_Z. do 2 f_equal. ring.
Qed.

Lemma F_pow3_of (u : Z) :
  Field.pow (F c) u 3 = Ok (Zmod.to_Z (Zmod.mul (Zmod.mul (ofz u) (ofz u)) (ofz u))).
Proof.
  unfold Field.pow. simpl Fp. rewrite pypow_pos by apply pp_nz.
  rewrite <- !Zmod.of_Z_mul, Zmod.to_Z_of_Z. do 2 f_equal. ring.
Qed.

Lemma F_inv_of (u : Z) : ofz u <> Zmod.zero ->
  Field.inv (F c) u = Ok (Zmod.to_Z (Zmod.inv (ofz u))).
Proof.
  intros N. unfold Field.inv. simpl Fp. rewrite pymod_ok by apply pp_nz.
  rewrite bind_ok.
  destruct (Z.eqb_spec (u mod pp) 0) as [E | E].
  - exfalso. apply N. apply Zmod.to_Z_inj. rewrite Zmod.to_Z_of_Z, Zmod.to_Z_0. exact E.
  - pose proof pp_ge_3.
    destruct (pp - 2) as [| q | q] eqn:Eq; try lia.
    rewrite pypow_pos by apply pp_nz. rewrite <- Eq.
    rewrite <- (Zmod.fermat_inv (ofz u) N pp_prime).
    rewrite Zmod.to_Z_pow_nonneg_r by lia.
    rewrite Zmod.to_Z_of_Z. rewrite Z.mod_pow_l. reflexivity.
Qed.

Lemma F_inv_zero (u : Z) : ofz u = Zmod.zero ->
  Field.inv (F c) u = Raise ZeroDivisionError.
Proof.
  intros N. unfold Field.inv. simpl Fp. rewrite pymod_ok by apply pp_nz.
  rewrite bind_ok.
  apply (f_equal Zmod.to_Z) in N. rewrite Zmod.to_Z_of_Z, Zmod.to_Z_0 in N.
  rewrite N. reflexivity.
Qed.

Lemma F_div_of (u v : Z) : ofz v <> Zmod.zero ->
  Field.div (F c) u v = Ok (Zmod.to_Z (Zmod.mdiv (ofz u) (ofz v))).
Proof.
  intros N. unfold Field.div. rewrite F_inv_of by assumption. rewrite bind_ok.
  rewrite F_mul_of, Zmod.of_Z_to_Z, Zmod.mul_inv_r. reflexivity.
Qed.

Lemma of_pt_curve (A : EC.pt pp) : curve (of_pt c A) = c.
Proof. destruct A; reflexivity. Qed.

Lemma of_pt_inf (A : EC.pt pp) :
  Pt.is_infinity (of_pt c A) = match A with EC.O => true | EC.Aff _ _ => false end.
Proof. destruct A; reflexivity. Qed.

Lemma same_curve_refl (d : Curve) : same_curve d d = true.
Proof. unfold same_curve. apply Z.eqb_refl. Qed.

Lemma of_pt_inj (A A' : EC.pt pp) : of_pt c A = of_pt c A' -> A = A'.
Proof.
  destruct A as [| u v], A' as [| u' v']; simpl; intros E; try discriminate; auto.
  injection E as E1 E2. apply Zmod.to_Z_inj in E1, E2. subst. reflexivity.
Qed.

(** the constructor on any pair of integers *)
Lemma make_on (u v : Z) : on_curve (EC.Aff (ofz u) (ofz v)) ->
  Pt.make c (Some u) (Some v) = Ok (of_pt c (EC.Aff (ofz u) (ofz v))).
Proof.
  intros H. simpl in H. unfold Pt.make.
  rewrite !pymod_ok by apply pp_nz. rewrite !bind_ok.
  rewrite F_pow2_of, bind_ok, F_pow3_of, bind_ok, F_mul_of, bind_ok.
  rewrite pymod_ok by apply pp_nz. rewrite bind_ok.
  rewrite !Zmod.of_Z_mod.
  rewrite <- (Zmod.to_Z_of_Z (_ + _ + b c)).
  rewrite !Zmod.of_Z_add, !Zmod.of_Z_to_Z.
  fold (curve_B c). fold (curve_A c). rewrite <- H.
  rewrite Z.eqb_refl. unfold of_pt. rewrite !Zmod.to_Z_of_Z. reflexivity.
Qed.

Lemma make_off (u v : Z) : ~ on_curve (EC.Aff (ofz u) (ofz v)) ->
  Pt.make c (Some u) (Some v) = Raise ValueError.
Proof.
  intros H. simpl in H. unfold Pt.make.
  rewrite !pymod_ok by apply pp_nz. rewrite !bind_ok.
  rewrite F_pow2_of, bind_ok, F_pow3_of, bind_ok, F_mul_of, bind_ok.
  rewrite pymod_ok by apply pp_nz. rewrite bind_ok.
  rewrite !Zmod.of_Z_mod.
  rewrite <- (Zmod.to_Z_of_Z (_ + _ + b c)).
  rewrite !Zmod.of_Z_add, !Zmod.of_Z_to_Z.
  fold (curve_B c). fold (curve_A c).
  match goal with |- (if ?l =? ?r then _ else _) = _ => destruct (Z.eqb_spec l r) as [E | E] end.
  - exfalso. apply H. apply Zmod.to_Z_inj. exact E.
  - reflexivity.
Qed.

Lemma make_of (u v : Zmod pp) : on_curve (EC.Aff u v) ->
  Pt.make c (Some (Zmod.to_Z u)) (Some (Zmod.to_Z v)) = Ok (of_pt c (EC.Aff u v)).
Proof.
  intros H. rewrite make_on; rewrite !Zmod.of_Z_to_Z; auto.
Qed.

Lemma neg_of (A : EC.pt pp) : on_curve A ->
  Pt.neg (of_pt c A) = Ok (of_pt c (eopp A)).
Proof.
  destruct A as [| u v]; [reflexivity |]. intros H.
  unfold Pt.neg. simpl. rewrite F_neg_of, bind_ok.
  rewrite Zmod.of_Z_to_Z.
  apply make_of. apply (ECFacts.opp_on pp pp_prime Ac Bc (EC.Aff u v) H).
Qed.

Lemma add_of (A A' : EC.pt pp) : on_curve A -> on_curve A' ->
  Pt.add (of_pt c A) (of_pt c A') = Ok (of_pt c (eadd A A')).
Proof.
  intros H H'.
  pose proof (ECFacts.add_on pp pp_prime Ac Bc two_nz A A' H H') as Hs.
  unfold Pt.add. rewrite !of_pt_curve, same_curve_refl. simpl negb. cbv iota.
  destruct A as [| x1 y1]; [reflexivity |].
  destruct A' as [| x2 y2]; [reflexivity |].
  simpl Pt.is_infinity. cbv iota. simpl x. simpl y. simpl curve. cbv zeta beta iota.
  unfold EC.add in *.
  change (Zmod.to_Z x1 =? Zmod.to_Z x2) with (Zmod.eqb x1 x2).
  change (Zmod.to_Z y1 =? Zmod.to_Z y2) with (Zmod.eqb y1 y2).
  replace (Zmod.to_Z y1 =? 0) with (Zmod.eqb y1 Zmod.zero)
    by (unfold Zmod.eqb; rewrite Zmod.to_Z_0; reflexivity).
  destruct (Zmod.eqb x1 x2 && (negb (Zmod.eqb y1 y2) || Zmod.eqb y1 Zmod.zero)) eqn:E1;
    [reflexivity |].
  destruct (Zmod.eqb x1 x2 && Zmod.eqb y1 y2) eqn:E2.
  - (* doubling *)
    apply andb_true_iff in E2. destruct E2 as [Ex Ey].
    rewrite Ex in E1. simpl in E1. apply orb_false_iff in E1. destruct E1 as [_ E1].
    assert (N : Zmod.mul (EC.two pp) y1 <> Zmod.zero).
    { intros Z0. destruct (ECFacts.mul_zero_cases pp pp_prime _ _ Z0) as [Z1 | Z1].
      - exact (two_nz Z1).
      - subst y1. rewrite Zmod.eqb_refl in E1. discriminate. }
    rewrite F_pow2_of, bind_ok, F_mul_of, bind_ok, F_add_of, bind_ok, F_mul_of, bind_ok.
    rewrite !Zmod.of_Z_to_Z, <- two_of, <- three_of.
    rewrite F_div_of by (rewrite Zmod.of_Z_to_Z; exact N). rewrite bind_ok.
    rewrite F_pow2_of, bind_ok, F_sub_of, bind_ok, F_sub_of, bind_ok.
    rewrite F_sub_of, bind_ok, F_mul_of, bind_ok, F_sub_of, bind_ok.
    rewrite !Zmod.of_Z_to_Z. fold (curve_A c).
    apply make_of. exact Hs.
  - (* chord *)
    assert (N : Zmod.sub x2 x1 <> Zmod.zero).
    { destruct (Zmod.eqb_spec x1 x2) as [Ex | Ex].
      - exfalso. subst x2. simpl in E1, E2. rewrite E2 in E1. discriminate.
      - apply (ECFacts.chd_nz pp pp_prime). exact Ex. }
    rewrite F_sub_of, bind_ok, F_sub_of, bind_ok.
    rewrite !Zmod.of_Z_to_Z.
    rewrite F_div_of by (rewrite Zmod.of_Z_to_Z; exact N). rewrite bind_ok.
    rewrite F_pow2_of, bind_ok, F_sub_of, bind_ok, F_sub_of, bind_ok.
    rewrite F_sub_of, bind_ok, F_mul_of, bind_ok, F_sub_of, bind_ok.
    rewrite !Zmod.of_Z_to_Z.
    apply make_of. exact Hs.
Qed.

Lemma double_of (A : EC.pt pp) : on_curve A ->
  Pt.double (of_pt c A) = Ok (of_pt c (eadd A A)).
Proof. intros H. apply add_of; assumption. Qed.

Lemma valid_point_of (P : Point) :
  valid_point c P <-> exists A, on_curve A /\ P = of_pt c A.
Proof.
  split.
  - intros [Ec V]. destruct P as [d [xv |] [yv |]]; simpl in *; try contradiction; subst d.
    + destruct V as (Rx & Ry & E). exists (EC.Aff (ofz xv) (ofz yv)). split.
      * simpl. apply Zmod.to_Z_inj. unfold curve_A, curve_B.
        rewrite <- !Zmod.of_Z_mul. rewrite <- !Zmod.of_Z_add. rewrite !Zmod.to_Z_of_Z. exact E.
      * unfold of_pt. rewrite !Zmod.to_Z_of_Z, !Z.mod_small by assumption. reflexivity.
    + exists EC.O. split; [exact I | reflexivity].
  - intros (A & H & E). subst P. split; [apply of_pt_curve |].
    destruct A as [| u v]; simpl; [exact I |].
    split; [apply to_Z_range |]. split; [apply to_Z_range |].
    simpl in H. apply Zmod.of_Z_inj.
    rewrite !Zmod.of_Z_add, !Zmod.of_Z_mul, !Zmod.of_Z_to_Z. exact H.
Qed.


(** ** Double-and-add computes the scalar multiple *)

(** the group law at this curve *)
Ltac ec_by L := intros; eapply L; eauto using pp_prime, two_nz, disc_nz.

Lemma g_opp_on A : on_curve A -> on_curve (eopp A).
Proof. ec_by ECFacts.opp_on. Qed.

Lemma g_opp_opp A : eopp (eopp A) = A.
Proof. ec_by ECFacts.opp_opp. Qed.

Lemma g_add_on A A' : on_curve A -> on_curve A' -> on_curve (eadd A A').
Proof. ec_by ECFacts.add_on. Qed.

Lemma g_add_comm A A' : on_curve A -> on_curve A' -> eadd A A' = eadd A' A.
Proof. ec_by ECFacts.add_comm. Qed.

Lemma g_add_assoc A A' A'' : on_curve A -> on_curve A' -> on_curve A'' ->
  eadd (eadd A A') A'' = eadd A (eadd A' A'').
Proof. ec_by ECFacts.add_assoc. Qed.

Lemma g_add_O_r A : eadd A EC.O = A.
Proof. ec_by ECFacts.add_O_r. Qed.

Lemma g_add_opp_r A : on_curve A -> eadd A (eopp A) = EC.O.
Proof. ec_by ECFacts.add_opp_r. Qed.

Lemma g_opp_add A A' : on_curve A -> on_curve A' ->
  eopp (eadd A A') = eadd (eopp A) (eopp A').
Proof. ec_by ECFacts.opp_add. Qed.

Lemma g_zmul_on k A : on_curve A -> on_curve (zmul k A).
Proof. ec_by ECFacts.zmul_on. Qed.

Lemma g_zmul_O k : zmul k EC.O = EC.O.
Proof. ec_by ECFacts.zmul_O. Qed.

Lemma g_zmul_1 A : zmul 1 A = A.
Proof. ec_by ECFacts.zmul_1. Qed.

Lemma g_zmul_opp k A : zmul (- k) A = eopp (zmul k A).
Proof. ec_by ECFacts.zmul_opp. Qed.

Lemma g_zmul_add j k A : on_curve A -> zmul (j + k) A = eadd (zmul j A) (zmul k A).
Proof. ec_by ECFacts.zmul_add. Qed.

Lemma g_zmul_mul j k A : on_curve A -> zmul (j * k) A = zmul j (zmul k A).
Proof. ec_by ECFacts.zmul_mul. Qed.

Lemma g_zmul_double A : on_curve A -> zmul 2 A = eadd A A.
Proof. ec_by ECFacts.zmul_double. Qed.

Lemma g_zmul_mod m k A : on_curve A -> zmul m A = EC.O -> zmul (k mod m) A = zmul k A.
Proof. ec_by ECFacts.zmul_mod. Qed.

Lemma g_zmul_prime_order m k A : on_curve A -> Z.prime m ->
  zmul m A = EC.O -> zmul k A = EC.O -> k mod m <> 0 -> A = EC.O.
Proof. ec_by ECFacts.zmul_prime_order. Qed.

Lemma g_nmul_opp k A : on_curve A ->
  EC.nmul pp Ac k (eopp A) = eopp (EC.nmul pp Ac k A).
Proof. ec_by ECFacts.nmul_opp. Qed.

Create HintDb ec.
#[local] Hint Resolve g_opp_on g_add_on g_zmul_on : ec.

Lemma zmul_opp_pt (k : Z) (A : EC.pt pp) : on_curve A ->
  zmul k (eopp A) = eopp (zmul k A).
Proof.
  intros H. destruct k; simpl; [reflexivity | |];
    rewrite g_nmul_opp by assumption; reflexivity.
Qed.

Lemma zmul_neg_opp (k : Z) (A : EC.pt pp) : on_curve A ->
  zmul (- k) (eopp A) = zmul k A.
Proof.
  intros H. rewrite zmul_opp_pt by assumption.
  rewrite g_zmul_opp, g_opp_opp. reflexivity.
Qed.

Lemma double_and_add_of (k : positive) : forall Q B : EC.pt pp,
  on_curve Q -> on_curve B ->
  double_and_add k (of_pt c Q) (of_pt c B) = Ok (of_pt c (eadd Q (zmul (Zpos k) B))).
Proof.
  induction k as [k IH | k IH |]; intros Q B HQ HB; simpl double_and_add.
  - rewrite add_of, bind_ok, double_of, bind_ok by assumption.
    rewrite IH by auto with ec.
    do 2 f_equal.
    rewrite <- g_zmul_double, <- g_zmul_mul by assumption.
    rewrite g_add_assoc by auto with ec.
    f_equal.
    rewrite <- (g_zmul_1 B) at 1.
    rewrite <- g_zmul_add by assumption.
    f_equal. lia.
  - rewrite double_of, bind_ok by assumption.
    rewrite IH by auto with ec.
    do 3 f_equal.
    rewrite <- g_zmul_double, <- g_zmul_mul by assumption.
    f_equal. lia.
  - rewrite add_of, bind_ok, double_of, bind_ok by assumption.
    rewrite g_zmul_1. reflexivity.
Qed.

(** The recursive call is never more than one deep. *)
Lemma scalar_mult_unfold (k : Z) (P : Point) :
  scalar_mult k P = scalar_mult_body scalar_mult k P.
Proof.
  unfold scalar_mult at 1. unfold scalar_mult_body at 1 3.
  destruct (pymod k (n (curve P))) as [r |]; [| reflexivity]. rewrite !bind_ok.
  destruct ((r =? 0) || Pt.is_infinity P); [reflexivity |].
  destruct (Z.ltb_spec k 0) as [Hk | Hk]; [| reflexivity].
  destruct (Pt.neg P) as [nP |]; [| reflexivity]. rewrite !bind_ok.
  unfold scalar_mult, scalar_mult_body.
  destruct (pymod (- k) (n (curve nP))) as [r' |]; [| reflexivity]. rewrite !bind_ok.
  destruct ((r' =? 0) || Pt.is_infinity nP); [reflexivity |].
  destruct (Z.ltb_spec (- k) 0); [lia | reflexivity].
Qed.

Lemma eopp_O_iff (A : EC.pt pp) : eopp A = EC.O <-> A = EC.O.
Proof. destruct A; simpl; split; intros E; try discriminate; reflexivity. Qed.

(** [scalar_mult] on a valid point: infinity when [n] divides [k], the
    [k]-th multiple otherwise. *)
Lemma scalar_mult_of (k : Z) (A : EC.pt pp) : n c <> 0 -> on_curve A ->
  scalar_mult k (of_pt c A) =
  Ok (of_pt c (if k mod n c =? 0 then EC.O else zmul k A)).
Proof.
  intros Hn H.
  assert (POS : forall (q : positive) (B : EC.pt pp), on_curve B ->
            Zpos q mod n c <> 0 -> B <> EC.O ->
            scalar_mult_body (fun _ _ => Raise RecursionError) (Zpos q) (of_pt c B)
            = Ok (of_pt c (zmul (Zpos q) B))).
  { intros q B HB Hq HO. unfold scalar_mult_body.
    rewrite of_pt_curve, pymod_ok, bind_ok by assumption.
    destruct (Z.eqb_spec (Zpos q mod n c) 0); [contradiction |].
    rewrite of_pt_inf. destruct B as [| u v]; [contradiction |]. simpl orb. cbv iota.
    change (Zpos q <? 0) with false. cbv iota.
    change (Pt.infinity c) with (of_pt c EC.O).
    rewrite double_and_add_of by (auto; exact I). reflexivity. }
  unfold scalar_mult. unfold scalar_mult_body at 1.
  rewrite of_pt_curve, pymod_ok, bind_ok by assumption.
  destruct (Z.eqb_spec (k mod n c) 0) as [E | E]; [reflexivity |].
  rewrite of_pt_inf. destruct A as [| u v].
  { rewrite g_zmul_O. reflexivity. }
  simpl orb. cbv iota.
  destruct (Z.ltb_spec k 0) as [Hk | Hk].
  - rewrite neg_of, bind_ok by assumption.
    destruct k as [| q | q]; try lia.
    change (- Zneg q) with (Zpos q).
    rewrite POS.
    + rewrite <- (zmul_neg_opp (Zneg q)) by assumption. reflexivity.
    + apply g_opp_on; assumption.
    + intros Z0. apply E. 
      assert (D : (n c | Zpos q)) by (apply Z.mod_divide; assumption).
      apply Z.mod_divide; [assumption |].
      change (Zneg q) with (- Zpos q). apply Z.divide_opp_r. exact D.
    + simpl. discriminate.
  - destruct k as [| q | q]; try lia.
    + exfalso. apply E. apply Z.mod_0_l. assumption.
    + change (Pt.infinity c) with (of_pt c EC.O).
      rewrite double_and_add_of by (auto; exact I). reflexivity.
Qed.

Lemma G_of : on_curve (base_pt c) -> G c = Ok (of_pt c (base_pt c)).
Proof. intros H. unfold G. apply make_on. exact H. Qed.


(** ** The windowed NAF path *)

Lemma precompute_of (A : EC.pt pp) (HA : on_curve A) (cnt : nat) :
  forall (acc : list Point) (j : nat),
  length acc = S j ->
  (forall i, (i < S j)%nat ->
     nth_error acc i = Some (of_pt c (zmul (2 * Z.of_nat i + 1) A))) ->
  exists table,
    precompute cnt acc (of_pt c (zmul (2 * Z.of_nat j + 1) A)) (of_pt c (zmul 2 A))
      = Ok table /\
    length table = (S j + cnt)%nat /\
    (forall i, (i < S j + cnt)%nat ->
       nth_error table i = Some (of_pt c (zmul (2 * Z.of_nat i + 1) A))).
Proof.
  induction cnt as [| cnt IH]; intros acc j Hl Hn.
  - exists acc. simpl. rewrite !Nat.add_0_r. auto.
  - cbn [precompute]. rewrite add_of, bind_ok by auto with ec.
    rewrite <- g_zmul_add by assumption.
    replace (2 * Z.of_nat j + 1 + 2) with (2 * Z.of_nat (S j) + 1) by lia.
    destruct (IH (acc ++ [of_pt c (zmul (2 * Z.of_nat (S j) + 1) A)]) (S j))
      as (table & E & L & N).
    + rewrite length_app, Hl. simpl. lia.
    + intros i Hi. destruct (Nat.eq_dec i (S j)) as [-> | Ne].
      * rewrite nth_error_app2 by lia. rewrite Hl, Nat.sub_diag. reflexivity.
      * rewrite nth_error_app1 by lia. apply Hn. lia.
    + exists table. rewrite E. split; [reflexivity |].
      split; [lia |]. intros i Hi. apply N. lia.
Qed.

Lemma wnaf_accumulate_of (A : EC.pt pp) (HA : on_curve A) (w : Z) (table : list Point) :
  2 <= w ->
  (forall i, (i < Z.to_nat (2 ^ (w - 2)))%nat ->
     nth_error table i = Some (of_pt c (zmul (2 * Z.of_nat i + 1) A))) ->
  forall (ds : list Z) (Q : EC.pt pp),
  Forall (naf_digit_ok w) ds -> on_curve Q ->
  wnaf_accumulate ds table (of_pt c Q) =
  Ok (of_pt c (fold_left (fun R d => eadd (eadd R R) (zmul d A)) ds Q)).
Proof.
  intros Hw Ht. induction ds as [| d ds IH]; intros Q Hd HQ; [reflexivity |].
  inversion Hd as [| d' ds' Hd1 Hd2]; subst.
  cbn [wnaf_accumulate fold_left].
  rewrite double_of, bind_ok by assumption.
  assert (STEP :
    (if d =? 0 then Ok (of_pt c (eadd Q Q))
     else match nth_error table (Z.to_nat ((Z.abs d - 1) / 2)) with
          | Some addend =>
              t <- (if d >? 0 then Ok addend else Pt.neg addend) ;;
              Pt.add (of_pt c (eadd Q Q)) t
          | None => Raise IndexError
          end) = Ok (of_pt c (eadd (eadd Q Q) (zmul d A)))).
  { destruct (Z.eqb_spec d 0) as [E0 | N0].
    - subst d. cbn [EC.zmul]. rewrite g_add_O_r. reflexivity.
    - destruct Hd1 as [E0 | [Ho Hb]]; [contradiction |].
      assert (Ea : Z.abs d = 2 * ((Z.abs d - 1) / 2) + 1).
      { pose proof (proj1 (Z.odd_spec d) Ho) as [q Eq].
        Z.to_euclidean_division_equations. lia. }
      set (idx := (Z.abs d - 1) / 2) in *.
      assert (Hidx : 0 <= idx) by (apply Z.div_pos; lia).
      assert (Hlt : idx < 2 ^ (w - 2)).
      { replace (w - 1) with (Z.succ (w - 2)) in Hb by lia.
        rewrite Z.pow_succ_r in Hb by lia. lia. }
      rewrite Ht by lia. rewrite Z2Nat.id by lia. rewrite <- Ea.
      destruct (Z.gtb_spec d 0) as [Hp | Hp].
      + rewrite bind_ok. rewrite Z.abs_eq by lia.
        apply add_of; auto with ec.
      + rewrite neg_of, bind_ok by auto with ec.
        rewrite <- g_zmul_opp. rewrite Z.abs_neq by lia. rewrite Z.opp_involutive.
        apply add_of; auto with ec. }
  rewrite STEP, bind_ok. apply IH; auto with ec.
Qed.

Lemma naf_fold (A : EC.pt pp) (HA : on_curve A) (ds : list Z) :
  fold_left (fun R d => eadd (eadd R R) (zmul d A)) (rev ds) EC.O
  = zmul (naf_value ds) A.
Proof.
  induction ds as [| d ds IH]; [reflexivity |].
  cbn [rev]. rewrite fold_left_app. cbn [fold_left]. rewrite IH.
  cbn [naf_value fold_right]. fold (naf_value ds).
  rewrite <- g_zmul_double, <- g_zmul_mul by auto with ec.
  rewrite <- g_zmul_add by assumption. f_equal. lia.
Qed.

Lemma wnaf_positive_of (q : positive) (B : EC.pt pp) (w : Z)
    (self : Z -> Point -> Z -> result Point) :
  n c <> 0 -> 2 <= w -> on_curve B -> Zpos q mod n c <> 0 -> B <> EC.O ->
  wnaf_scalar_mult_body self (Zpos q) (of_pt c B) w = Ok (of_pt c (zmul (Zpos q) B)).
Proof.
  intros Hn Hw HB Hq HO. unfold wnaf_scalar_mult_body.
  rewrite of_pt_curve, pymod_ok, bind_ok by assumption.
  destruct (Z.eqb_spec (Zpos q mod n c) 0); [contradiction |].
  rewrite of_pt_inf. destruct B as [| u v]; [contradiction |]. simpl orb. cbv iota.
  change (Zpos q <? 0) with false. cbv iota.
  set (B := EC.Aff u v) in *.
  rewrite double_of, bind_ok by assumption.
  rewrite <- g_zmul_double by assumption.
  unfold shl1. destruct (Z.ltb_spec (w - 2) 0); [lia |]. rewrite bind_ok.
  rewrite Z.shiftl_1_l.
  pose proof (pow2_w2_pos w Hw) as P2.
  destruct (precompute_of B HB (Z.to_nat (2 ^ (w - 2) - 1)) [of_pt c B] 0)
    as (table & Et & Lt & Nt).
  { reflexivity. }
  { intros i Hi. assert (i = 0)%nat by lia. subst i. simpl nth_error.
    change (2 * Z.of_nat 0 + 1) with 1. rewrite g_zmul_1. reflexivity. }
  change (2 * Z.of_nat 0 + 1) with 1 in Et. rewrite g_zmul_1 in Et.
  rewrite Et, bind_ok.
  destruct (wnaf_digits_value w Hw (wnaf_fuel (Zpos q) w) (Zpos q)) as [Ev Hf].
  { split; [lia |]. apply wnaf_fuel_enough; [assumption | lia]. }
  change (Pt.infinity c) with (of_pt c EC.O).
  rewrite (wnaf_accumulate_of B HB w table Hw).
  - rewrite naf_fold by assumption. rewrite Ev. reflexivity.
  - intros i Hi. apply Nt. lia.
  - apply Forall_rev. exact Hf.
  - exact I.
Qed.

(** [wnaf_scalar_mult] on a valid point, for every width of at least 2 *)
Lemma wnaf_scalar_mult_of (k : Z) (A : EC.pt pp) (w : Z) :
  n c <> 0 -> 2 <= w -> on_curve A ->
  wnaf_scalar_mult k (of_pt c A) w =
  Ok (of_pt c (if k mod n c =? 0 then EC.O else zmul k A)).
Proof.
  intros Hn Hw H.
  unfold wnaf_scalar_mult.
  destruct (Z.eqb_spec (k mod n c) 0) as [E | E].
  { unfold wnaf_scalar_mult_body at 1.
    rewrite of_pt_curve, pymod_ok, bind_ok by assumption.
    rewrite E. reflexivity. }
  destruct A as [| u v].
  { unfold wnaf_scalar_mult_body at 1.
    rewrite of_pt_curve, pymod_ok, bind_ok by assumption.
    rewrite g_zmul_O. simpl Pt.is_infinity. rewrite orb_true_r. reflexivity. }
  destruct k as [| q | q].
  - exfalso. apply E. apply Z.mod_0_l. assumption.
  - apply wnaf_positive_of; auto. discriminate.
  - unfold wnaf_scalar_mult_body at 1.
    rewrite of_pt_curve, pymod_ok, bind_ok by assumption.
    destruct (Z.eqb_spec (Zneg q mod n c) 0); [contradiction |].
    simpl orb. cbv iota. change (Zneg q <? 0) with true. cbv iota.
    rewrite neg_of, bind_ok by assumption.
    change (- Zneg q) with (Zpos q).
    rewrite wnaf_positive_of; auto.
    + rewrite <- (zmul_neg_opp (Zneg q)) by assumption. reflexivity.
    + apply g_opp_on; assumption.
    + intros Z0. apply E.
      assert (D : (n c | Zpos q)) by (apply Z.mod_divide; assumption).
      apply Z.mod_divide; [assumption |].
      change (Zneg q) with (- Zpos q). apply Z.divide_opp_r. exact D.
    + discriminate.
Qed.

(** when [n] kills the point, the test [k % n == 0] changes nothing *)
Lemma scalar_mult_killed (k : Z) (A : EC.pt pp) : n c <> 0 -> on_curve A ->
  zmul (n c) A = EC.O ->
  scalar_mult k (of_pt c A) = Ok (of_pt c (zmul k A)).
Proof.
  intros Hn H Hk. rewrite scalar_mult_of by assumption.
  destruct (Z.eqb_spec (k mod n c) 0) as [E | E]; [| reflexivity].
  rewrite <- (g_zmul_mod (n c) k A) by assumption. rewrite E. reflexivity.
Qed.

Lemma to_pt_of_pt (A : EC.pt pp) : to_pt c (of_pt c A) = A.
Proof.
  destruct A as [| u v]; [reflexivity |]. unfold to_pt, of_pt. cbn [x y].
  rewrite !Zmod.of_Z_to_Z. reflexivity.
Qed.

End Bridge.


(** ** The congruence behind signature verification *)

Section ModArith.

Variable m : Z.

Add Ring ZmodRing : (Zmod.ring_theory m).

Local Abbreviation inj := (Zmod.of_Z m).

(** With [kinv * k = 1], [w * s = 1], [s0 = kinv * (e + r * d)] and
    [s = sigma * s0] for a sign [sigma], the verifier's combination
    [u1 + u2 * d] is [sigma * k], all modulo [m]. *)
Lemma ecdsa_congruence (k kinv e r d s0 s w sigma : Z) :
  1 < m ->
  (kinv * k) mod m = 1 ->
  (w * s) mod m = 1 ->
  s0 = (kinv * (e + r * d)) mod m ->
  s mod m = (sigma * s0) mod m ->
  sigma * sigma = 1 ->
  ((e * w) mod m + (r * w) mod m * d) mod m = (sigma * k) mod m.
Proof.
  intros Hm HK HW HS0 HS HSG.
  apply Zmod.of_Z_inj.
  assert (K1 : Zmod.mul (inj kinv) (inj k) = Zmod.one).
  { rewrite <- Zmod.of_Z_mul, <- Zmod.of_Z_1. apply Zmod.of_Z_inj.
    rewrite HK. symmetry. apply Z.mod_small. lia. }
  assert (W1 : Zmod.mul (inj w) (inj s) = Zmod.one).
  { rewrite <- Zmod.of_Z_mul, <- Zmod.of_Z_1. apply Zmod.of_Z_inj.
    rewrite HW. symmetry. apply Z.mod_small. lia. }
  assert (S0 : inj s0 = Zmod.mul (inj kinv) (Zmod.add (inj e) (Zmod.mul (inj r) (inj d)))).
  { rewrite HS0, Zmod.of_Z_mod, Zmod.of_Z_mul, Zmod.of_Z_add, Zmod.of_Z_mul. reflexivity. }
  assert (S1 : inj s = Zmod.mul (inj sigma) (inj s0)).
  { rewrite <- Zmod.of_Z_mul. apply Zmod.of_Z_inj. exact HS. }
  assert (SG : Zmod.mul (inj sigma) (inj sigma) = Zmod.one).
  { rewrite <- Zmod.of_Z_mul, HSG. apply Zmod.of_Z_1. }
  rewrite Zmod.of_Z_add, !Zmod.of_Z_mul, !Zmod.of_Z_mod, !Zmod.of_Z_mul.
  transitivity (Zmod.mul (Zmod.mul (Zmod.mul (inj sigma) (inj sigma))
                                   (Zmod.mul (inj kinv) (inj k)))
                         (Zmod.mul (inj w)
                            (Zmod.add (inj e) (Zmod.mul (inj r) (inj d))))).
  - rewrite SG, K1. ring.
  - transitivity (Zmod.mul (Zmod.mul (inj sigma) (inj k))
                           (Zmod.mul (inj w) (inj s))).
    + rewrite S1, S0. ring.
    + rewrite W1. ring.
Qed.

(** The inverse of [m - s] is the opposite of the inverse of [s]. *)
Lemma opposite_inverse (s w w' e : Z) :
  1 < m ->
  (w * s) mod m = 1 ->
  (w' * (m - s)) mod m = 1 ->
  (e * w') mod m = (- ((e * w) mod m)) mod m.
Proof.
  intros Hm HW HW'.
  apply Zmod.of_Z_inj.
  assert (W1 : Zmod.mul (inj w) (inj s) = Zmod.one).
  { rewrite <- Zmod.of_Z_mul, <- Zmod.of_Z_1. apply Zmod.of_Z_inj.
    rewrite HW. symmetry. apply Z.mod_small. lia. }
  assert (M0 : inj m = Zmod.zero).
  { rewrite <- Zmod.of_Z_0. apply Zmod.of_Z_inj. rewrite Z.mod_same, Z.mod_0_l by lia. reflexivity. }
  assert (W2 : Zmod.mul (inj w') (Zmod.opp (inj s)) = Zmod.one).
  { transitivity (Zmod.mul (inj w') (Zmod.sub (inj m) (inj s))); [rewrite M0; ring |].
    rewrite <- Zmod.of_Z_sub, <- Zmod.of_Z_mul, <- Zmod.of_Z_1. apply Zmod.of_Z_inj.
    rewrite HW'. symmetry. apply Z.mod_small. lia. }
  rewrite Zmod.of_Z_opp, Zmod.of_Z_mod, !Zmod.of_Z_mul.
  transitivity (Zmod.mul (Zmod.mul (inj e) (inj w')) (Zmod.mul (inj w) (inj s))).
  - rewrite W1. ring.
  - transitivity (Zmod.opp (Zmod.mul (Zmod.mul (inj e) (inj w))
                                     (Zmod.mul (inj w') (Zmod.opp (inj s))))).
    + ring.
    + rewrite W2. ring.
Qed.

End ModArith.


(** ** The nonce generator and the shape of a signature *)

Section Nonce.

Variable sha256 : bytes -> bytes.
Variable hmac_sha256 : bytes -> bytes -> bytes.

Lemma generate_T_mono (f : nat) : forall (f' : nat) K V T rolen out,
  generate_T hmac_sha256 f K V T rolen = Some out -> (f <= f')%nat ->
  generate_T hmac_sha256 f' K V T rolen = Some out.
Proof.
  induction f as [| f IH]; intros f' K V T rolen out E L.
  - destruct f'; simpl in *; destruct (Z.of_nat (List.length T) <? rolen);
      congruence.
  - destruct f' as [| f']; [lia |]. simpl in *.
    destruct (Z.of_nat (List.length T) <? rolen); [| exact E].
    apply IH; [exact E | lia].
Qed.

Lemma generate_k_loop_S (f : nat) K V qlen rolen m :
  generate_k_loop hmac_sha256 (S f) K V qlen rolen m =
  match generate_T hmac_sha256 (S f) K V [] rolen with
  | None => None
  | Some (V1, T) =>
      match bits2int T qlen m with
      | Raise e => Some (Raise e)
      | Ok k =>
          if (1 <=? k) && (k <? m) then Some (Ok k)
          else generate_k_loop hmac_sha256 f
                 (hmac_sha256 K (V1 ++ [x00]))
                 (hmac_sha256 (hmac_sha256 K (V1 ++ [x00])) V1) qlen rolen m
      end
  end.
Proof. reflexivity. Qed.

Lemma generate_k_loop_mono (f : nat) : forall (f' : nat) K V qlen rolen m out,
  generate_k_loop hmac_sha256 f K V qlen rolen m = Some out -> (f <= f')%nat ->
  generate_k_loop hmac_sha256 f' K V qlen rolen m = Some out.
Proof.
  induction f as [| f IH]; intros f' K V qlen rolen m out E L; [discriminate |].
  destruct f' as [| f']; [lia |].
  rewrite generate_k_loop_S in *.
  destruct (generate_T hmac_sha256 (S f) K V [] rolen) as [[V1 T] |] eqn:ET;
    [| discriminate].
  rewrite (generate_T_mono _ (S f') _ _ _ _ _ ET) by lia.
  destruct (bits2int T qlen m) as [k | e]; [| exact E].
  destruct ((1 <=? k) && (k <? m)); [exact E |].
  apply IH; [exact E | lia].
Qed.

(** a returned nonce passed the test [1 <= k < n] *)
Lemma generate_k_loop_range (f : nat) : forall K V qlen rolen m k,
  generate_k_loop hmac_sha256 f K V qlen rolen m = Some (Ok k) -> 1 <= k < m.
Proof.
  induction f as [| f IH]; intros K V qlen rolen m k E; [discriminate |].
  rewrite generate_k_loop_S in E.
  destruct (generate_T hmac_sha256 (S f) K V [] rolen) as [[V1 T] |]; [| discriminate].
  destruct (bits2int T qlen m) as [k0 | e]; [| discriminate].
  destruct (Z.leb_spec 1 k0); destruct (Z.ltb_spec k0 m); simpl in E;
    try (injection E as <-; lia); eapply IH; exact E.
Qed.

Lemma rfc6979_range (fuel : nat) (priv : Z) (h1 : bytes) (m k : Z) :
  rfc6979_generate_k hmac_sha256 fuel priv h1 m = Some (Ok k) -> 1 <= k < m.
Proof.
  unfold rfc6979_generate_k. intros E.
  destruct (int2octets priv _); [| discriminate].
  destruct (bits2octets h1 m); [| discriminate].
  eapply generate_k_loop_range; exact E.
Qed.

Lemma rfc6979_mono (f f' : nat) (priv : Z) (h1 : bytes) (m : Z) out :
  rfc6979_generate_k hmac_sha256 f priv h1 m = Some out -> (f <= f')%nat ->
  rfc6979_generate_k hmac_sha256 f' priv h1 m = Some out.
Proof.
  unfold rfc6979_generate_k. intros E L.
  destruct (int2octets priv _); [| exact E].
  destruct (bits2octets h1 m); [| exact E].
  eapply generate_k_loop_mono; [exact E | exact L].
Qed.

Lemma rfc6979_det (f f' : nat) (priv : Z) (h1 : bytes) (m : Z) out out' :
  rfc6979_generate_k hmac_sha256 f priv h1 m = Some out ->
  rfc6979_generate_k hmac_sha256 f' priv h1 m = Some out' -> out = out'.
Proof.
  intros E E'.
  apply (rfc6979_mono f (Nat.max f f')) in E; [| lia].
  apply (rfc6979_mono f' (Nat.max f f')) in E'; [| lia]. congruence.
Qed.

Lemma sign_mono (f f' : nat) (priv : Z) (msg : bytes) (c : Curve) out :
  sign sha256 hmac_sha256 f priv msg c = Some out -> (f <= f')%nat ->
  sign sha256 hmac_sha256 f' priv msg c = Some out.
Proof.
  unfold sign. intros E L.
  destruct (rfc6979_generate_k hmac_sha256 f priv (sha256 msg) (n c)) as [o |] eqn:EK;
    [| discriminate].
  rewrite (rfc6979_mono _ f' _ _ _ _ EK L). exact E.
Qed.

Lemma sign_det (f f' : nat) (priv : Z) (msg : bytes) (c : Curve) out out' :
  sign sha256 hmac_sha256 f priv msg c = Some out ->
  sign sha256 hmac_sha256 f' priv msg c = Some out' -> out = out'.
Proof.
  intros E E'.
  apply (sign_mono f (Nat.max f f')) in E; [| lia].
  apply (sign_mono f' (Nat.max f f')) in E'; [| lia]. congruence.
Qed.

(** What a returned signature is made of. *)
Lemma sign_inv (fuel : nat) (priv : Z) (msg : bytes) (c : Curve) (r s : Z) :
  sign sha256 hmac_sha256 fuel priv msg c = Some (Ok (r, s)) ->
  exists k g R xR kinv s0,
    rfc6979_generate_k hmac_sha256 fuel priv (sha256 msg) (n c) = Some (Ok k) /\
    1 <= k < n c /\
    G c = Ok g /\ scalar_mult k g = Ok R /\ x R = Some xR /\
    r = xR mod n c /\ r <> 0 /\
    pypow k (-1) (n c) = Ok kinv /\
    s0 = (kinv * (int_from_bytes (sha256 msg) mod n c + r * priv)) mod n c /\
    s0 <> 0 /\
    s = (if s0 >? n c / 2 then n c - s0 else s0).
Proof.
  unfold sign. intros E.
  destruct (rfc6979_generate_k hmac_sha256 fuel priv (sha256 msg) (n c))
    as [[k | e] |] eqn:EK; try discriminate.
  pose proof (rfc6979_range _ _ _ _ _ EK) as Hk.
  assert (Hn : n c <> 0) by lia.
  injection E as E.
  destruct (G c) as [g | e]; [| discriminate]. rewrite bind_ok in E.
  destruct (scalar_mult k g) as [R | e] eqn:ER; [| discriminate]. rewrite bind_ok in E.
  destruct (x R) as [xR |] eqn:EX; [| discriminate].
  rewrite pymod_ok, bind_ok in E by assumption.
  destruct (Z.eqb_spec (xR mod n c) 0) as [Z0 | NZ]; [discriminate |].
  destruct (pypow k (-1) (n c)) as [kinv | e] eqn:EI; [| discriminate].
  rewrite bind_ok, pymod_ok, bind_ok, pymod_ok, bind_ok in E by assumption.
  destruct (Z.eqb_spec
              ((kinv * (int_from_bytes (sha256 msg) mod n c + xR mod n c * priv)) mod n c) 0)
    as [Z1 | NZ1]; [discriminate |].
  injection E as <- <-.
  exists k, g, R, xR, kinv,
    ((kinv * (int_from_bytes (sha256 msg) mod n c + xR mod n c * priv)) mod n c).
  repeat split; try assumption; try reflexivity; lia.
Qed.

(** the range and the low-S form of a returned signature *)
Lemma sign_range (fuel : nat) (priv : Z) (msg : bytes) (c : Curve) (r s : Z) :
  sign sha256 hmac_sha256 fuel priv msg c = Some (Ok (r, s)) ->
  1 <= r < n c /\ 1 <= s < n c /\ s <= n c / 2.
Proof.
  intros E. apply sign_inv in E.
  destruct E as (k & g & R & xR & kinv & s0 & _ & Hk & _ & _ & _ & Hr & Hr0 & _ & Hs0 & Hs00 & Hs).
  assert (Hn : 0 < n c) by lia.
  pose proof (Z.mod_pos_bound xR (n c) Hn).
  pose proof (Z.mod_pos_bound (kinv * (int_from_bytes (sha256 msg) mod n c + r * priv)) (n c) Hn).
  split; [lia |].
  pose proof (Z.div_mod (n c) 2 ltac:(lia)).
  pose proof (Z.mod_pos_bound (n c) 2 ltac:(lia)).
  destruct (Z.gtb_spec s0 (n c / 2)); subst s; lia.
Qed.

End Nonce.


(** ** Verification on a valid curve whose [n] is prime *)

Section Verify.

Variable sha256 : bytes -> bytes.
Variable c : Curve.
Hypothesis Hc : valid_curve c.
Hypothesis Hn : Z.prime (n c).
Hypothesis HG : EC.on_curve (p c) (curve_A c) (curve_B c) (base_pt c).

Local Abbreviation on_curve := (EC.on_curve (p c) (curve_A c) (curve_B c)).
Local Abbreviation eadd := (EC.add (p c) (curve_A c)).
Local Abbreviation zmul := (EC.zmul (p c) (curve_A c)).
Local Abbreviation Gm := (base_pt c).
Local Abbreviation nn := (n c).

Local Abbreviation mult_pt := (mult_pt c).

Lemma mult_pt_on (k : Z) (A : EC.pt (p c)) : on_curve A -> on_curve (mult_pt k A).
Proof.
  intros H. unfold mult_pt. destruct (k mod nn =? 0); [exact I |].
  apply g_zmul_on; assumption.
Qed.

Lemma verify_of (A : EC.pt (p c)) (msg : bytes) (r s : Z) : on_curve A ->
  1 <= r < nn -> 1 <= s < nn ->
  exists w, pypow s (-1) nn = Ok w /\ (w * s) mod nn = 1 /\
    verify sha256 (of_pt c A) msg (r, s) =
    Ok (match eadd (mult_pt ((int_from_bytes (sha256 msg) mod nn * w) mod nn) Gm)
                   (mult_pt ((r * w) mod nn) A) with
        | EC.O => false
        | EC.Aff u _ => Zmod.to_Z u mod nn =? r
        end).
Proof.
  intros HA Hr Hs. pose proof (Z.prime_ge_2 _ Hn) as H2.
  assert (N0 : nn <> 0) by lia.
  destruct (pypow_inv s nn Hn) as (w & Ew & _ & Hw).
  { rewrite Z.mod_small; lia. }
  exists w. split; [exact Ew |]. split; [exact Hw |].
  unfold verify. rewrite of_pt_curve.
  destruct (Z.leb_spec 1 r); [| lia]. destruct (Z.ltb_spec r nn); [| lia].
  destruct (Z.leb_spec 1 s); [| lia]. destruct (Z.ltb_spec s nn); [| lia].
  simpl negb. cbv iota.
  rewrite pymod_ok, bind_ok, Ew, bind_ok, pymod_ok, bind_ok, pymod_ok, bind_ok by assumption.
  rewrite (G_of c Hc HG), bind_ok.
  rewrite (scalar_mult_of c Hc), bind_ok by assumption.
  rewrite (scalar_mult_of c Hc), bind_ok by assumption.
  change (if ?k mod nn =? 0 then EC.O else zmul ?k ?B) with (mult_pt k B).
  rewrite (add_of c Hc), bind_ok by (apply mult_pt_on; assumption).
  destruct (eadd _ _) as [| u v]; [reflexivity |].
  unfold of_pt, Pt.is_infinity. cbn [x y].
  rewrite pymod_ok, bind_ok by assumption. reflexivity.
Qed.

Lemma verify_out_of_range (pub : Point) (msg : bytes) (r s : Z) :
  ~ (1 <= r < n (curve pub) /\ 1 <= s < n (curve pub)) ->
  verify sha256 pub msg (r, s) = Ok false.
Proof.
  intros H. unfold verify.
  destruct (Z.leb_spec 1 r); destruct (Z.ltb_spec r (n (curve pub)));
    destruct (Z.leb_spec 1 s); destruct (Z.ltb_spec s (n (curve pub)));
    try reflexivity.
  exfalso. apply H. lia.
Qed.

(** acceptance, read off the code's own intermediate values *)
Lemma verify_true_inv (pub : Point) (msg : bytes) (r s : Z) :
  verify sha256 pub msg (r, s) = Ok true ->
  (1 <= r < n (curve pub) /\ 1 <= s < n (curve pub)) /\
  exists w g P1 P2 P xP,
    pypow s (-1) (n (curve pub)) = Ok w /\
    G (curve pub) = Ok g /\
    scalar_mult ((int_from_bytes (sha256 msg) mod n (curve pub) * w) mod n (curve pub)) g = Ok P1 /\
    scalar_mult ((r * w) mod n (curve pub)) pub = Ok P2 /\
    Pt.add P1 P2 = Ok P /\
    Pt.is_infinity P = false /\ x P = Some xP /\ xP mod n (curve pub) = r.
Proof.
  intros E.
  destruct (Z.leb_spec 1 r) as [R1 | R1]; [| rewrite verify_out_of_range in E by lia; discriminate].
  destruct (Z.ltb_spec r (n (curve pub))) as [R2 | R2];
    [| rewrite verify_out_of_range in E by lia; discriminate].
  destruct (Z.leb_spec 1 s) as [S1 | S1]; [| rewrite verify_out_of_range in E by lia; discriminate].
  destruct (Z.ltb_spec s (n (curve pub))) as [S2 | S2];
    [| rewrite verify_out_of_range in E by lia; discriminate].
  split; [lia |].
  assert (N0 : n (curve pub) <> 0) by lia.
  unfold verify in E.
  destruct (Z.leb_spec 1 r); [| lia]. destruct (Z.ltb_spec r (n (curve pub))); [| lia].
  destruct (Z.leb_spec 1 s); [| lia]. destruct (Z.ltb_spec s (n (curve pub))); [| lia].
  simpl negb in E. cbv iota in E.
  rewrite pymod_ok, bind_ok in E by assumption.
  destruct (pypow s (-1) (n (curve pub))) as [w | e] eqn:Ew; [| discriminate].
  rewrite bind_ok, pymod_ok, bind_ok, pymod_ok, bind_ok in E by assumption.
  destruct (G (curve pub)) as [g | e] eqn:Eg; [| discriminate]. rewrite bind_ok in E.
  destruct (scalar_mult _ g) as [P1 | e] eqn:E1; [| discriminate]. rewrite bind_ok in E.
  destruct (scalar_mult _ pub) as [P2 | e] eqn:E2; [| discriminate]. rewrite bind_ok in E.
  destruct (Pt.add P1 P2) as [P | e] eqn:E3; [| discriminate]. rewrite bind_ok in E.
  destruct (Pt.is_infinity P) eqn:EI; [discriminate |].
  destruct (x P) as [xP |] eqn:EX; [| discriminate].
  rewrite pymod_ok, bind_ok in E by assumption. injection E as E.
  apply Z.eqb_eq in E.
  exists w, g, P1, P2, P, xP. repeat split; assumption.
Qed.

(** [verify] returns on every valid public point and every integer pair. *)
Lemma verify_total (A : EC.pt (p c)) (msg : bytes) (r s : Z) : on_curve A ->
  exists b, verify sha256 (of_pt c A) msg (r, s) = Ok b.
Proof.
  intros HA.
  destruct (Z.leb_spec 1 r); [| eexists; apply verify_out_of_range; lia].
  destruct (Z.ltb_spec r (n (curve (of_pt c A))));
    [| eexists; apply verify_out_of_range; lia].
  destruct (Z.leb_spec 1 s); [| eexists; apply verify_out_of_range; lia].
  destruct (Z.ltb_spec s (n (curve (of_pt c A))));
    [| eexists; apply verify_out_of_range; lia].
  rewrite of_pt_curve in *.
  destruct (verify_of A msg r s HA) as (w & _ & _ & E); [lia | lia |].
  eexists. exact E.
Qed.

(** With the point at infinity as public key the test is on [u1 * G]
    alone; [r] the abscissa of [G] and [s] the digest pass it. *)
Lemma verify_infinity (msg : bytes) :
  (Gx c mod p c) mod nn <> 0 -> int_from_bytes (sha256 msg) mod nn <> 0 ->
  verify sha256 (Pt.infinity c) msg
    ((Gx c mod p c) mod nn, int_from_bytes (sha256 msg) mod nn) = Ok true.
Proof.
  intros Hr He. pose proof (Z.prime_ge_2 _ Hn) as H2.
  pose proof (Z.mod_pos_bound (Gx c mod p c) nn ltac:(lia)).
  pose proof (Z.mod_pos_bound (int_from_bytes (sha256 msg)) nn ltac:(lia)).
  change (Pt.infinity c) with (of_pt c EC.O).
  destruct (verify_of EC.O msg ((Gx c mod p c) mod nn) (int_from_bytes (sha256 msg) mod nn))
    as (w & _ & Hw & E); [exact I | lia | lia |].
  rewrite E. f_equal.
  rewrite (Z.mul_comm _ w), Hw.
  unfold mult_pt. rewrite (Z.mod_small 1) by lia. simpl (1 =? 0).
  rewrite g_zmul_1 by exact Hc.
  assert (EO : (if ((Gx c mod p c) mod nn * w) mod nn mod nn =? 0 then EC.O
                else zmul (((Gx c mod p c) mod nn * w) mod nn) EC.O) = @EC.O (p c)).
  { destruct (_ =? 0); [reflexivity |]. apply g_zmul_O; try exact Hc. }
  rewrite EO. rewrite g_add_O_r by exact Hc. unfold base_pt.
  rewrite Zmod.to_Z_of_Z. apply Z.eqb_refl.
Qed.

End Verify.


(** ** Bytes and bit lengths *)

Lemma bit_length_nonneg (v : Z) : 0 <= bit_length v.
Proof.
  destruct v as [| q | q]; unfold bit_length; [lia | |];
    pose proof (Z.log2_nonneg (Zpos q)); lia.
Qed.

Lemma bit_length_bound (v : Z) : 0 <= v -> v < 2 ^ bit_length v.
Proof.
  intros H. destruct v as [| q | q]; [simpl; lia | | lia].
  unfold bit_length. rewrite Z.add_1_r. apply Z.log2_spec. lia.
Qed.

Lemma bytes_fit (v : Z) : 0 <= v -> v < 256 ^ ((bit_length v + 7) / 8).
Proof.
  intros H. pose proof (bit_length_nonneg v) as Hb.
  pose proof (bit_length_bound v H) as Hv.
  change 256 with (2 ^ 8). rewrite <- Z.pow_mul_r by (try apply Z.div_pos; lia).
  eapply Z.lt_le_trans; [exact Hv |].
  apply Z.pow_le_mono_r; [lia |].
  pose proof (Z.div_mod (bit_length v + 7) 8 ltac:(lia)).
  pose proof (Z.mod_pos_bound (bit_length v + 7) 8 ltac:(lia)). lia.
Qed.

Lemma int_to_bytes_fit (v : Z) : 0 <= v ->
  returns (int_to_bytes v ((bit_length v + 7) / 8)).
Proof.
  intros H. unfold int_to_bytes.
  assert (0 <= (bit_length v + 7) / 8).
  { apply Z.div_pos; [| lia]. pose proof (bit_length_nonneg v). lia. }
  destruct (Z.ltb_spec ((bit_length v + 7) / 8) 0); [lia |].
  destruct (Z.ltb_spec v 0); [lia |].
  pose proof (bytes_fit v H).
  destruct (Z.leb_spec (256 ^ ((bit_length v + 7) / 8)) v); [lia |].
  eexists. reflexivity.
Qed.

(** ** ECDSA and ECDH on a valid curve with a base point of prime order *)

Section Protocol.

Variable sha256 : bytes -> bytes.
Variable hmac_sha256 : bytes -> bytes -> bytes.
Variable c : Curve.
Hypothesis Hc : valid_curve c.
Hypothesis Hb : valid_base c.

Local Abbreviation on_curve := (EC.on_curve (p c) (curve_A c) (curve_B c)).
Local Abbreviation eadd := (EC.add (p c) (curve_A c)).
Local Abbreviation eopp := (EC.opp (p c)).
Local Abbreviation zmul := (EC.zmul (p c) (curve_A c)).
Local Abbreviation Gm := (base_pt c).
Local Abbreviation nn := (n c).

Lemma n_ge_2 : 2 <= nn.
Proof. apply Z.prime_ge_2. apply (vb_prime c Hb). Qed.

Lemma n_nz : nn <> 0.
Proof. pose proof n_ge_2. lia. Qed.

Lemma G_on : on_curve Gm.
Proof. apply (vb_on c Hb). Qed.

Lemma G_ok : G c = Ok (of_pt c Gm).
Proof. apply G_of; [exact Hc | exact G_on]. Qed.

(** every multiple of a point that [n] kills *)
Lemma mult_ok (k : Z) (A : EC.pt (p c)) : on_curve A -> zmul nn A = EC.O ->
  scalar_mult k (of_pt c A) = Ok (of_pt c (zmul k A)).
Proof. intros H K. apply scalar_mult_killed; auto using n_nz. Qed.

Lemma mult_G (k : Z) : scalar_mult k (of_pt c Gm) = Ok (of_pt c (zmul k Gm)).
Proof. apply mult_ok; [exact G_on | apply (vb_order c Hb)]. Qed.

Lemma zmul_G_on (k : Z) : on_curve (zmul k Gm).
Proof. apply g_zmul_on; [exact Hc | exact G_on]. Qed.

Lemma zmul_G_killed (k : Z) : zmul nn (zmul k Gm) = EC.O.
Proof.
  rewrite <- g_zmul_mul by (exact Hc || exact G_on).
  rewrite Z.mul_comm, g_zmul_mul by (exact Hc || exact G_on).
  rewrite (vb_order c Hb). apply g_zmul_O; try exact Hc.
Qed.

Lemma zmul_G_nz (k : Z) : k mod nn <> 0 -> zmul k Gm <> EC.O.
Proof.
  intros Hk E.
  assert (Gm = EC.O).
  { apply (g_zmul_prime_order c Hc nn k).
    - exact G_on.
    - apply (vb_prime c Hb).
    - apply (vb_order c Hb).
    - exact E.
    - exact Hk. }
  discriminate.
Qed.

Lemma zmul_G_mod (k : Z) : zmul (k mod nn) Gm = zmul k Gm.
Proof. apply g_zmul_mod; [exact Hc | exact G_on | apply (vb_order c Hb)]. Qed.

Lemma zmul_G_congr (j k : Z) : j mod nn = k mod nn -> zmul j Gm = zmul k Gm.
Proof. intros E. rewrite <- (zmul_G_mod j), <- (zmul_G_mod k), E. reflexivity. Qed.

(** *** ECDH *)

Lemma ecdh_of (d k : Z) : 1 <= d < nn -> (d * k) mod nn <> 0 ->
  exists secret, ecdh_shared_secret sha256 d (of_pt c (zmul k Gm)) = Ok secret /\
    forall u v, zmul (d * k) Gm = EC.Aff u v ->
      exists xb, int_to_bytes (Zmod.to_Z u) ((bit_length (Zmod.to_Z u) + 7) / 8) = Ok xb /\
                 secret = sha256 xb.
Proof.
  intros Hd Hk. unfold ecdh_shared_secret.
  rewrite of_pt_curve.
  destruct (Z.leb_spec 1 d); [| lia]. destruct (Z.ltb_spec d nn); [| lia].
  simpl negb. cbv iota.
  rewrite mult_ok, bind_ok by (apply zmul_G_on || apply zmul_G_killed).
  rewrite <- g_zmul_mul by (exact Hc || exact G_on).
  pose proof (zmul_G_nz _ Hk) as NZ.
  destruct (zmul (d * k) Gm) as [| u v] eqn:E; [contradiction |].
  unfold of_pt. unfold Pt.is_infinity. cbn [x y].
  destruct (int_to_bytes_fit (Zmod.to_Z u)) as [xb Hxb].
  { pose proof (to_Z_range c Hc u). lia. }
  rewrite Hxb, bind_ok. eexists. split; [reflexivity |].
  intros u' v' E'. injection E' as <- <-. exists xb. split; [exact Hxb | reflexivity].
Qed.

Lemma mul_mod_nz (j k : Z) : 1 <= j < nn -> 1 <= k < nn -> (j * k) mod nn <> 0.
Proof.
  intros Hj Hk E. apply Z.mod_divide in E; [| apply n_nz].
  apply Z.divide_prime_mul in E; [| apply (vb_prime c Hb)].
  destruct E as [D | D]; apply Z.divide_pos_le in D; lia.
Qed.

Lemma ecdh_agree (dA dB : Z) (g QA QB : Point) :
  1 <= dA < nn -> 1 <= dB < nn ->
  G c = Ok g -> scalar_mult dA g = Ok QA -> scalar_mult dB g = Ok QB ->
  exists secret, ecdh_shared_secret sha256 dA QB = Ok secret /\
                 ecdh_shared_secret sha256 dB QA = Ok secret.
Proof.
  intros HA HB Eg EA EB. rewrite G_ok in Eg. injection Eg as <-.
  rewrite mult_G in EA, EB. injection EA as <-. injection EB as <-.
  destruct (ecdh_of dA dB HA (mul_mod_nz _ _ HA HB)) as (s1 & E1 & C1).
  destruct (ecdh_of dB dA HB (mul_mod_nz _ _ HB HA)) as (s2 & E2 & C2).
  exists s1. split; [exact E1 |]. rewrite E2. f_equal.
  pose proof (zmul_G_nz _ (mul_mod_nz _ _ HA HB)) as NZ.
  destruct (zmul (dA * dB) Gm) as [| u v] eqn:E; [contradiction |].
  destruct (C1 u v eq_refl) as (xb1 & X1 & ->).
  rewrite Z.mul_comm in E.
  destruct (C2 u v E) as (xb2 & X2 & ->).
  rewrite X1 in X2. injection X2 as <-. reflexivity.
Qed.


(** *** ECDSA *)

Lemma mult_pt_G (j : Z) : mult_pt c j Gm = zmul j Gm.
Proof.
  unfold mult_pt. destruct (Z.eqb_spec (j mod nn) 0) as [E | E]; [| reflexivity].
  rewrite <- (zmul_G_mod j), E. reflexivity.
Qed.

Lemma mult_pt_pub (j d : Z) : mult_pt c j (zmul d Gm) = zmul (j * d) Gm.
Proof.
  unfold mult_pt. rewrite <- g_zmul_mul by (exact Hc || exact G_on).
  destruct (Z.eqb_spec (j mod nn) 0) as [E | E]; [| reflexivity].
  rewrite <- (zmul_G_mod (j * d)), <- Zmult_mod_idemp_l, E, Z.mul_0_l, Z.mod_0_l by apply n_nz.
  reflexivity.
Qed.

(** A signature that [sign] returns verifies under the signer's public
    key. *)
Lemma sign_verify (fuel : nat) (priv : Z) (msg : bytes) (g pub : Point) (sig : Z * Z) :
  1 <= priv < nn -> G c = Ok g -> scalar_mult priv g = Ok pub ->
  sign sha256 hmac_sha256 fuel priv msg c = Some (Ok sig) ->
  verify sha256 pub msg sig = Ok true.
Proof.
  intros Hd Eg Ep Es. destruct sig as [r s].
  rewrite G_ok in Eg. injection Eg as <-.
  rewrite mult_G in Ep. injection Ep as <-.
  apply sign_inv in Es.
  destruct Es as (k & g & R & xR & kinv & s0 & _ & Hk & Eg & ER & EX & Hr & Hr0 & Ei
                  & Hs0 & Hs00 & Hs).
  rewrite G_ok in Eg. injection Eg as <-.
  rewrite mult_G in ER. injection ER as <-.
  pose proof n_ge_2 as H2.
  assert (NZ : zmul k Gm <> EC.O) by (apply zmul_G_nz; rewrite Z.mod_small; lia).
  destruct (zmul k Gm) as [| u v] eqn:EK; [contradiction |].
  unfold of_pt in EX. cbn [x] in EX. injection EX as <-.
  destruct (pypow_inv k nn (vb_prime c Hb)) as (ki & Eki & _ & Hki).
  { rewrite Z.mod_small; lia. }
  rewrite Ei in Eki. injection Eki as <-.
  assert (Rr : 1 <= r < nn).
  { pose proof (Z.mod_pos_bound (Zmod.to_Z u) nn ltac:(lia)). lia. }
  assert (Rs0 : 1 <= s0 < nn).
  { pose proof (Z.mod_pos_bound
                  (kinv * (int_from_bytes (sha256 msg) mod nn + r * priv)) nn ltac:(lia)).
    lia. }
  assert (Rs : 1 <= s < nn) by (destruct (s0 >? nn / 2); lia).
  destruct (verify_of sha256 c Hc (vb_prime c Hb) G_on (zmul priv Gm) msg r s)
    as (w & Ew & Hw & E); [apply zmul_G_on | exact Rr | exact Rs |].
  rewrite E. f_equal. clear E.
  rewrite mult_pt_G, mult_pt_pub.
  rewrite <- g_zmul_add by (exact Hc || exact G_on).
  assert (C : exists sigma, (sigma = 1 \/ sigma = -1) /\ s mod nn = (sigma * s0) mod nn).
  { destruct (s0 >? nn / 2).
    - exists (-1). split; [right; reflexivity |]. subst s.
      replace (nn - s0) with (-1 * s0 + 1 * nn) by ring. apply Z.mod_add. lia.
    - exists 1. split; [left; reflexivity |]. subst s. f_equal. ring. }
  destruct C as (sigma & Hsig & Hcong).
  rewrite (zmul_G_congr _ (sigma * k)).
  - destruct Hsig as [-> | ->].
    + rewrite Z.mul_1_l, EK. rewrite <- Hr. apply Z.eqb_refl.
    + replace (-1 * k) with (- k) by ring.
      rewrite g_zmul_opp by exact Hc. rewrite EK. simpl.
      rewrite <- Hr. apply Z.eqb_refl.
  - apply (ecdsa_congruence nn k kinv _ r priv s0 s w sigma); try assumption; lia.
Qed.

End Protocol.


(** ** The small curves *)

Lemma prime_check_sound (q : Z) : prime_check q = true -> Z.prime q.
Proof.
  unfold prime_check. intros H. apply andb_true_iff in H. destruct H as [H1 H2].
  apply Z.ltb_lt in H1. split; [exact H1 |].
  intros d Hd D. rewrite forallb_forall in H2.
  specialize (H2 d).
  assert (I : In d (map Z.of_nat (seq 2 (Z.to_nat q - 2)))).
  { apply in_map_iff. exists (Z.to_nat d). split; [lia |]. apply in_seq. lia. }
  apply H2 in I. apply negb_true_iff in I. apply Z.eqb_neq in I.
  apply I. apply Z.mod_divide; [lia | exact D].
Qed.

Lemma TOY17_valid : valid_curve TOY17.
Proof.
  split.
  - apply prime_check_sound. vm_compute. reflexivity.
  - discriminate.
  - discriminate.
Qed.

Lemma TOY17_base : valid_base TOY17.
Proof.
  split.
  - vm_compute. reflexivity.
  - apply prime_check_sound. vm_compute. reflexivity.
  - vm_compute. reflexivity.
Qed.



Lemma COMPOSITE14_valid : valid_curve COMPOSITE14.
Proof.
  split.
  - apply prime_check_sound. vm_compute. reflexivity.
  - discriminate.
  - discriminate.
Qed.

(** a concrete point against [valid_point], by evaluation *)
Ltac valid_point_eval := split; [reflexivity | simpl; repeat split; try lia].


(** ** From the code's own checks to the group *)

Lemma odd_modulus (c : Curve) : valid_curve c -> Z.odd (p c) = true.
Proof.
  intros Hc. pose proof (vc_prime c Hc) as Hp. pose proof (vc_odd c Hc) as H2.
  destruct (Z.odd (p c)) eqn:E; [reflexivity |]. exfalso.
  assert (Ev : Z.even (p c) = true) by (rewrite <- Z.negb_odd, E; reflexivity).
  apply Z.even_spec in Ev. destruct Ev as [q Hq].
  pose proof (Z.prime_ge_2 _ Hp) as G2.
  destruct Hp as [_ Hp]. apply (Hp 2); [lia |]. exists q. lia.
Qed.

(** [G(curve)] returns exactly when the base point is on the curve. *)
Lemma G_returns_on (c : Curve) : valid_curve c -> returns (G c) ->
  EC.on_curve (p c) (curve_A c) (curve_B c) (base_pt c).
Proof.
  intros Hc [g Eg]. unfold base_pt.
  destruct (Zmod.eqb_spec
              (Zmod.mul (Zmod.of_Z (p c) (Gy c)) (Zmod.of_Z (p c) (Gy c)))
              (Zmod.add (Zmod.add
                 (Zmod.mul (Zmod.mul (Zmod.of_Z (p c) (Gx c)) (Zmod.of_Z (p c) (Gx c)))
                           (Zmod.of_Z (p c) (Gx c)))
                 (Zmod.mul (curve_A c) (Zmod.of_Z (p c) (Gx c)))) (curve_B c)))
    as [E | N]; [exact E |].
  unfold G in Eg. rewrite (make_off c Hc) in Eg; [discriminate | exact N].
Qed.

Lemma valid_point_curve (c : Curve) (P : Point) : valid_point c P -> curve P = c.
Proof. intros [E _]. exact E. Qed.

(** * The claims *)

(** C1 (counterexample): modulo 9, which is not a prime, on
    y^2 = x^3 + 4x with n = 7, the valid point (2, 4) and k = 5: the
    double-and-add path returns (2, 4), the windowed-NAF path returns
    (5, 1).  And over GF(2), on y^2 = x^3 with n = 3, the valid point (1, 1)
    and k = 1: neither path returns a point, both raise
    [ZeroDivisionError]. *)
Lemma C1_counterexample :
  (Pt.make MOD9 (Some 2) (Some 4) = Ok (affine MOD9 2 4) /\
   valid_point MOD9 (affine MOD9 2 4) /\
   scalar_mult 5 (affine MOD9 2 4) = Ok (affine MOD9 2 4) /\
   wnaf_scalar_mult 5 (affine MOD9 2 4) default_w = Ok (affine MOD9 5 1)) /\
  (valid_point CHAR2 (affine CHAR2 1 1) /\
   scalar_mult 1 (affine CHAR2 1 1) = Raise ZeroDivisionError /\
   wnaf_scalar_mult 1 (affine CHAR2 1 1) default_w = Raise ZeroDivisionError).
Proof.
  split.
  - split; [vm_compute; reflexivity |]. split; [valid_point_eval |].
    split; vm_compute; reflexivity.
  - split; [valid_point_eval |]. split; vm_compute; reflexivity.
Qed.

(** C1 (amended): on a curve with valid parameters (odd prime modulus,
    nonsingular cubic), for every integer scalar [k] and every valid point
    [P], the windowed-NAF multiplication with the default width 5 gives the
    result of the double-and-add multiplication, and with a nonzero [n] that
    result is a point. *)
Theorem C1_wnaf_equals_double_and_add (c : Curve) (k : Z) (P : Point) :
  valid_curve c -> valid_point c P ->
  wnaf_scalar_mult k P default_w = scalar_mult k P /\
  (n c <> 0 -> returns (scalar_mult k P)).
Proof.
  intros Hc HP. pose proof (valid_point_curve c P HP) as EC.
  destruct (Z.eq_dec (n c) 0) as [Z0 | NZ].
  - split; [| contradiction].
    unfold wnaf_scalar_mult, scalar_mult, wnaf_scalar_mult_body, scalar_mult_body.
    rewrite EC. unfold pymod. rewrite Z0. reflexivity.
  - apply (valid_point_of c Hc) in HP. destruct HP as (A & HA & ->).
    rewrite (wnaf_scalar_mult_of c Hc), (scalar_mult_of c Hc) by (assumption || (unfold default_w; lia)).
    split; [reflexivity |]. intros _. eexists. reflexivity.
Qed.

Lemma C1_witness :
  wnaf_scalar_mult 7 (affine TOY17 5 1) default_w = scalar_mult 7 (affine TOY17 5 1) /\
  (n TOY17 <> 0 -> returns (scalar_mult 7 (affine TOY17 5 1))).
Proof.
  apply (C1_wnaf_equals_double_and_add TOY17 7 (affine TOY17 5 1)).
  - exact TOY17_valid.
  - valid_point_eval.
Defined.

(** C2 (the code against the claim): on the toy curve of prime order 19,
    with the private key 2, its public key 2 * G = (6, 3) and the message
    "x", the nonce is 12 and the abscissa of 12 * G is 0, so [r == 0]: the
    retry calls [sign] with the same arguments, the same nonce comes back,
    and [sign] ends in [RecursionError] without a signature to verify. *)
Theorem C2_sign_retry_never_returns :
  valid_curve TOY17 /\ valid_base TOY17 /\ 1 <= 2 < n TOY17 /\
  G TOY17 = Ok (affine TOY17 5 1) /\
  scalar_mult 2 (affine TOY17 5 1) = Ok (affine TOY17 6 3) /\
  rfc6979_generate_k hmac 40 2 (sha msg_x) (n TOY17) = Some (Ok 12) /\
  scalar_mult 12 (affine TOY17 5 1) = Ok (affine TOY17 0 11) /\
  sign sha hmac 40 2 msg_x TOY17 = Some (Raise RecursionError).
Proof.
  split; [exact TOY17_valid |]. split; [exact TOY17_base |].
  split; [simpl; lia |]. repeat split; vm_compute; reflexivity.
Qed.

(** C3 (counterexample): over GF(2) the point (1, 1) is on y^2 = x^3, its
    coordinates are in [0, p), and doubling it divides by 2 * y1 = 0. *)
Lemma C3_counterexample :
  Pt.make CHAR2 (Some 1) (Some 1) = Ok (affine CHAR2 1 1) /\
  valid_point CHAR2 (affine CHAR2 1 1) /\
  Pt.add (affine CHAR2 1 1) (affine CHAR2 1 1) = Raise ZeroDivisionError.
Proof.
  split; [vm_compute; reflexivity |]. split; [| vm_compute; reflexivity].
  valid_point_eval.
Qed.

(** C3 (amended): for an odd modulus [p], adding two points of one curve
    that are infinity or on-curve pairs with coordinates in [0, p) never
    raises [ZeroDivisionError]: the addition returns, or the constructor
    rejects the sum with [ValueError]. *)
Theorem C3_add_no_zero_division (c : Curve) (P Q : Point) :
  Z.odd (p c) = true -> valid_point c P -> valid_point c Q ->
  (returns (Pt.add P Q) \/ Pt.add P Q = Raise ValueError) /\
  Pt.add P Q <> Raise ZeroDivisionError.
Proof.
  intros Ho HP HQ.
  assert (Hp : p c <> 0) by (intros E; rewrite E in Ho; discriminate).
  destruct (add_outcome c Hp P Q Ho HP HQ) as [[R E] | E]; rewrite E.
  - split; [left; eexists; reflexivity | discriminate].
  - split; [right; reflexivity | discriminate].
Qed.

Lemma C3_witness :
  (returns (Pt.add (affine TOY17 5 1) (affine TOY17 5 1)) \/
   Pt.add (affine TOY17 5 1) (affine TOY17 5 1) = Raise ValueError) /\
  Pt.add (affine TOY17 5 1) (affine TOY17 5 1) <> Raise ZeroDivisionError.
Proof.
  apply (C3_add_no_zero_division TOY17 (affine TOY17 5 1) (affine TOY17 5 1)).
  - reflexivity.
  - valid_point_eval.
  - valid_point_eval.
Defined.

(** C4 (the code against the claim): with n = 19, the private key 2 and
    the digest of "abc", the first candidate taken from the HMAC output is
    25, outside [1, 19); [bits2int] has already reduced it to 25 % 19 = 6,
    so the range test passes and 6 is returned without another [K], [V]
    update. *)
Theorem C4_out_of_range_candidate_is_reduced :
  first_candidate 2 (sha msg_abc) 19 = Some (Ok 25) /\
  rfc6979_generate_k hmac 40 2 (sha msg_abc) 19 = Some (Ok 6) /\
  25 mod 19 = 6.
Proof. repeat split; vm_compute; reflexivity. Qed.




(** C6 (counterexample): with the composite n = 14, the true order of the
    base point (1, 5) on y^2 = x^3 + x + 1 over GF(11), [verify] on the
    valid public point (1, 5) and the pair (1, 2) raises [ValueError] from
    [pow(2, -1, 14)]; and over GF(2), with n = 3, [verify] on the valid
    point (1, 1) raises [ZeroDivisionError] from the doubling. *)
Lemma C6_counterexample :
  (valid_point COMPOSITE14 (affine COMPOSITE14 1 5) /\
   G COMPOSITE14 = Ok (affine COMPOSITE14 1 5) /\
   verify sha (affine COMPOSITE14 1 5) msg_abc (1, 2) = Raise ValueError) /\
  (valid_point CHAR2 (affine CHAR2 1 1) /\
   verify sha (affine CHAR2 1 1) msg_abc (1, 1) = Raise ZeroDivisionError).
Proof.
  split; (split; [valid_point_eval | repeat split; vm_compute; reflexivity]).
Qed.

(** C6 (amended): on a valid curve whose [n] is prime and whose base point
    passes the constructor, [verify] returns a boolean for every valid
    public point, every message and every integer pair; it is [False] when
    [r] or [s] is outside [1, n); and it is [True] only when the computed
    point [u1 * G + u2 * pub] is not infinity and its abscissa is [r]
    modulo [n]. *)
Theorem C6_verify_total (sha256 : bytes -> bytes) (c : Curve) (pub : Point)
    (msg : bytes) (r s : Z) :
  valid_curve c -> Z.prime (n c) -> returns (G c) -> valid_point c pub ->
  exists b, verify sha256 pub msg (r, s) = Ok b /\
    (~ (1 <= r < n c /\ 1 <= s < n c) -> b = false) /\
    (b = true ->
     exists w g P1 P2 P xP,
       pypow s (-1) (n c) = Ok w /\ G c = Ok g /\
       scalar_mult ((int_from_bytes (sha256 msg) mod n c * w) mod n c) g = Ok P1 /\
       scalar_mult ((r * w) mod n c) pub = Ok P2 /\
       Pt.add P1 P2 = Ok P /\
       Pt.is_infinity P = false /\ x P = Some xP /\ xP mod n c = r).
Proof.
  intros Hc Hn HG HP. pose proof (G_returns_on c Hc HG) as GO.
  pose proof (valid_point_curve c pub HP) as EC.
  apply (valid_point_of c Hc) in HP. destruct HP as (A & HA & EA).
  destruct (verify_total sha256 c Hc Hn GO A msg r s HA) as [b Eb].
  rewrite <- EA in Eb. exists b. split; [exact Eb |]. split.
  - intros H. rewrite <- EC in H.
    rewrite (verify_out_of_range sha256 pub msg r s H) in Eb. congruence.
  - intros ->. apply verify_true_inv in Eb. rewrite EC in Eb.
    destruct Eb as [_ Eb]. exact Eb.
Qed.

Lemma C6_witness :
  exists b, verify sha (affine TOY17 5 1) msg_abc (6, 5) = Ok b /\
    (~ (1 <= 6 < n TOY17 /\ 1 <= 5 < n TOY17) -> b = false) /\
    (b = true ->
     exists w g P1 P2 P xP,
       pypow 5 (-1) (n TOY17) = Ok w /\ G TOY17 = Ok g /\
       scalar_mult ((int_from_bytes (sha msg_abc) mod n TOY17 * w) mod n TOY17) g = Ok P1 /\
       scalar_mult ((6 * w) mod n TOY17) (affine TOY17 5 1) = Ok P2 /\
       Pt.add P1 P2 = Ok P /\
       Pt.is_infinity P = false /\ x P = Some xP /\ xP mod n TOY17 = 6).
Proof.
  apply (C6_verify_total sha TOY17 (affine TOY17 5 1) msg_abc 6 5).
  - exact TOY17_valid.
  - apply prime_check_sound. vm_compute. reflexivity.
  - eexists. vm_compute. reflexivity.
  - valid_point_eval.
Defined.

(** C7: every pair [(r, s)] that [sign] returns has [1 <= r < n],
    [1 <= s < n] and [s <= n // 2]; [s] is the computed
    [kinv * (e + r * priv) % n], replaced by [n - s] when it exceeds
    [n // 2]. *)
Theorem C7_signature_range_and_low_s (sha256 : bytes -> bytes)
    (hmac_sha256 : bytes -> bytes -> bytes)
    (fuel : nat) (priv : Z) (msg : bytes) (c : Curve) (r s : Z) :
  sign sha256 hmac_sha256 fuel priv msg c = Some (Ok (r, s)) ->
  1 <= r < n c /\ 1 <= s < n c /\ s <= n c / 2 /\
  exists k kinv s0,
    rfc6979_generate_k hmac_sha256 fuel priv (sha256 msg) (n c) = Some (Ok k) /\
    pypow k (-1) (n c) = Ok kinv /\
    s0 = (kinv * (int_from_bytes (sha256 msg) mod n c + r * priv)) mod n c /\
    s = (if s0 >? n c / 2 then n c - s0 else s0).
Proof.
  intros E. pose proof (sign_range _ _ _ _ _ _ _ _ E) as (Hr & Hs & Hl).
  apply sign_inv in E.
  destruct E as (k & g & R & xR & kinv & s0 & Ek & _ & _ & _ & _ & _ & _ & Ei & Hs0 & _ & Es).
  repeat split; try lia. exists k, kinv, s0. repeat split; assumption.
Qed.

Lemma C7_witness :
  1 <= 6 < n TOY17 /\ 1 <= 5 < n TOY17 /\ 5 <= n TOY17 / 2 /\
  exists k kinv s0,
    rfc6979_generate_k hmac 40 1 (sha msg_abc) (n TOY17) = Some (Ok k) /\
    pypow k (-1) (n TOY17) = Ok kinv /\
    s0 = (kinv * (int_from_bytes (sha msg_abc) mod n TOY17 + 6 * 1)) mod n TOY17 /\
    5 = (if s0 >? n TOY17 / 2 then n TOY17 - s0 else s0).
Proof.
  apply (C7_signature_range_and_low_s sha hmac 40 1 msg_abc TOY17 6 5).
  vm_compute. reflexivity.
Defined.

(** C8 (counterexample): on y^2 = x^3 + x + 1 over GF(11) with the base
    point (1, 5) of the composite order n = 14, the private scalars 2 and 7
    are in [1, n) and their public keys are 2 * G = (3, 3) and
    7 * G = (2, 0); both calls of [ecdh_shared_secret] raise [ValueError],
    the shared point 14 * G being infinity. *)
Lemma C8_counterexample :
  valid_curve COMPOSITE14 /\
  G COMPOSITE14 = Ok (affine COMPOSITE14 1 5) /\
  1 <= 2 < n COMPOSITE14 /\ 1 <= 7 < n COMPOSITE14 /\
  scalar_mult 2 (affine COMPOSITE14 1 5) = Ok (affine COMPOSITE14 3 3) /\
  scalar_mult 7 (affine COMPOSITE14 1 5) = Ok (affine COMPOSITE14 2 0) /\
  ecdh_shared_secret sha 2 (affine COMPOSITE14 2 0) = Raise ValueError /\
  ecdh_shared_secret sha 7 (affine COMPOSITE14 3 3) = Raise ValueError.
Proof.
  split; [exact COMPOSITE14_valid |]. split; [vm_compute; reflexivity |].
  split; [simpl; lia |]. split; [simpl; lia |].
  repeat split; vm_compute; reflexivity.
Qed.

(** C8 (amended): on a valid curve whose base point has prime order [n],
    for two key pairs with private scalars in [1, n) and public keys
    [dA * G] and [dB * G], both calls of [ecdh_shared_secret] return, and
    they return the same bytes. *)
Theorem C8_ecdh_agreement (sha256 : bytes -> bytes) (c : Curve)
    (dA dB : Z) (g QA QB : Point) :
  valid_curve c -> valid_base c ->
  1 <= dA < n c -> 1 <= dB < n c ->
  G c = Ok g -> scalar_mult dA g = Ok QA -> scalar_mult dB g = Ok QB ->
  exists secret, ecdh_shared_secret sha256 dA QB = Ok secret /\
                 ecdh_shared_secret sha256 dB QA = Ok secret.
Proof. intros Hc Hb. apply ecdh_agree; assumption. Qed.

Lemma C8_witness :
  exists secret, ecdh_shared_secret sha 2 (affine TOY17 10 6) = Ok secret /\
                 ecdh_shared_secret sha 3 (affine TOY17 6 3) = Ok secret.
Proof.
  apply (C8_ecdh_agreement sha TOY17 2 3 (affine TOY17 5 1)).
  - exact TOY17_valid.
  - exact TOY17_base.
  - simpl. lia.
  - simpl. lia.
  - vm_compute. reflexivity.
  - vm_compute. reflexivity.
  - vm_compute. reflexivity.
Defined.

(** C10: [verify] does not test the public point for infinity.  On a valid
    curve whose [n] is prime and whose base point passes the constructor,
    with the point at infinity as public key the pair [r = Gx mod n],
    [s = e mod n] (both nonzero, [e] the digest of the message as an
    integer) has both components in [1, n) and is accepted. *)
Theorem C10_verify_accepts_infinity (sha256 : bytes -> bytes) (c : Curve) (msg : bytes) :
  valid_curve c -> Z.prime (n c) -> returns (G c) ->
  (Gx c mod p c) mod n c <> 0 -> int_from_bytes (sha256 msg) mod n c <> 0 ->
  1 <= (Gx c mod p c) mod n c < n c /\
  1 <= int_from_bytes (sha256 msg) mod n c < n c /\
  verify sha256 (Pt.infinity c) msg
    ((Gx c mod p c) mod n c, int_from_bytes (sha256 msg) mod n c) = Ok true.
Proof.
  intros Hc Hn HG Hr He. pose proof (Z.prime_ge_2 _ Hn) as H2.
  pose proof (Z.mod_pos_bound (Gx c mod p c) (n c) ltac:(lia)).
  pose proof (Z.mod_pos_bound (int_from_bytes (sha256 msg)) (n c) ltac:(lia)).
  split; [lia |]. split; [lia |].
  apply verify_infinity; try assumption. apply G_returns_on; assumption.
Qed.

Lemma C10_witness :
  1 <= (Gx TOY17 mod p TOY17) mod n TOY17 < n TOY17 /\
  1 <= int_from_bytes (sha msg_abc) mod n TOY17 < n TOY17 /\
  verify sha (Pt.infinity TOY17) msg_abc
    ((Gx TOY17 mod p TOY17) mod n TOY17, int_from_bytes (sha msg_abc) mod n TOY17) = Ok true.
Proof.
  apply (C10_verify_accepts_infinity sha TOY17 msg_abc).
  - exact TOY17_valid.
  - apply prime_check_sound. vm_compute. reflexivity.
  - eexists. vm_compute. reflexivity.
  - vm_compute. discriminate.
  - vm_compute. discriminate.
Defined.

(** The same on secp256k1 with SHA-256 and the message "abc", by
    evaluation. *)
Example verify_infinity_secp256k1 :
  verify sha (Pt.infinity SECP256K1) msg_abc
    (Gx SECP256K1 mod n SECP256K1, int_from_bytes (sha msg_abc) mod n SECP256K1) = Ok true.
Proof. vm_compute. reflexivity. Qed.


(** * Further properties of the code

    ** field.py *)

Section FieldFacts.

Variable Fd : PrimeField.
Local Abbreviation q := (Fp Fd).

Lemma field_inv_value (v : Z) : Z.prime q -> v mod q <> 0 ->
  exists i, Field.inv Fd v = Ok i /\ 0 <= i < q /\ (v * i) mod q = 1.
Proof.
  intros Hq Hv. pose proof (Z.prime_ge_2 _ Hq) as H2.
  assert (Q0 : q <> 0) by lia.
  assert (N : Zmod.of_Z q v <> Zmod.zero) by (apply Zmod.of_Z_nz; exact Hv).
  unfold Field.inv. rewrite pymod_ok, bind_ok by exact Q0.
  destruct (Z.eqb_spec (v mod q) 0) as [E | _]; [contradiction |].
  destruct (q - 2) as [| e | e] eqn:Eq; try lia.
  - (* q = 2 *)
    unfold pypow. destruct (Z.eqb_spec q 0); [lia |].
    exists (1 mod q). split; [reflexivity |].
    assert (q = 2) by lia.
    rewrite Z.mod_small by lia. split; [lia |]. rewrite Z.mul_1_r.
    pose proof (Z.mod_pos_bound v q ltac:(lia)). lia.
  - rewrite pypow_pos by exact Q0. rewrite <- Eq.
    eexists. split; [reflexivity |]. split; [apply Z.mod_pos_bound; lia |].
    rewrite Zmult_mod_idemp_r.
    pose proof (Zmod.fermat_inv (Zmod.of_Z q v) N Hq) as Fm.
    assert (M : Zmod.mul (Zmod.of_Z q v) (Zmod.pow (Zmod.of_Z q v) (q - 2)) = Zmod.one).
    { rewrite Fm. apply Zmod.mul_inv_same_r_prime; assumption. }
    apply (f_equal Zmod.to_Z) in M.
    rewrite Zmod.to_Z_mul, Zmod.to_Z_pow_nonneg_r, Zmod.to_Z_of_Z, Zmod.to_Z_1 in M by lia.
    rewrite Z.mod_pow_l, Zmult_mod_idemp_l, Zmult_mod_idemp_r in M.
    rewrite M. apply Z.mod_small. lia.
Qed.

End FieldFacts.

(** X1: [PrimeField.inv] raises [ZeroDivisionError] on every multiple of
    the modulus, and on a zero modulus. *)
Theorem X1_field_inv_of_zero (Fd : PrimeField) (v : Z) :
  Fp Fd = 0 \/ v mod Fp Fd = 0 -> Field.inv Fd v = Raise ZeroDivisionError.
Proof.
  intros H. unfold Field.inv, pymod.
  destruct (Z.eqb_spec (Fp Fd) 0) as [E | E]; [reflexivity |].
  destruct H as [H | H]; [contradiction |]. rewrite bind_ok, H. reflexivity.
Qed.

Lemma X1_witness : Field.inv {| Fp := 17 |} 34 = Raise ZeroDivisionError.
Proof. apply (X1_field_inv_of_zero {| Fp := 17 |} 34). right. reflexivity. Defined.

(** X2: for a prime modulus, [PrimeField.inv] of a non-multiple returns
    the inverse, reduced: the Fermat power [a ^ (p - 2)] times [a] is 1. *)
Theorem X2_field_inv_is_inverse (Fd : PrimeField) (v : Z) :
  Z.prime (Fp Fd) -> v mod Fp Fd <> 0 ->
  exists i, Field.inv Fd v = Ok i /\ 0 <= i < Fp Fd /\ (v * i) mod Fp Fd = 1.
Proof. apply field_inv_value. Qed.

Lemma X2_witness :
  exists i, Field.inv {| Fp := 17 |} 5 = Ok i /\ 0 <= i < 17 /\ (5 * i) mod 17 = 1.
Proof.
  apply (X2_field_inv_is_inverse {| Fp := 17 |} 5).
  - apply prime_check_sound. vm_compute. reflexivity.
  - vm_compute. discriminate.
Defined.

(** X3: for a prime modulus and a divisor that is not a multiple of it,
    [PrimeField.div] returns, and multiplying the quotient by the divisor
    gives back the dividend, reduced. *)
Theorem X3_field_div_then_mul (Fd : PrimeField) (u v : Z) :
  Z.prime (Fp Fd) -> v mod Fp Fd <> 0 ->
  exists d, Field.div Fd u v = Ok d /\ Field.mul Fd d v = Ok (u mod Fp Fd).
Proof.
  intros Hq Hv. pose proof (Z.prime_ge_2 _ Hq) as H2.
  destruct (field_inv_value Fd v Hq Hv) as (i & Ei & _ & Hi).
  unfold Field.div. rewrite Ei, bind_ok. unfold Field.mul.
  rewrite !pymod_ok by lia. eexists. split; [reflexivity |].
  rewrite pymod_ok by lia. f_equal.
  rewrite Zmult_mod_idemp_l.
  replace (u * i * v) with (u * (v * i)) by ring.
  rewrite <- Zmult_mod_idemp_r, Hi, Z.mul_1_r. reflexivity.
Qed.

Lemma X3_witness :
  exists d, Field.div {| Fp := 17 |} 3 5 = Ok d /\
            Field.mul {| Fp := 17 |} d 5 = Ok (3 mod 17).
Proof.
  apply (X3_field_div_then_mul {| Fp := 17 |} 3 5).
  - apply prime_check_sound. vm_compute. reflexivity.
  - vm_compute. discriminate.
Defined.

(** X4: for a nonzero modulus, subtracting after adding gives back the
    first operand reduced, an element plus its negation is 0, and every
    result of [add], [sub], [mul], [neg] with a positive modulus is in
    [0, p). *)
Theorem X4_field_round_trips (Fd : PrimeField) (u v : Z) :
  Fp Fd <> 0 ->
  (r <- Field.add Fd u v ;; Field.sub Fd r v) = Ok (u mod Fp Fd) /\
  (m <- Field.neg Fd u ;; Field.add Fd u m) = Ok 0 /\
  (0 < Fp Fd ->
   forall r, In (Ok r) [Field.add Fd u v; Field.sub Fd u v; Field.mul Fd u v;
                        Field.neg Fd u; Field.normalize Fd u] ->
   0 <= r < Fp Fd).
Proof.
  intros Hq. unfold Field.add, Field.sub, Field.mul, Field.neg, Field.normalize.
  rewrite !pymod_ok, !bind_ok by exact Hq. rewrite !pymod_ok by exact Hq.
  split; [| split].
  - f_equal. rewrite Zminus_mod_idemp_l. f_equal. ring.
  - f_equal. rewrite Zplus_mod_idemp_r. rewrite Z.add_opp_diag_r. apply Z.mod_0_l. exact Hq.
  - intros Hpos r Hin. simpl in Hin.
    repeat (destruct Hin as [Hin | Hin];
            [injection Hin as <-; apply Z.mod_pos_bound; exact Hpos |]).
    contradiction.
Qed.

Lemma X4_witness :
  (r <- Field.add {| Fp := 17 |} 30 9 ;; Field.sub {| Fp := 17 |} r 9) = Ok (30 mod 17) /\
  (m <- Field.neg {| Fp := 17 |} 30 ;; Field.add {| Fp := 17 |} 30 m) = Ok 0 /\
  (0 < 17 ->
   forall r, In (Ok r) [Field.add {| Fp := 17 |} 30 9; Field.sub {| Fp := 17 |} 30 9;
                        Field.mul {| Fp := 17 |} 30 9; Field.neg {| Fp := 17 |} 30;
                        Field.normalize {| Fp := 17 |} 30] ->
   0 <= r < 17).
Proof. apply (X4_field_round_trips {| Fp := 17 |} 30 9). discriminate. Defined.

(** ** curve.py: the constructor *)

Lemma make_spec (c : Curve) (u v : Z) : p c <> 0 ->
  Pt.make c (Some u) (Some v) =
  if (v * v) mod p c =? (u * u * u + a c * u + b c) mod p c
  then Ok (affine c (u mod p c) (v mod p c)) else Raise ValueError.
Proof.
  intros Hp. unfold Pt.make, Field.pow, Field.mul. cbn [F Fp].
  rewrite !pymod_ok, !bind_ok by exact Hp.
  rewrite !pypow_pos, !bind_ok by exact Hp.
  rewrite !pymod_ok, !bind_ok by exact Hp.
  rewrite !pymod_ok, !bind_ok by exact Hp.
  replace ((v mod p c) ^ 2 mod p c) with ((v * v) mod p c).
  2:{ rewrite Z.mod_pow_l. f_equal. ring. }
  replace (((u mod p c) ^ 3 mod p c + (a c * (u mod p c)) mod p c + b c) mod p c)
    with ((u * u * u + a c * u + b c) mod p c).
  2:{ apply Zmod.of_Z_inj.
      rewrite !Zmod.of_Z_add, !Zmod.of_Z_mod, !Zmod.of_Z_mul, Zmod.of_Z_mod.
      replace ((u mod p c) ^ 3) with ((u mod p c) * (u mod p c) * (u mod p c)) by ring.
      rewrite !Zmod.of_Z_mul, !Zmod.of_Z_mod. reflexivity. }
  reflexivity.
Qed.

(** X5: [Point(curve, x, y)] checks the curve equation modulo [p]: a pair
    that satisfies it is stored with both coordinates reduced, any other
    pair raises [ValueError]. *)
Theorem X5_constructor_checks_the_equation (c : Curve) (u v : Z) :
  p c <> 0 ->
  ((v * v) mod p c = (u * u * u + a c * u + b c) mod p c ->
   Pt.make c (Some u) (Some v) = Ok (affine c (u mod p c) (v mod p c))) /\
  ((v * v) mod p c <> (u * u * u + a c * u + b c) mod p c ->
   Pt.make c (Some u) (Some v) = Raise ValueError).
Proof.
  intros Hp. rewrite make_spec by exact Hp.
  destruct (Z.eqb_spec ((v * v) mod p c) ((u * u * u + a c * u + b c) mod p c));
    split; intros; try reflexivity; contradiction.
Qed.

Lemma X5_witness :
  ((18 * 18) mod p TOY17 = (22 * 22 * 22 + a TOY17 * 22 + b TOY17) mod p TOY17 ->
   Pt.make TOY17 (Some 22) (Some 18) = Ok (affine TOY17 (22 mod p TOY17) (18 mod p TOY17))) /\
  ((18 * 18) mod p TOY17 <> (22 * 22 * 22 + a TOY17 * 22 + b TOY17) mod p TOY17 ->
   Pt.make TOY17 (Some 22) (Some 18) = Raise ValueError).
Proof. apply (X5_constructor_checks_the_equation TOY17 22 18). discriminate. Defined.



(** ** curve.py: negation, addition and doubling on a valid curve *)

Lemma valid_point_of_pt (c : Curve) (A : EC.pt (p c)) : valid_curve c ->
  EC.on_curve (p c) (curve_A c) (curve_B c) A -> valid_point c (of_pt c A).
Proof. intros Hc H. apply (valid_point_of c Hc). exists A. split; [exact H | reflexivity]. Qed.

(** X7: negation returns a valid point and is an involution. *)
Theorem X7_neg_involution (c : Curve) (P : Point) :
  valid_curve c -> valid_point c P ->
  exists N, Pt.neg P = Ok N /\ valid_point c N /\ Pt.neg N = Ok P.
Proof.
  intros Hc HP. apply (valid_point_of c Hc) in HP. destruct HP as (A & HA & ->).
  exists (of_pt c (EC.opp (p c) A)). split; [apply (neg_of c Hc); exact HA |].
  split; [apply valid_point_of_pt; [exact Hc | apply (g_opp_on c Hc); exact HA] |].
  rewrite (neg_of c Hc) by (apply (g_opp_on c Hc); exact HA).
  rewrite g_opp_opp by exact Hc. reflexivity.
Qed.

Lemma X7_witness :
  exists N, Pt.neg (affine TOY17 5 1) = Ok N /\ valid_point TOY17 N /\
            Pt.neg N = Ok (affine TOY17 5 1).
Proof.
  apply (X7_neg_involution TOY17 (affine TOY17 5 1)).
  - exact TOY17_valid.
  - valid_point_eval.
Defined.

(** X8: a valid point plus its negation is the point at infinity. *)
Theorem X8_add_neg_is_infinity (c : Curve) (P : Point) :
  valid_curve c -> valid_point c P ->
  (N <- Pt.neg P ;; Pt.add P N) = Ok (Pt.infinity c).
Proof.
  intros Hc HP. apply (valid_point_of c Hc) in HP. destruct HP as (A & HA & ->).
  rewrite (neg_of c Hc), bind_ok by exact HA.
  rewrite (add_of c Hc) by (try apply (g_opp_on c Hc); exact HA).
  rewrite (g_add_opp_r c Hc) by exact HA. reflexivity.
Qed.

Lemma X8_witness :
  (N <- Pt.neg (affine TOY17 5 1) ;; Pt.add (affine TOY17 5 1) N) = Ok (Pt.infinity TOY17).
Proof.
  apply (X8_add_neg_is_infinity TOY17 (affine TOY17 5 1)).
  - exact TOY17_valid.
  - valid_point_eval.
Defined.

(** X9: addition of valid points returns a valid point and is
    commutative. *)
Theorem X9_add_closed_and_commutative (c : Curve) (P Q : Point) :
  valid_curve c -> valid_point c P -> valid_point c Q ->
  exists S, Pt.add P Q = Ok S /\ Pt.add Q P = Ok S /\ valid_point c S.
Proof.
  intros Hc HP HQ.
  apply (valid_point_of c Hc) in HP. destruct HP as (A & HA & ->).
  apply (valid_point_of c Hc) in HQ. destruct HQ as (A' & HA' & ->).
  exists (of_pt c (EC.add (p c) (curve_A c) A A')).
  split; [apply (add_of c Hc); assumption |]. split.
  - rewrite (add_of c Hc) by assumption.
    rewrite (g_add_comm c Hc A' A) by assumption. reflexivity.
  - apply valid_point_of_pt; [exact Hc |]. apply (g_add_on c Hc); assumption.
Qed.

Lemma X9_witness :
  exists S, Pt.add (affine TOY17 5 1) (affine TOY17 6 3) = Ok S /\
            Pt.add (affine TOY17 6 3) (affine TOY17 5 1) = Ok S /\ valid_point TOY17 S.
Proof.
  apply (X9_add_closed_and_commutative TOY17 (affine TOY17 5 1) (affine TOY17 6 3)).
  - exact TOY17_valid.
  - valid_point_eval.
  - valid_point_eval.
Defined.

(** X10: addition of valid points is associative: the chord-and-tangent
    formulas of [__add__], with their special cases, define a group law. *)
Theorem X10_add_associative (c : Curve) (P Q R : Point) :
  valid_curve c -> valid_point c P -> valid_point c Q -> valid_point c R ->
  exists S, (PQ <- Pt.add P Q ;; Pt.add PQ R) = Ok S /\
            (QR <- Pt.add Q R ;; Pt.add P QR) = Ok S.
Proof.
  intros Hc HP HQ HR.
  apply (valid_point_of c Hc) in HP. destruct HP as (A & HA & ->).
  apply (valid_point_of c Hc) in HQ. destruct HQ as (A' & HA' & ->).
  apply (valid_point_of c Hc) in HR. destruct HR as (A'' & HA'' & ->).
  exists (of_pt c (EC.add (p c) (curve_A c) (EC.add (p c) (curve_A c) A A') A'')).
  rewrite !(add_of c Hc), !bind_ok by assumption.
  rewrite !(add_of c Hc) by (try apply (g_add_on c Hc); assumption).
  split; [reflexivity |].
  rewrite (g_add_assoc c Hc) by assumption. reflexivity.
Qed.

Lemma X10_witness :
  exists S,
    (PQ <- Pt.add (affine TOY17 5 1) (affine TOY17 6 3) ;; Pt.add PQ (affine TOY17 10 6)) = Ok S /\
    (QR <- Pt.add (affine TOY17 6 3) (affine TOY17 10 6) ;; Pt.add (affine TOY17 5 1) QR) = Ok S.
Proof.
  apply (X10_add_associative TOY17 (affine TOY17 5 1) (affine TOY17 6 3) (affine TOY17 10 6)).
  - exact TOY17_valid.
  - valid_point_eval.
  - valid_point_eval.
  - valid_point_eval.
Defined.

(** X11: the curves of the two operands are compared by identity and
    before anything else: points of two different curve objects are refused
    with [TypeError], also when the two curves have the same parameters,
    and also when one of the points is infinity. *)
Theorem X11_add_checks_curve_identity (P Q : Point) :
  oid (curve P) <> oid (curve Q) -> Pt.add P Q = Raise TypeError.
Proof.
  intros N. unfold Pt.add, same_curve.
  destruct (Z.eqb_spec (oid (curve P)) (oid (curve Q))); [contradiction | reflexivity].
Qed.

Lemma X11_witness :
  Pt.add (affine TOY17 5 1) (affine TOY17_twin 5 1) = Raise TypeError /\
  Pt.add (Pt.infinity TOY17) (affine TOY17_twin 5 1) = Raise TypeError.
Proof.
  split.
  - apply (X11_add_checks_curve_identity (affine TOY17 5 1) (affine TOY17_twin 5 1)).
    vm_compute. discriminate.
  - apply (X11_add_checks_curve_identity (Pt.infinity TOY17) (affine TOY17_twin 5 1)).
    vm_compute. discriminate.
Defined.

(** ** curve.py: scalar multiplication *)

(** X12: [scalar_mult] returns a valid point for every integer and every
    valid point, as soon as [n] is not zero. *)
Theorem X12_scalar_mult_returns_valid_point (c : Curve) (k : Z) (P : Point) :
  valid_curve c -> n c <> 0 -> valid_point c P ->
  exists R, scalar_mult k P = Ok R /\ valid_point c R.
Proof.
  intros Hc Hn HP. apply (valid_point_of c Hc) in HP. destruct HP as (A & HA & ->).
  rewrite (scalar_mult_of c Hc) by assumption. eexists. split; [reflexivity |].
  apply valid_point_of_pt; [exact Hc |].
  destruct (k mod n c =? 0); [exact I | apply (g_zmul_on c Hc); exact HA].
Qed.

Lemma X12_witness :
  exists R, scalar_mult (-45) (affine TOY17 5 1) = Ok R /\ valid_point TOY17 R.
Proof.
  apply (X12_scalar_mult_returns_valid_point TOY17 (-45) (affine TOY17 5 1)).
  - exact TOY17_valid.
  - discriminate.
  - valid_point_eval.
Defined.

(** X13: [P.double()] is [2 * P], when the nonzero [n] does not divide
    2. *)
Theorem X13_double_is_two_times (c : Curve) (P : Point) :
  valid_curve c -> n c <> 0 -> 2 mod n c <> 0 -> valid_point c P ->
  scalar_mult 2 P = Pt.double P.
Proof.
  intros Hc Hn H2 HP.
  apply (valid_point_of c Hc) in HP. destruct HP as (A & HA & ->).
  rewrite (scalar_mult_of c Hc), (double_of c Hc) by assumption.
  destruct (Z.eqb_spec (2 mod n c) 0); [contradiction |].
  rewrite (g_zmul_double c Hc) by exact HA. reflexivity.
Qed.

Lemma X13_witness : scalar_mult 2 (affine TOY17 5 1) = Pt.double (affine TOY17 5 1).
Proof.
  apply (X13_double_is_two_times TOY17 (affine TOY17 5 1)).
  - exact TOY17_valid.
  - discriminate.
  - vm_compute. discriminate.
  - valid_point_eval.
Defined.

(** X14: on points that [n] kills, [scalar_mult] is additive in the scalar
    and multiplicative under composition: [(j + k) * P = j * P + k * P] and
    [j * (k * P) = (j * k) * P]. *)
Theorem X14_scalar_mult_homomorphism (c : Curve) (j k : Z) (P : Point) :
  valid_curve c -> n c <> 0 -> valid_point c P -> killed_by_n c P ->
  scalar_mult (j + k) P = (U <- scalar_mult j P ;; V <- scalar_mult k P ;; Pt.add U V) /\
  scalar_mult (j * k) P = (V <- scalar_mult k P ;; scalar_mult j V).
Proof.
  intros Hc Hn HP HK. apply (valid_point_of c Hc) in HP. destruct HP as (A & HA & ->).
  unfold killed_by_n in HK. rewrite to_pt_of_pt in HK.
  rewrite !(scalar_mult_killed c Hc), !bind_ok by assumption.
  split.
  - rewrite (add_of c Hc) by (apply (g_zmul_on c Hc); exact HA).
    rewrite (g_zmul_add c Hc) by exact HA. reflexivity.
  - rewrite (scalar_mult_killed c Hc); try assumption.
    + rewrite (g_zmul_mul c Hc) by exact HA. reflexivity.
    + apply (g_zmul_on c Hc); exact HA.
    + rewrite <- (g_zmul_mul c Hc) by exact HA.
      rewrite Z.mul_comm, (g_zmul_mul c Hc), HK by exact HA.
      apply g_zmul_O; try exact Hc.
Qed.

Lemma X14_witness :
  scalar_mult (7 + 30) (affine TOY17 5 1) =
    (U <- scalar_mult 7 (affine TOY17 5 1) ;;
     V <- scalar_mult 30 (affine TOY17 5 1) ;; Pt.add U V) /\
  scalar_mult (7 * 30) (affine TOY17 5 1) =
    (V <- scalar_mult 30 (affine TOY17 5 1) ;; scalar_mult 7 V).
Proof.
  apply (X14_scalar_mult_homomorphism TOY17 7 30 (affine TOY17 5 1)).
  - exact TOY17_valid.
  - discriminate.
  - valid_point_eval.
  - vm_compute. reflexivity.
Defined.

(** X15: with [n = 0] both multiplications raise [ZeroDivisionError] from
    the first test [k % n], whatever the scalar and the point. *)
Theorem X15_zero_order_raises (k : Z) (P : Point) (w : Z) :
  n (curve P) = 0 ->
  scalar_mult k P = Raise ZeroDivisionError /\
  wnaf_scalar_mult k P w = Raise ZeroDivisionError.
Proof.
  intros E. unfold scalar_mult, wnaf_scalar_mult, scalar_mult_body, wnaf_scalar_mult_body, pymod.
  rewrite E. split; reflexivity.
Qed.

Lemma X15_witness :
  scalar_mult 3 (Pt.infinity ZERO_ORDER) = Raise ZeroDivisionError /\
  wnaf_scalar_mult 3 (Pt.infinity ZERO_ORDER) 5 = Raise ZeroDivisionError.
Proof. apply (X15_zero_order_raises 3 (Pt.infinity ZERO_ORDER) 5). reflexivity. Defined.

(** X16: the windowed-NAF multiplication agrees with double-and-add for
    every window width [w >= 2], not only the default. *)
Theorem X16_wnaf_any_width (c : Curve) (k w : Z) (P : Point) :
  valid_curve c -> n c <> 0 -> 2 <= w -> valid_point c P ->
  wnaf_scalar_mult k P w = scalar_mult k P.
Proof.
  intros Hc Hn Hw HP. apply (valid_point_of c Hc) in HP. destruct HP as (A & HA & ->).
  rewrite (wnaf_scalar_mult_of c Hc), (scalar_mult_of c Hc) by assumption. reflexivity.
Qed.

Lemma X16_witness :
  wnaf_scalar_mult 11 (affine TOY17 5 1) 2 = scalar_mult 11 (affine TOY17 5 1).
Proof.
  apply (X16_wnaf_any_width TOY17 11 2 (affine TOY17 5 1)).
  - exact TOY17_valid.
  - discriminate.
  - lia.
  - valid_point_eval.
Defined.



Lemma wnaf_digits_stable (w : Z) (Hw : 2 <= w) (f : nat) : forall (k : Z) (m : nat),
  0 <= k <= wnaf_bound w (Z.of_nat f) ->
  wnaf_digits (f + m) k w = wnaf_digits f k w.
Proof.
  induction f as [| f IH]; intros k m Hk.
  - change (wnaf_bound w (Z.of_nat 0)) with 0 in Hk. assert (k = 0) by lia. subst k.
    destruct m; reflexivity.
  - cbn [Nat.add wnaf_digits]. destruct (Z.ltb_spec 0 k) as [Hp | Hp]; [| reflexivity].
    f_equal. apply IH.
    pose proof (wnaf_step w Hw k (Z.of_nat f) Hp ltac:(lia)) as St.
    replace (Z.of_nat f + 1) with (Z.of_nat (S f)) in St by lia.
    destruct (St ltac:(lia)) as [_ St']. exact St'.
Qed.

(** X18: the recoding loop of [wnaf_scalar_mult], for a width [w >= 2] and
    a positive [k]: the digits it produces, least significant first, sum to
    [k] with weights [2^i]; each digit is zero or odd and below [2^(w-1)]
    in absolute value; and the loop has ended by itself, so that more
    iterations add no digit. *)
Theorem X18_wnaf_recoding (w k : Z) (m : nat) :
  2 <= w -> 0 < k ->
  naf_value (wnaf_digits (wnaf_fuel k w) k w) = k /\
  Forall (naf_digit_ok w) (wnaf_digits (wnaf_fuel k w) k w) /\
  wnaf_digits (wnaf_fuel k w + m) k w = wnaf_digits (wnaf_fuel k w) k w.
Proof.
  intros Hw Hk. pose proof (wnaf_fuel_enough w Hw k Hk) as Hf.
  destruct (wnaf_digits_value w Hw (wnaf_fuel k w) k ltac:(lia)) as [V D].
  split; [exact V |]. split; [exact D |].
  apply wnaf_digits_stable; [exact Hw | lia].
Qed.

Lemma X18_witness :
  naf_value (wnaf_digits (wnaf_fuel 1234567 5) 1234567 5) = 1234567 /\
  Forall (naf_digit_ok 5) (wnaf_digits (wnaf_fuel 1234567 5) 1234567 5) /\
  wnaf_digits (wnaf_fuel 1234567 5 + 3) 1234567 5 = wnaf_digits (wnaf_fuel 1234567 5) 1234567 5.
Proof. apply (X18_wnaf_recoding 5 1234567 3); lia. Defined.

(** X19: the two curves of the module are consistent with their
    comments: each base point passes the constructor's check unchanged, and
    the coefficient [a] of secp256r1 is [-3] modulo [p]. *)
Theorem X19_named_curves_are_consistent :
  G SECP256K1 = Ok (affine SECP256K1 (Gx SECP256K1) (Gy SECP256K1)) /\
  G SECP256R1 = Ok (affine SECP256R1 (Gx SECP256R1) (Gy SECP256R1)) /\
  a SECP256R1 = (-3) mod p SECP256R1.
Proof. repeat split; vm_compute; reflexivity. Qed.

(** ** ecdsa.py: integers and octets *)

Lemma byte_val_of_Z (v : Z) : byte_val (byte_of_Z v) = v mod 256.
Proof.
  unfold byte_val, byte_of_Z.
  pose proof (Z.mod_pos_bound v 256 ltac:(lia)) as Hb.
  pose proof (Byte.to_of_N_option_map (Z.to_N (v mod 256))) as H.
  destruct (Byte.of_N (Z.to_N (v mod 256))) as [x |] eqn:E.
  - apply Byte.to_of_N in E. rewrite E. lia.
  - simpl in H. destruct (N.leb_spec (Z.to_N (v mod 256)) 255); [discriminate | lia].
Qed.

Lemma int_from_bytes_app (l : bytes) (x : byte) :
  int_from_bytes (l ++ [x]) = int_from_bytes l * 256 + byte_val x.
Proof. unfold int_from_bytes. rewrite fold_left_app. reflexivity. Qed.

Lemma be_bytes_spec (len : nat) : forall v : Z,
  List.length (be_bytes len v) = len /\
  int_from_bytes (be_bytes len v) = v mod 256 ^ Z.of_nat len.
Proof.
  induction len as [| len IH]; intros v.
  - split; [reflexivity |]. simpl. rewrite Z.mod_1_r. reflexivity.
  - destruct (IH (v / 256)) as [L V]. cbn [be_bytes]. split.
    + rewrite length_app, L. simpl. lia.
    + rewrite int_from_bytes_app, V, byte_val_of_Z.
      rewrite Nat2Z.inj_succ, Z.pow_succ_r by lia.
      rewrite Z.rem_mul_r by (try apply Z.pow_pos_nonneg; lia). ring.
Qed.

Lemma int_to_bytes_fits (v len : Z) : 0 <= len -> 0 <= v < 256 ^ len ->
  exists bs, int2octets v len = Ok bs /\ Z.of_nat (List.length bs) = len /\
             int_from_bytes bs = v.
Proof.
  intros Hl Hv. unfold int2octets, int_to_bytes.
  destruct (Z.ltb_spec len 0); [lia |].
  destruct (Z.ltb_spec v 0); [lia |].
  destruct (Z.leb_spec (256 ^ len) v); [lia |].
  destruct (be_bytes_spec (Z.to_nat len) v) as [L V].
  eexists. split; [reflexivity |]. split; [rewrite L; lia |].
  rewrite V, Z2Nat.id by lia. apply Z.mod_small. lia.
Qed.

Lemma int_to_bytes_overflow (v len : Z) : 0 <= len -> v < 0 \/ 256 ^ len <= v ->
  int2octets v len = Raise OverflowError.
Proof.
  intros Hl Hv. unfold int2octets, int_to_bytes. destruct (Z.ltb_spec len 0); [lia |].
  destruct (Z.ltb_spec v 0); [reflexivity |].
  destruct (Z.leb_spec (256 ^ len) v); [reflexivity | lia].
Qed.

(** X20: [x.to_bytes(len, 'big')] followed by [int.from_bytes(_, 'big')]
    is the identity on the integers that fit, the bytes are [len] many, and
    the integers that do not fit (negative, or [256^len] and above) raise
    [OverflowError]. *)
Theorem X20_int2octets_round_trip (v len : Z) :
  0 <= len ->
  (0 <= v < 256 ^ len ->
   exists bs, int2octets v len = Ok bs /\ Z.of_nat (List.length bs) = len /\
              int_from_bytes bs = v) /\
  (v < 0 \/ 256 ^ len <= v -> int2octets v len = Raise OverflowError).
Proof.
  intros Hl. split.
  - apply int_to_bytes_fits. exact Hl.
  - unfold int2octets, int_to_bytes. destruct (Z.ltb_spec len 0); [lia |].
    intros Hv. destruct (Z.ltb_spec v 0); [reflexivity |].
    destruct (Z.leb_spec (256 ^ len) v); [reflexivity | lia].
Qed.

Lemma X20_witness :
  (0 <= 300 < 256 ^ 2 ->
   exists bs, int2octets 300 2 = Ok bs /\ Z.of_nat (List.length bs) = 2 /\
              int_from_bytes bs = 300) /\
  (300 < 0 \/ 256 ^ 2 <= 300 -> int2octets 300 2 = Raise OverflowError).
Proof. apply (X20_int2octets_round_trip 300 2). lia. Defined.

Lemma rolen_fits (m : Z) : 0 < m -> m <= 256 ^ ((bit_length m + 7) / 8).
Proof. intros H. pose proof (bytes_fit m ltac:(lia)). lia. Qed.

Lemma bits2octets_ok (h1 : bytes) (m : Z) : 0 < m ->
  exists bs, bits2octets h1 m = Ok bs /\
    Z.of_nat (List.length bs) = (bit_length m + 7) / 8 /\
    int_from_bytes bs = int_from_bytes h1 mod m.
Proof.
  intros Hm. unfold bits2octets. rewrite pymod_ok, bind_ok by lia.
  pose proof (Z.mod_pos_bound (int_from_bytes h1) m Hm) as Hb.
  pose proof (rolen_fits m Hm) as Hr.
  assert (Hl : 0 <= (bit_length m + 7) / 8).
  { apply Z.div_pos; [| lia]. pose proof (bit_length_nonneg m). lia. }
  destruct (int_to_bytes_fits (int_from_bytes h1 mod m) ((bit_length m + 7) / 8) Hl)
    as (bs & E & L & V); [lia |].
  exists bs. repeat split; assumption.
Qed.

(** X21: for a positive [n], [bits2octets] never raises: it returns the
    [rolen] bytes of the digest reduced modulo [n]. *)
Theorem X21_bits2octets_total (h1 : bytes) (m : Z) :
  0 < m ->
  exists bs, bits2octets h1 m = Ok bs /\
    Z.of_nat (List.length bs) = (bit_length m + 7) / 8 /\
    int_from_bytes bs = int_from_bytes h1 mod m.
Proof. apply bits2octets_ok. Qed.

Lemma X21_witness :
  exists bs, bits2octets (sha msg_abc) 19 = Ok bs /\
    Z.of_nat (List.length bs) = (bit_length 19 + 7) / 8 /\
    int_from_bytes bs = int_from_bytes (sha msg_abc) mod 19.
Proof. apply (X21_bits2octets_total (sha msg_abc) 19). lia. Defined.

(** ** ecdsa.py: the nonce, key generation and signing *)

Lemma bits2int_range (bs : bytes) (qlen m : Z) : 0 < m ->
  exists k, bits2int bs qlen m = Ok k /\ 0 <= k < m.
Proof.
  intros Hm. unfold bits2int. rewrite pymod_ok by lia.
  eexists. split; [reflexivity |]. apply Z.mod_pos_bound. exact Hm.
Qed.

(** X22: for a positive [n], [bits2int] returns a value in [0, n); the
    range test [1 <= k < n] of the nonce loop therefore fails for [k = 0]
    only. *)
Theorem X22_bits2int_is_reduced (bs : bytes) (qlen m : Z) :
  0 < m ->
  exists k, bits2int bs qlen m = Ok k /\ 0 <= k < m /\
            (1 <=? k) && (k <? m) = negb (k =? 0).
Proof.
  intros Hm. destruct (bits2int_range bs qlen m Hm) as (k & E & Hk).
  exists k. split; [exact E |]. split; [exact Hk |].
  destruct (Z.leb_spec 1 k); destruct (Z.ltb_spec k m); destruct (Z.eqb_spec k 0);
    try reflexivity; lia.
Qed.

Lemma X22_witness :
  exists k, bits2int (sha msg_abc) 5 19 = Ok k /\ 0 <= k < 19 /\
            (1 <=? k) && (k <? 19) = negb (k =? 0).
Proof. apply (X22_bits2int_is_reduced (sha msg_abc) 5 19). lia. Defined.

(** X23: a private key that is negative or does not fit in [rolen] bytes
    makes [int2octets] raise [OverflowError], before any HMAC is computed;
    [sign] passes the exception on. *)
Theorem X23_oversized_key_overflows (sha256 : bytes -> bytes)
    (hmac_sha256 : bytes -> bytes -> bytes)
    (fuel : nat) (priv : Z) (msg : bytes) (c : Curve) :
  priv < 0 \/ 256 ^ ((bit_length (n c) + 7) / 8) <= priv ->
  rfc6979_generate_k hmac_sha256 fuel priv (sha256 msg) (n c) = Some (Raise OverflowError) /\
  sign sha256 hmac_sha256 fuel priv msg c = Some (Raise OverflowError).
Proof.
  intros H.
  assert (Hl : 0 <= (bit_length (n c) + 7) / 8).
  { apply Z.div_pos; [| lia]. pose proof (bit_length_nonneg (n c)). lia. }
  assert (E : rfc6979_generate_k hmac_sha256 fuel priv (sha256 msg) (n c)
              = Some (Raise OverflowError)).
  { unfold rfc6979_generate_k.
    rewrite (int_to_bytes_overflow priv _ Hl H). reflexivity. }
  split; [exact E |]. unfold sign. rewrite E. reflexivity.
Qed.

Lemma X23_witness :
  rfc6979_generate_k hmac 40 256 (sha msg_abc) (n TOY17) = Some (Raise OverflowError) /\
  sign sha hmac 40 256 msg_abc TOY17 = Some (Raise OverflowError).
Proof.
  apply (X23_oversized_key_overflows sha hmac 40 256 msg_abc TOY17).
  right. vm_compute. discriminate.
Defined.

Lemma generate_k_loop_ok (hmac_sha256 : bytes -> bytes -> bytes) (f : nat) :
  forall K V qlen rolen m o, 0 < m ->
  generate_k_loop hmac_sha256 f K V qlen rolen m = Some o -> exists k, o = Ok k.
Proof.
  induction f as [| f IH]; intros K V qlen rolen m o Hm E; [discriminate |].
  rewrite generate_k_loop_S in E.
  destruct (generate_T hmac_sha256 (S f) K V [] rolen) as [[V1 T] |]; [| discriminate].
  destruct (bits2int_range T qlen m Hm) as (k & Ek & _). rewrite Ek in E.
  destruct ((1 <=? k) && (k <? m)).
  - injection E as <-. exists k. reflexivity.
  - eapply IH; [exact Hm | exact E].
Qed.

Lemma nonce_ok (hmac_sha256 : bytes -> bytes -> bytes)
    (fuel : nat) (priv : Z) (h1 : bytes) (m : Z) (o : result Z) :
  0 < m -> 0 <= priv < 256 ^ ((bit_length m + 7) / 8) ->
  rfc6979_generate_k hmac_sha256 fuel priv h1 m = Some o ->
  exists k, o = Ok k /\ 1 <= k < m.
Proof.
  intros Hm Hp E.
  assert (Ex : exists k, o = Ok k).
  { unfold rfc6979_generate_k in E.
    assert (Hl : 0 <= (bit_length m + 7) / 8).
    { apply Z.div_pos; [| lia]. pose proof (bit_length_nonneg m). lia. }
    destruct (int_to_bytes_fits priv _ Hl Hp) as (b1 & E1 & _).
    unfold int2octets in E, E1. rewrite E1 in E.
    destruct (bits2octets_ok h1 m Hm) as (b2 & E2 & _). rewrite E2 in E.
    eapply generate_k_loop_ok; [exact Hm | exact E]. }
  destruct Ex as [k ->]. exists k. split; [reflexivity |].
  eapply rfc6979_range. exact E.
Qed.

(** X24: for a positive [n] and a private key that fits in [rolen] bytes,
    the nonce generator raises nothing: when it ends, it returns a nonce,
    and the nonce is in [1, n). *)
Theorem X24_nonce_in_range (hmac_sha256 : bytes -> bytes -> bytes)
    (fuel : nat) (priv : Z) (h1 : bytes) (m : Z) (o : result Z) :
  0 < m -> 0 <= priv < 256 ^ ((bit_length m + 7) / 8) ->
  rfc6979_generate_k hmac_sha256 fuel priv h1 m = Some o ->
  exists k, o = Ok k /\ 1 <= k < m.
Proof. apply nonce_ok. Qed.

Lemma X24_witness : exists k, Ok 17 = Ok k /\ 1 <= k < 19.
Proof.
  apply (X24_nonce_in_range hmac 40 1 (sha msg_abc) 19 (Ok 17)).
  - lia.
  - vm_compute. split; [discriminate | reflexivity].
  - vm_compute. reflexivity.
Defined.

Lemma generate_draw_spec (draws : list Z) (m d : Z) :
  generate_draw draws m = Some d ->
  1 <= d < m /\
  exists skipped rest, draws = skipped ++ d :: rest /\
    Forall (fun e => ~ (1 <= e < m)) skipped.
Proof.
  induction draws as [| e rest IH]; [discriminate |]. cbn [generate_draw].
  destruct (Z.leb_spec 1 e) as [H1 | H1]; destruct (Z.ltb_spec e m) as [H2 | H2]; cbn [andb].
  - intros E. injection E as <-. split; [lia |]. exists [], rest. split; [reflexivity | constructor].
  - intros E. destruct (IH E) as (R & sk & rs & -> & F). split; [exact R |].
    exists (e :: sk), rs. split; [reflexivity |]. constructor; [lia | exact F].
  - intros E. destruct (IH E) as (R & sk & rs & -> & F). split; [exact R |].
    exists (e :: sk), rs. split; [reflexivity |]. constructor; [lia | exact F].
  - intros E. destruct (IH E) as (R & sk & rs & -> & F). split; [exact R |].
    exists (e :: sk), rs. split; [reflexivity |]. constructor; [lia | exact F].
Qed.

(** X25: [KeyPair.generate] keeps the first draw that lies in [1, n) and
    skips the others; the key pair it returns is on the given curve, its
    private scalar is in [1, n) and its public point is that scalar times
    the base point. *)
Theorem X25_generate_key_pair (draws : list Z) (c : Curve) (kp : KeyPair) :
  KeyPair_generate draws c = Some (Ok kp) ->
  kp_curve kp = c /\ 1 <= kp_priv kp < n c /\
  (exists skipped rest, draws = skipped ++ kp_priv kp :: rest /\
     Forall (fun e => ~ (1 <= e < n c)) skipped) /\
  exists g, G c = Ok g /\ scalar_mult (kp_priv kp) g = Ok (kp_pub kp).
Proof.
  unfold KeyPair_generate. intros E.
  destruct (n c <=? 0); [discriminate |].
  destruct (generate_draw draws (n c)) as [d |] eqn:Ed; [| discriminate].
  apply generate_draw_spec in Ed. destruct Ed as [R Sk].
  injection E as E.
  destruct (G c) as [g | e]; [| discriminate]. rewrite bind_ok in E.
  destruct (scalar_mult d g) as [Q | e] eqn:EQ; [| discriminate]. rewrite bind_ok in E.
  injection E as <-. cbn [kp_curve kp_priv kp_pub].
  split; [reflexivity |]. split; [exact R |]. split; [exact Sk |].
  exists g. split; [reflexivity | exact EQ].
Qed.

Lemma X25_witness :
  kp_curve {| kp_curve := TOY17; kp_priv := 2; kp_pub := affine TOY17 6 3 |} = TOY17 /\
  1 <= kp_priv {| kp_curve := TOY17; kp_priv := 2; kp_pub := affine TOY17 6 3 |} < n TOY17 /\
  (exists skipped rest,
     [0; 25; 2; 7] =
       skipped ++ kp_priv {| kp_curve := TOY17; kp_priv := 2; kp_pub := affine TOY17 6 3 |} :: rest /\
     Forall (fun e => ~ (1 <= e < n TOY17)) skipped) /\
  exists g, G TOY17 = Ok g /\
    scalar_mult (kp_priv {| kp_curve := TOY17; kp_priv := 2; kp_pub := affine TOY17 6 3 |}) g =
    Ok (kp_pub {| kp_curve := TOY17; kp_priv := 2; kp_pub := affine TOY17 6 3 |}).
Proof.
  apply (X25_generate_key_pair [0; 25; 2; 7] TOY17
           {| kp_curve := TOY17; kp_priv := 2; kp_pub := affine TOY17 6 3 |}).
  vm_compute. reflexivity.
Defined.

(** X26: on a valid curve whose base point has prime order, with a
    private key that fits in [rolen] bytes, [sign] has two outcomes only:
    a signature, or the unbounded retry ([RecursionError]) when [r] or [s]
    is zero. *)
Theorem X26_sign_outcomes (sha256 : bytes -> bytes) (hmac_sha256 : bytes -> bytes -> bytes)
    (c : Curve) (fuel : nat) (priv : Z) (msg : bytes) (out : result (Z * Z)) :
  valid_curve c -> valid_base c ->
  0 <= priv < 256 ^ ((bit_length (n c) + 7) / 8) ->
  sign sha256 hmac_sha256 fuel priv msg c = Some out ->
  (exists sig, out = Ok sig) \/ out = Raise RecursionError.
Proof.
  intros Hc Hb Hp E. pose proof (n_ge_2 c Hb) as H2.
  assert (Hn : n c <> 0) by lia.
  unfold sign in E.
  destruct (rfc6979_generate_k hmac_sha256 fuel priv (sha256 msg) (n c)) as [o |] eqn:EK;
    [| discriminate].
  destruct (nonce_ok hmac_sha256 fuel priv (sha256 msg) (n c) o ltac:(lia) Hp EK)
    as (k & -> & Hk).
  injection E as <-.
  rewrite (G_ok c Hc Hb), bind_ok, (mult_G c Hc Hb), bind_ok.
  assert (NZ : EC.zmul (p c) (curve_A c) k (base_pt c) <> EC.O).
  { apply (zmul_G_nz c Hc Hb). rewrite Z.mod_small; lia. }
  destruct (EC.zmul (p c) (curve_A c) k (base_pt c)) as [| u v]; [contradiction |].
  cbn [of_pt x]. rewrite pymod_ok, bind_ok by exact Hn.
  destruct (Zmod.to_Z u mod n c =? 0); [right; reflexivity |].
  destruct (pypow_inv k (n c) (vb_prime c Hb)) as (ki & Eki & _).
  { rewrite Z.mod_small; lia. }
  rewrite Eki, bind_ok, pymod_ok, bind_ok, pymod_ok, bind_ok by exact Hn.
  destruct (_ =? 0); [right; reflexivity |].
  left. eexists. reflexivity.
Qed.

Lemma X26_witness :
  (exists sig, @Raise (Z * Z) RecursionError = Ok sig) \/
  @Raise (Z * Z) RecursionError = Raise RecursionError.
Proof.
  apply (X26_sign_outcomes sha hmac TOY17 40 2 msg_x).
  - exact TOY17_valid.
  - exact TOY17_base.
  - vm_compute. split; [discriminate | reflexivity].
  - vm_compute. reflexivity.
Defined.

(** ** ecdh.py *)

(** X27: [ecdh_shared_secret] raises [ValueError] for a private scalar
    outside [1, n), and for the point at infinity as peer key. *)
Theorem X27_ecdh_rejections (sha256 : bytes -> bytes) (d : Z) (Q : Point) :
  (~ (1 <= d < n (curve Q)) -> ecdh_shared_secret sha256 d Q = Raise ValueError) /\
  (1 <= d < n (curve Q) -> Pt.is_infinity Q = true ->
   ecdh_shared_secret sha256 d Q = Raise ValueError).
Proof.
  unfold ecdh_shared_secret. split.
  - intros H. destruct (Z.leb_spec 1 d); destruct (Z.ltb_spec d (n (curve Q)));
      try reflexivity. lia.
  - intros H HI. destruct (Z.leb_spec 1 d); [| lia].
    destruct (Z.ltb_spec d (n (curve Q))); [| lia]. cbn [andb negb].
    unfold scalar_mult, scalar_mult_body. rewrite pymod_ok, bind_ok by lia.
    rewrite HI, orb_true_r, bind_ok. reflexivity.
Qed.

(** ** ecdsa.py: verification accepts both forms of [s] *)

Lemma mult_pt_killed (c : Curve) (k : Z) (B : EC.pt (p c)) : valid_curve c ->
  EC.on_curve (p c) (curve_A c) (curve_B c) B ->
  EC.zmul (p c) (curve_A c) (n c) B = EC.O ->
  mult_pt c k B = EC.zmul (p c) (curve_A c) k B.
Proof.
  intros Hc HB HK. unfold mult_pt.
  destruct (Z.eqb_spec (k mod n c) 0) as [E | E]; [| reflexivity].
  rewrite <- (g_zmul_mod c Hc (n c) k B) by assumption. rewrite E. reflexivity.
Qed.

Lemma zmul_killed_opp (c : Curve) (j k : Z) (B : EC.pt (p c)) : valid_curve c ->
  EC.on_curve (p c) (curve_A c) (curve_B c) B ->
  EC.zmul (p c) (curve_A c) (n c) B = EC.O ->
  j mod n c = (- k) mod n c ->
  EC.zmul (p c) (curve_A c) j B = EC.opp (p c) (EC.zmul (p c) (curve_A c) k B).
Proof.
  intros Hc HB HK E.
  rewrite <- (g_zmul_mod c Hc (n c) j B), E, (g_zmul_mod c Hc) by assumption.
  apply g_zmul_opp; try exact Hc.
Qed.

(** X28: [verify] does not require the low-S form that [sign] produces:
    on a valid curve whose base point has prime order, for a public point
    that [n] kills, the pairs [(r, s)] and [(r, n - s)] get the same
    answer. *)
Theorem X28_verify_accepts_both_s (sha256 : bytes -> bytes) (c : Curve) (pub : Point)
    (msg : bytes) (r s : Z) :
  valid_curve c -> valid_base c -> valid_point c pub -> killed_by_n c pub ->
  1 <= r < n c -> 1 <= s < n c ->
  verify sha256 pub msg (r, n c - s) = verify sha256 pub msg (r, s).
Proof.
  intros Hc Hb HP HK Hr Hs. pose proof (n_ge_2 c Hb) as H2.
  apply (valid_point_of c Hc) in HP. destruct HP as (A & HA & ->).
  unfold killed_by_n in HK. rewrite to_pt_of_pt in HK.
  pose proof (vb_on c Hb) as GO. pose proof (vb_order c Hb) as GK.
  destruct (verify_of sha256 c Hc (vb_prime c Hb) GO A msg r s HA Hr Hs) as (w & _ & Hw & E).
  destruct (verify_of sha256 c Hc (vb_prime c Hb) GO A msg r (n c - s) HA Hr ltac:(lia))
    as (w' & _ & Hw' & E').
  rewrite E, E'. f_equal.
  rewrite !(mult_pt_killed c _ _ Hc) by assumption.
  rewrite (zmul_killed_opp c _ ((int_from_bytes (sha256 msg) mod n c * w) mod n c)
             (base_pt c) Hc GO GK).
  2:{ rewrite Z.mod_mod by lia. apply (opposite_inverse (n c) s w w'); assumption || lia. }
  rewrite (zmul_killed_opp c _ ((r * w) mod n c) A Hc HA HK).
  2:{ rewrite Z.mod_mod by lia. apply (opposite_inverse (n c) s w w'); assumption || lia. }
  rewrite <- (g_opp_add c Hc) by (apply (g_zmul_on c Hc); assumption).
  match goal with |- context [EC.opp _ ?S] => destruct S as [| u v] end; reflexivity.
Qed.

Lemma X28_witness :
  verify sha (affine TOY17 5 1) msg_abc (6, n TOY17 - 5) =
  verify sha (affine TOY17 5 1) msg_abc (6, 5).
Proof.
  apply (X28_verify_accepts_both_s sha TOY17 (affine TOY17 5 1) msg_abc 6 5).
  - exact TOY17_valid.
  - exact TOY17_base.
  - valid_point_eval.
  - vm_compute. reflexivity.
  - simpl. lia.
  - simpl. lia.
Defined.

(** ** ecdsa.py: signing, then verifying *)

(** X29: on a valid curve whose base point has prime order [n], for every
    private key in [1, n) with its public key [priv * G] and every message,
    every signature that [sign] returns is accepted by [verify]. *)
Theorem X29_sign_then_verify (sha256 : bytes -> bytes) (hmac_sha256 : bytes -> bytes -> bytes)
    (c : Curve) (fuel : nat) (priv : Z) (msg : bytes) (g pub : Point) (sig : Z * Z) :
  valid_curve c -> valid_base c ->
  1 <= priv < n c -> G c = Ok g -> scalar_mult priv g = Ok pub ->
  sign sha256 hmac_sha256 fuel priv msg c = Some (Ok sig) ->
  verify sha256 pub msg sig = Ok true.
Proof. intros Hc Hb. apply sign_verify; assumption. Qed.

Lemma X29_witness : verify sha (affine TOY17 5 1) msg_abc (6, 5) = Ok true.
Proof.
  apply (X29_sign_then_verify sha hmac TOY17 40 1 msg_abc (affine TOY17 5 1)).
  - exact TOY17_valid.
  - exact TOY17_base.
  - simpl. lia.
  - vm_compute. reflexivity.
  - vm_compute. reflexivity.
  - vm_compute. reflexivity.
Defined.
